(** * The bulk-import job engine of the Brevo console

    A shallow embedding of [src/contexts/JobContext.tsx]: contact parsing,
    the published job map, the control flags, the submission loop of
    [startJob] cut at its [await]s, the pause / resume / cancel commands and
    the one-second ticker. Around the engine, two things it depends on: the
    backend handlers its requests go to (the contact, check-status and
    delete-contacts endpoints of the server listed after
    [src/pages/UserManagement.tsx]) and the account context that supplies
    [accounts] ([src/unnamed/part_000]).

    Conventions.
    - A string is a sequence of UTF-16 code units; [ascii] holds the code
      units below 256, which is the range this development covers.
    - A JS number that counts (index, totalContacts, elapsedTime) is a [nat];
      [delay] is an integer number of seconds; [progress] is an exact
      rational standing for the double the engine computes.
    - [setJobs(updater)] is applied at once: React runs queued updaters in
      order on the latest state, so the published states are the same; the
      [jobs] a callback closes over is taken to be the published one.
    - Code between two [await]s runs without interleaving (one JS thread);
      [await fetch] and [await response.text()] count as one await, no shared
      state being read between them.
    - Calls to [toast] are recorded in the store; [console] output is not.
    - [uuidv4()] is an input: the id it returns for an invocation. *)

From Stdlib Require Import ZArith QArith_base DecimalString Ascii String.
From stdpp Require Import gmap strings list fin_maps.
Close Scope Q_scope.

(** ** Strings: [trim] and [split] *)

Module Str.

(** White space and line terminators that [String.prototype.trim] strips,
    among the code units below 256: TAB, LF, VT, FF, CR, SP, NBSP. *)
Definition is_ws (c : ascii) : bool :=
  let n := nat_of_ascii c in
  (n =? 9) || (n =? 10) || (n =? 11) || (n =? 12) || (n =? 13) || (n =? 32)
  || (n =? 160).

Definition is_empty (s : string) : bool :=
  match s with EmptyString => true | String _ _ => false end.

Fixpoint trimStart (s : string) : string :=
  match s with
  | EmptyString => EmptyString
  | String c s' => if is_ws c then trimStart s' else s
  end.

Fixpoint trimEnd (s : string) : string :=
  match s with
  | EmptyString => EmptyString
  | String c s' =>
      let t := trimEnd s' in
      if is_ws c && is_empty t then EmptyString else String c t
  end.

(** [s.trim()] *)
Definition trim (s : string) : string := trimEnd (trimStart s).

(** [s.split(sep)] for a one-character separator: never the empty list. *)
Fixpoint split (sep : ascii) (s : string) : list string :=
  match s with
  | EmptyString => [EmptyString]
  | String c s' =>
      if Ascii.eqb c sep then EmptyString :: split sep s'
      else match split sep s' with
           | hd :: tl => String c hd :: tl
           | [] => [String c EmptyString]
           end
  end.

Definition LF : ascii := ascii_of_nat 10.
Definition COMMA : ascii := ascii_of_nat 44.

(** Helpers to state how [trim] and [split] commute: a function applied to
    the first, or to the last, element of a list only. *)
Definition map_head {A} (f : A → A) (l : list A) : list A :=
  match l with
  | [] => []
  | x :: l' => f x :: l'
  end.

Fixpoint map_last {A} (f : A → A) (l : list A) : list A :=
  match l with
  | [] => []
  | [x] => [f x]
  | x :: l' => x :: map_last f l'
  end.

End Str.

(** ** Contacts and the parsing stage of [startJob] (lines 96-108) *)

Record Contact := mkContact {
  email : string;
  firstName : string;
  lastName : string;
}.

(** The object built from one trimmed, non-empty line. [parts[k]?.trim()] is
    [Str.trim <$> parts !! k]; [x || ''] turns both [undefined] and the empty
    string into the empty string. [split] always yields a first part, so
    [email] is never [undefined]; were it so it would be as falsy as the
    empty string for the filter that follows. *)
Definition contact_of_line (line : string) : Contact :=
  let parts := Str.split Str.COMMA line in
  {| email := default EmptyString (Str.trim <$> parts !! 0);
     firstName := default EmptyString (Str.trim <$> parts !! 1);
     lastName := default EmptyString (Str.trim <$> parts !! 2) |}.

(** [importData.split('\n').map(trim).filter(line => line !== '')
      .map(line => {...}).filter(contact => contact.email)] *)
Definition parseContacts (importData : string) : list Contact :=
  filter (λ contact, email contact ≠ EmptyString)
    (contact_of_line <$>
       filter (λ line, line ≠ EmptyString)
         (Str.trim <$> Str.split Str.LF importData)).

(** *** The parsing rule in the words of the specification

    A line is kept when it is non-empty after trimming and its first
    comma-delimited field is non-empty after trimming; a kept line gives the
    contact made of its trimmed first, second and third comma-delimited
    fields, an absent field counting as the empty string. *)
Module ParseSpec.

Definition field (k : nat) (line : string) : option string :=
  Str.split Str.COMMA line !! k.

Definition trimmed_field (k : nat) (line : string) : string :=
  default EmptyString (Str.trim <$> field k line).

Definition kept (line : string) : Prop :=
  Str.trim line ≠ EmptyString ∧ trimmed_field 0 line ≠ EmptyString.

Global Instance kept_dec line : Decision (kept line).
Proof. unfold kept. apply _. Defined.

Definition contact (line : string) : Contact :=
  {| email := trimmed_field 0 line;
     firstName := trimmed_field 1 line;
     lastName := trimmed_field 2 line |}.

Definition parse (raw : string) : list Contact :=
  contact <$> filter kept (Str.split Str.LF raw).

End ParseSpec.


(** ** JSON values and [JSON.stringify(v, null, 2)]

    The values the engine serializes: what [JSON.parse] returns for a
    response body and the two objects the engine builds itself. Numbers are
    the integers (status codes, ids). *)

#[local] Set Warnings "-register-all".
Inductive json :=
  | JNull
  | JBool (b : bool)
  | JNum (n : Z)
  | JStr (s : string)
  | JArr (items : list json)
  | JObj (members : list (string * json)).

Module Json.

Definition DQUOTE : ascii := ascii_of_nat 34.
Definition BACKSLASH : ascii := ascii_of_nat 92.

Definition hex_digit (n : nat) : ascii :=
  if n <? 10 then ascii_of_nat (48 + n) else ascii_of_nat (87 + n).

(** One code unit inside a quoted JSON string. *)
Definition escape_char (c : ascii) : string :=
  let n := nat_of_ascii c in
  if n =? 34 then String BACKSLASH (String DQUOTE EmptyString)
  else if n =? 92 then String BACKSLASH (String BACKSLASH EmptyString)
  else if n =? 8 then String BACKSLASH "b"
  else if n =? 9 then String BACKSLASH "t"
  else if n =? 10 then String BACKSLASH "n"
  else if n =? 12 then String BACKSLASH "f"
  else if n =? 13 then String BACKSLASH "r"
  else if n <? 32 then
    String BACKSLASH
      ("u00" +:+ String (hex_digit (n / 16)) (String (hex_digit (n mod 16)) EmptyString))
  else String c EmptyString.

Fixpoint escape (s : string) : string :=
  match s with
  | EmptyString => EmptyString
  | String c s' => escape_char c +:+ escape s'
  end.

Definition quote (s : string) : string :=
  String DQUOTE (escape s +:+ String DQUOTE EmptyString).

Definition number (n : Z) : string := NilZero.string_of_int (Z.to_int n).

Fixpoint indent (depth : nat) : string :=
  match depth with
  | O => EmptyString
  | S d => "  " +:+ indent d
  end.

Definition newline : string := String Str.LF EmptyString.

(** Items already rendered, one per line at [depth + 1], between the
    brackets [open] and [close]; the empty collection has no line break. *)
Definition block (open close : string) (depth : nat) (rendered : list string) : string :=
  match rendered with
  | [] => open +:+ close
  | _ =>
      open +:+ newline
      +:+ String.concat ("," +:+ newline) ((λ r, indent (S depth) +:+ r) <$> rendered)
      +:+ newline +:+ indent depth +:+ close
  end.

Fixpoint render (depth : nat) (v : json) : string :=
  match v with
  | JNull => "null"
  | JBool true => "true"
  | JBool false => "false"
  | JNum n => number n
  | JStr s => quote s
  | JArr items => block "[" "]" depth (map (render (S depth)) items)
  | JObj members =>
      block "{" "}" depth
        (map (λ m, quote (fst m) +:+ ": " +:+ render (S depth) (snd m)) members)
  end.

(** [JSON.stringify(v, null, 2)] *)
Definition stringify (v : json) : string := render 0 v.

End Json.


(** ** The data model (interfaces [Job], [ImportResult]; lines 9-27) *)

Inductive JobStatus := running | paused | completed | cancelled.
Inductive ResultStatus := success | failed.

Global Instance JobStatus_eq_dec : EqDecision JobStatus.
Proof. solve_decision. Defined.

Module ImportResult.
Record t := mk {
  index : nat;
  email : string;
  status : ResultStatus;
  data : string;
}.
End ImportResult.

Module Job.
Record t := mk {
  id : string;
  accountId : string;
  listId : string;
  listName : string;
  status : JobStatus;
  progress : Q;
  results : list ImportResult.t;
  totalContacts : nat;
  elapsedTime : nat;
  delay : Z;
}.

(** [{ ...job, status, progress }] *)
Definition with_status_progress (st : JobStatus) (p : Q) (j : t) : t :=
  mk (id j) (accountId j) (listId j) (listName j) st p (results j)
     (totalContacts j) (elapsedTime j) (delay j).

(** [{ ...job, results, progress }] *)
Definition with_results_progress (rs : list ImportResult.t) (p : Q) (j : t) : t :=
  mk (id j) (accountId j) (listId j) (listName j) (status j) p rs
     (totalContacts j) (elapsedTime j) (delay j).

(** [{ ...job, elapsedTime }] *)
Definition with_elapsedTime (e : nat) (j : t) : t :=
  mk (id j) (accountId j) (listId j) (listName j) (status j) (progress j)
     (results j) (totalContacts j) e (delay j).
End Job.

(** The slice of [Account] the engine reads. *)
Record Account := mkAccount {
  acc_id : string;
  acc_apiKey : string;
}.

(** ** A JS object used as a record: string keys in insertion order

    [Object.values] and [for ... in] walk the keys in insertion order (job
    ids are UUIDs, never array indices), and [startJob] takes the first job
    of an account it meets in that order. *)
Module Obj.
Section Obj.
Context {A : Type}.

(** [o[k]] *)
Fixpoint get (k : string) (o : list (string * A)) : option A :=
  match o with
  | [] => None
  | (k', v) :: o' => if decide (k' = k) then Some v else get k o'
  end.

(** [{ ...o, [k]: v }]: in place when the key is there, else appended. *)
Fixpoint set (k : string) (v : A) (o : list (string * A)) : list (string * A) :=
  match o with
  | [] => [(k, v)]
  | (k', v') :: o' =>
      if decide (k' = k) then (k, v) :: o' else (k', v') :: set k v o'
  end.

(** [delete o[k]] on a copy *)
Definition del (k : string) (o : list (string * A)) : list (string * A) :=
  filter (λ kv, fst kv ≠ k) o.

(** [Object.values(o)] *)
Definition values (o : list (string * A)) : list A := snd <$> o.

Definition keys (o : list (string * A)) : list string := fst <$> o.
End Obj.
End Obj.

(** ** The store: published jobs, control flags, notices

    [jobControlRefs.current] maps a job id to a control object; the loop
    keeps the object it read at the top of an iteration in [controls], so the
    objects live in a heap of their own and the map holds their addresses.
    An address is an index in the heap; objects are never freed. *)

Record Controls := mkControls {
  isPaused : bool;
  isCancelled : bool;
}.

Abbreviation loc := nat (only parsing).

(** The calls to [toast], by title. *)
Inductive Toast :=
  | ToastAccountNotFound
  | ToastNoValidContacts
  | ToastStartingJob (contacts : nat) (listName : string)
  | ToastJobCancelled (listName : string) (whilePaused : bool)
  | ToastJobCompleted (listName : string)
  | ToastJobPaused (listName : option string)
  | ToastJobResumed (listName : option string)
  | ToastCancellationRequested (listName : option string).

Record Store := mkStore {
  jobs : list (string * Job.t);
  jobControlRefs : gmap string loc;
  heap : list Controls;
  toasts : list Toast;
}.

Definition setJobs (updater : list (string * Job.t) → list (string * Job.t))
    (σ : Store) : Store :=
  mkStore (updater (jobs σ)) (jobControlRefs σ) (heap σ) (toasts σ).

Definition setRefs (f : gmap string loc → gmap string loc) (σ : Store) : Store :=
  mkStore (jobs σ) (f (jobControlRefs σ)) (heap σ) (toasts σ).

Definition setHeap (f : list Controls → list Controls) (σ : Store) : Store :=
  mkStore (jobs σ) (jobControlRefs σ) (f (heap σ)) (toasts σ).

Definition toast (n : Toast) (σ : Store) : Store :=
  mkStore (jobs σ) (jobControlRefs σ) (heap σ) (toasts σ ++ [n]).

(** Reading a field of the control object at an address. *)
Definition deref (σ : Store) (l : loc) : Controls :=
  default (mkControls false false) (heap σ !! l).

(** [jobControlRefs.current[jobId]?.isCancelled] *)
Definition cancel_requested (jobId : string) (σ : Store) : bool :=
  match jobControlRefs σ !! jobId with
  | Some l => isCancelled (deref σ l)
  | None => false
  end.

(** ** The ticker (lines 46-62) *)

Definition tick_job (j : Job.t) : Job.t :=
  if decide (Job.status j = running)
  then Job.with_elapsedTime (Job.elapsedTime j + 1) j
  else j.

Definition tick_jobs (prevJobs : list (string * Job.t)) : list (string * Job.t) :=
  let newJobs := prod_map id tick_job <$> prevJobs in
  let hasChanged :=
    existsb (λ j, bool_decide (Job.status j = running)) (Obj.values prevJobs) in
  if hasChanged then newJobs else prevJobs.

Definition tick (σ : Store) : Store := setJobs tick_jobs σ.

(** ** [removeJob] and [updateJobStatus] (lines 65-86) *)

Definition removeJob (jobId : string) (σ : Store) : Store :=
  setRefs (delete jobId) (setJobs (Obj.del jobId) σ).

Definition updateJobStatus (jobId : string) (st : JobStatus) (σ : Store) : Store :=
  setJobs (λ prev,
    match Obj.get jobId prev with
    | Some currentJob =>
        if decide (Job.status currentJob ≠ st) then
          let progress :=
            if decide (st = completed) then 100%Q else Job.progress currentJob in
          Obj.set jobId (Job.with_status_progress st progress currentJob) prev
        else prev
    | None => prev
    end) σ.

(** ** [pauseJob], [resumeJob], [cancelJob] (lines 267-289) *)

Definition set_isPaused (b : bool) (c : Controls) : Controls :=
  mkControls b (isCancelled c).

Definition set_isCancelled (b : bool) (c : Controls) : Controls :=
  mkControls (isPaused c) b.

Definition listName_of (jobId : string) (σ : Store) : option string :=
  Job.listName <$> Obj.get jobId (jobs σ).

Definition pauseJob (jobId : string) (σ : Store) : Store :=
  match jobControlRefs σ !! jobId with
  | Some l =>
      let σ1 := setHeap (alter (set_isPaused true) l) σ in
      let σ2 := updateJobStatus jobId paused σ1 in
      toast (ToastJobPaused (listName_of jobId σ)) σ2
  | None => σ
  end.

Definition resumeJob (jobId : string) (σ : Store) : Store :=
  match jobControlRefs σ !! jobId with
  | Some l =>
      let σ1 := setHeap (alter (set_isPaused false) l) σ in
      let σ2 := updateJobStatus jobId running σ1 in
      toast (ToastJobResumed (listName_of jobId σ)) σ2
  | None => σ
  end.

Definition cancelJob (jobId : string) (σ : Store) : Store :=
  match jobControlRefs σ !! jobId with
  | Some l =>
      let σ1 := setHeap (alter (set_isCancelled true) l) σ in
      toast (ToastCancellationRequested (listName_of jobId σ)) σ1
  | None => σ
  end.

(** ** One submission: the [try] / [catch] of lines 205-252

    What comes back from [await fetch(...)] and [await response.text()]:
    either of them rejects, or there is a status code and a body. The verdict
    of the host's [JSON.parse] on the body comes with the body ([None]: it
    throws); it is consulted for a non-empty body only. *)

Inductive Outcome :=
  | NetworkFailure
  | Response (status : Z) (responseText : string) (parsed : option json).

(** What the [catch] clause can receive: the [data] thrown at line 223, or
    the [Error] object of a rejected [fetch]. *)
Inductive Thrown :=
  | ThrownData (data : json)
  | ThrownError.

(** [data] of lines 217-222 *)
Definition response_data (status : Z) (responseText : string) (parsed : option json) : json :=
  if Str.is_empty responseText then JObj [("status", JNum status)]
  else match parsed with
       | Some v => v
       | None => JObj [("rawResponse", JStr responseText); ("status", JNum status)]
       end.

(** The [try] block up to line 223: [inl data] when it goes on, [inr error]
    when control passes to the [catch]. *)
Definition attempt (o : Outcome) : json + Thrown :=
  match o with
  | NetworkFailure => inr ThrownError
  | Response status responseText parsed =>
      let data := response_data status responseText parsed in
      if bool_decide (status ≠ 201%Z) && bool_decide (status ≠ 204%Z)
      then inr (ThrownData data)
      else inl data
  end.

(** [typeof error === 'string' ? error : JSON.stringify(error, null, 2)];
    an [Error] object has no enumerable property of its own. *)
Definition errorDataString (error : Thrown) : string :=
  match error with
  | ThrownData (JStr s) => s
  | ThrownData v => Json.stringify v
  | ThrownError => Json.stringify (JObj [])
  end.

(** [((i + 1) / currentJob.totalContacts) * 100] *)
Definition newProgress (i : nat) (currentJob : Job.t) : Q :=
  (inject_Z (Z.of_nat (i + 1)) / inject_Z (Z.of_nat (Job.totalContacts currentJob)) * 100)%Q.

(** The updater shared by the two [setJobs] calls of lines 226 and 240. *)
Definition push_result (jobId : string) (i : nat) (newResult : ImportResult.t)
    (prev : list (string * Job.t)) : list (string * Job.t) :=
  match Obj.get jobId prev with
  | None => prev
  | Some currentJob =>
      let updatedResults := newResult :: Job.results currentJob in
      Obj.set jobId
        (Job.with_results_progress updatedResults (newProgress i currentJob) currentJob)
        prev
  end.

Definition record_result (jobId : string) (i : nat) (contact : Contact) (o : Outcome)
    (σ : Store) : Store :=
  match attempt o with
  | inl data =>
      setJobs (push_result jobId i
        (ImportResult.mk (i + 1) (email contact) success (Json.stringify data))) σ
  | inr error =>
      setJobs (push_result jobId i
        (ImportResult.mk (i + 1) (email contact) failed (errorDataString error))) σ
  end.

(** ** The submission loop of [startJob] (lines 150-262), cut at its awaits *)

(** The variables an invocation of [startJob] closes over. [jobId] is the
    value [uuidv4()] returns for this invocation. *)
Record Task := mkTask {
  t_account : Account;
  t_accountId : string;
  t_listId : string;
  t_listName : string;
  t_contacts : list Contact;
  t_delay : Z;
  t_jobId : string;
}.

(** Where an invocation is suspended. [contact] is [contacts[i]];
    [controls] is the control object read at the top of the iteration. *)
Inductive pc :=
  | AwaitYield
  | AwaitPause (i : nat) (contact : Contact) (controls : loc)
  | AwaitDelay (i : nat) (contact : Contact)
  | AwaitFetch (i : nat) (contact : Contact)
  | Finished.

(** What wakes a suspended invocation: a timer, or the provider's answer. *)
Inductive event :=
  | Timer
  | Reply (o : Outcome).

Section Loop.
Variable t : Task.

(** The three statements every cancellation checkpoint runs. *)
Definition publish_cancelled (whilePaused : bool) (σ : Store) : Store :=
  let σ1 := toast (ToastJobCancelled (t_listName t) whilePaused) σ in
  let σ2 := updateJobStatus (t_jobId t) cancelled σ1 in
  setRefs (delete (t_jobId t)) σ2.

(** Lines 255-262, reached when the loop ends or breaks. *)
Definition after_loop (σ : Store) : pc * Store :=
  match jobControlRefs σ !! t_jobId t with
  | Some _ =>
      let σ1 := toast (ToastJobCompleted (t_listName t)) σ in
      let σ2 := updateJobStatus (t_jobId t) completed σ1 in
      (Finished, setRefs (delete (t_jobId t)) σ2)
  | None => (Finished, σ)
  end.

(** Lines 191-215: the re-check after the delay, then the request. *)
Definition post_delay (i : nat) (contact : Contact) (σ : Store) : pc * Store :=
  if cancel_requested (t_jobId t) σ
  then after_loop (publish_cancelled false σ)
  else (AwaitFetch i contact, σ).

(** Lines 177-189: the re-check after the pause, then the delay. *)
Definition post_pause (i : nat) (contact : Contact) (σ : Store) : pc * Store :=
  if cancel_requested (t_jobId t) σ
  then after_loop (publish_cancelled false σ)
  else if bool_decide (0 < i) && bool_decide (0 < t_delay t)%Z
  then (AwaitDelay i contact, σ)
  else post_delay i contact σ.

(** Lines 167-175: one test of [while (controls.isPaused)]. *)
Definition pause_wait (i : nat) (contact : Contact) (controls : loc) (σ : Store)
    : pc * Store :=
  if isPaused (deref σ controls) then
    if isCancelled (deref σ controls)
    then (Finished, publish_cancelled true σ)
    else (AwaitPause i contact controls, σ)
  else post_pause i contact σ.

(** Lines 150-164: the loop test and the first checkpoint. *)
Definition loop_top (i : nat) (σ : Store) : pc * Store :=
  match t_contacts t !! i with
  | None => after_loop σ
  | Some contact =>
      match jobControlRefs σ !! t_jobId t with
      | None => after_loop σ
      | Some controls =>
          if isCancelled (deref σ controls)
          then after_loop (publish_cancelled false σ)
          else pause_wait i contact controls σ
      end
  end.

(** Lines 130-147: the new job is installed, then the loop starts. *)
Definition newJob : Job.t :=
  Job.mk (t_jobId t) (t_accountId t) (t_listId t) (t_listName t) running 0%Q []
         (length (t_contacts t)) 0 (t_delay t).

Definition installed (σ : Store) : Store :=
  let controls := length (heap σ) in
  let σ1 := setHeap (λ h, h ++ [mkControls false false]) σ in
  let σ2 := setRefs (insert (t_jobId t) controls) σ1 in
  let σ3 := setJobs (Obj.set (t_jobId t) newJob) σ2 in
  toast (ToastStartingJob (length (t_contacts t)) (t_listName t)) σ3.

Definition install (σ : Store) : pc * Store := loop_top 0 (installed σ).

(** The code run when a suspended invocation is woken; an event that is
    not the awaited one leaves everything as it is. *)
Definition resume (p : pc) (ev : event) (σ : Store) : pc * Store :=
  match p, ev with
  | AwaitYield, Timer => install σ
  | AwaitPause i contact controls, Timer => pause_wait i contact controls σ
  | AwaitDelay i contact, Timer => post_delay i contact σ
  | AwaitFetch i contact, Reply o =>
      loop_top (S i) (record_result (t_jobId t) i contact o σ)
  | _, _ => (p, σ)
  end.

(** A run of the invocation alone: its events one after the other. *)
Definition run (evs : list event) (st : pc * Store) : pc * Store :=
  foldl (λ st ev, resume (fst st) ev (snd st)) st evs.
End Loop.

(** ** [startJob] up to its first await (lines 89-148) *)

Definition find_account (accounts : list Account) (accountId : string) : option Account :=
  find (λ acc, bool_decide (acc_id acc = accountId)) accounts.

(** [Object.values(jobs).find(job => job.accountId === accountId)?.id] *)
Definition existing_job_id (accountId : string) (σ : Store) : option string :=
  Job.id <$> find (λ job, bool_decide (Job.accountId job = accountId)) (Obj.values (jobs σ)).

(** [None]: the call returned without creating anything. *)
Definition startJob (accounts : list Account) (uuid : string)
    (accountId listId listName importData : string) (delay : Z) (σ : Store)
    : option (Task * pc) * Store :=
  match find_account accounts accountId with
  | None => (None, toast ToastAccountNotFound σ)
  | Some account =>
      let contacts := parseContacts importData in
      if bool_decide (length contacts = 0) then (None, toast ToastNoValidContacts σ)
      else
        let t := mkTask account accountId listId listName contacts delay uuid in
        match existing_job_id accountId σ with
        | Some existingJobId =>
            if Str.is_empty existingJobId then
              let '(p, σ') := install t σ in (Some (t, p), σ')
            else
              let σ1 := setRefs (delete existingJobId) σ in
              (Some (t, AwaitYield), removeJob existingJobId σ1)
        | None => let '(p, σ') := install t σ in (Some (t, p), σ')
        end
  end.

(** ** The whole engine: the store and every invocation of [startJob]

    Commands come from the presentation layer, [Tick] from the interval
    timer, [Wake n ev] resumes the [n]-th invocation with the event it
    awaits. [uuidv4()] is taken never to return the empty string nor an id it
    returned before; a command that would need it to is not enabled. *)

Record System := mkSystem {
  store : Store;
  tasks : list (Task * pc);
}.

Inductive command :=
  | CmdStart (accounts : list Account)
      (uuid accountId listId listName importData : string) (delay : Z)
  | CmdPause (jobId : string)
  | CmdResume (jobId : string)
  | CmdCancel (jobId : string)
  | Tick
  | Wake (n : nat) (ev : event).

Definition used_ids (s : System) : list string := (λ tp, t_jobId (fst tp)) <$> tasks s.

Definition awaited (p : pc) (ev : event) : bool :=
  match p, ev with
  | AwaitYield, Timer => true
  | AwaitPause _ _ _, Timer => true
  | AwaitDelay _ _, Timer => true
  | AwaitFetch _ _, Reply _ => true
  | _, _ => false
  end.

Definition sys_step (c : command) (s : System) : option System :=
  match c with
  | CmdStart accounts uuid accountId listId listName importData delay =>
      if decide (uuid = EmptyString ∨ uuid ∈ used_ids s) then None
      else
        let '(r, σ') :=
          startJob accounts uuid accountId listId listName importData delay (store s) in
        Some (mkSystem σ' (tasks s ++ option_list r))
  | CmdPause jobId => Some (mkSystem (pauseJob jobId (store s)) (tasks s))
  | CmdResume jobId => Some (mkSystem (resumeJob jobId (store s)) (tasks s))
  | CmdCancel jobId => Some (mkSystem (cancelJob jobId (store s)) (tasks s))
  | Tick => Some (mkSystem (tick (store s)) (tasks s))
  | Wake n ev =>
      match tasks s !! n with
      | Some (t, p) =>
          if awaited p ev then
            let '(p', σ') := resume t p ev (store s) in
            Some (mkSystem σ' (<[n := (t, p')]> (tasks s)))
          else None
      | None => None
      end
  end.

Fixpoint exec (cs : list command) (s : System) : option System :=
  match cs with
  | [] => Some s
  | c :: cs' =>
      match sys_step c s with
      | Some s' => exec cs' s'
      | None => None
      end
  end.

Definition empty_store : Store := mkStore [] ∅ [] [].
Definition init : System := mkSystem empty_store [].

Definition reachable (s : System) : Prop := ∃ cs, exec cs init = Some s.


(** ** Vocabulary of the statements *)

(** The provider answered "created" (201) or "no content" (204). *)
Definition succeeded (o : Outcome) : Prop :=
  match o with
  | Response status _ _ => status = 201%Z ∨ status = 204%Z
  | NetworkFailure => False
  end.

Global Instance succeeded_dec o : Decision (succeeded o).
Proof. destruct o; simpl; apply _. Defined.

(** The events that wake an invocation started at [p] and left alone: the
    50 ms timer when it yielded first, then one answer per contact. *)
Definition undisturbed (p : pc) (os : list Outcome) : list event :=
  match p with
  | AwaitYield => [Timer]
  | _ => []
  end ++ (Reply <$> os).

(** The iteration an invocation is suspended in. *)
Definition pc_index (p : pc) : option nat :=
  match p with
  | AwaitPause i _ _ | AwaitDelay i _ | AwaitFetch i _ => Some i
  | AwaitYield | Finished => None
  end.

Definition terminal (st : JobStatus) : Prop := st = completed ∨ st = cancelled.

Global Instance terminal_dec st : Decision (terminal st).
Proof. unfold terminal. apply _. Defined.

(** The entry the [try] / [catch] pushes for contact [i] and outcome [o]. *)
Definition result_of (i : nat) (contact : Contact) (o : Outcome) : ImportResult.t :=
  match attempt o with
  | inl data => ImportResult.mk (i + 1) (email contact) success (Json.stringify data)
  | inr error => ImportResult.mk (i + 1) (email contact) failed (errorDataString error)
  end.

(** The job's flags are there, and neither is raised. *)
Definition quiet (jobId : string) (σ : Store) : Prop :=
  ∃ l, jobControlRefs σ !! jobId = Some l
       ∧ heap σ !! l = Some (mkControls false false).

(** The state of an undisturbed, so far successful job about to get the
    answer for contact [i]. *)
Definition submitting (t : Task) (i : nat) (σ : Store) : Prop :=
  quiet (t_jobId t) σ
  ∧ ∃ j, Obj.get (t_jobId t) (jobs σ) = Some j
         ∧ Job.status j = running
         ∧ Job.totalContacts j = length (t_contacts t)
         ∧ ImportResult.index <$> Job.results j = rev (seq 1 i)
         ∧ Forall (λ r, ImportResult.status r = success) (Job.results j).

(** The state an undisturbed, all-successful run ends in. *)
Definition completed_all (t : Task) (σ : Store) : Prop :=
  jobControlRefs σ !! t_jobId t = None
  ∧ ∃ j, Obj.get (t_jobId t) (jobs σ) = Some j
         ∧ Job.status j = completed
         ∧ Job.progress j = 100%Q
         ∧ Job.totalContacts j = length (t_contacts t)
         ∧ ImportResult.index <$> Job.results j = rev (seq 1 (length (t_contacts t)))
         ∧ Forall (λ r, ImportResult.status r = success) (Job.results j).

(** The [data] of a failed entry, case by case: a rejected request leaves
    the serialized empty object; otherwise the payload is the object holding
    the status for an empty body, the parsed body when the host parses it,
    and the object holding the raw text and the status when it does not; a
    payload that is a string is stored as it is, any other is serialized. *)
Definition failure_data (o : Outcome) : string :=
  match o with
  | NetworkFailure => Json.stringify (JObj [])
  | Response status responseText parsed =>
      if Str.is_empty responseText
      then Json.stringify (JObj [("status", JNum status)])
      else match parsed with
           | Some (JStr s) => s
           | Some v => Json.stringify v
           | None =>
               Json.stringify
                 (JObj [("rawResponse", JStr responseText); ("status", JNum status)])
           end
  end.

(** What an update in place keeps of the published jobs: the keys in
    order, with the [id] and [accountId] stored under each. *)
Definition skeleton (js : list (string * Job.t)) : list (string * (string * string)) :=
  prod_map id (λ j, (Job.id j, Job.accountId j)) <$> js.

(** The published jobs of an account. *)
Definition jobs_of (accountId : string) (js : list (string * Job.t)) : list Job.t :=
  filter (λ j, Job.accountId j = accountId) (Obj.values js).

Definition one_job_per_account (σ : Store) : Prop :=
  ∀ accountId, length (jobs_of accountId (jobs σ)) ≤ 1.

(** Every job is published under its own id. *)
Definition keys_are_ids (σ : Store) : Prop :=
  Forall (λ kj, Job.id (snd kj) = fst kj) (jobs σ).

(** The store at the end of lines 255-262 when the flags are there. *)
Definition publish_completed (t : Task) (σ : Store) : Store :=
  setRefs (delete (t_jobId t))
    (updateJobStatus (t_jobId t) completed
       (toast (ToastJobCompleted (t_listName t)) σ)).

(** The four ways a stretch of the loop run from [σ] can end: suspended
    again with the store untouched, over without a word because the flags
    are gone, over after publishing [cancelled], over after publishing
    [completed]. *)
Definition loop_shape (t : Task) (σ : Store) (r : pc * Store) : Prop :=
  (snd r = σ ∧ is_Some (pc_index (fst r)))
  ∨ (r = (Finished, σ) ∧ jobControlRefs σ !! t_jobId t = None)
  ∨ (∃ whilePaused, r = (Finished, publish_cancelled t whilePaused σ))
  ∨ (r = (Finished, publish_completed t σ)
     ∧ is_Some (jobControlRefs σ !! t_jobId t)).

(** What holds of every reachable state of the engine. *)
Record Inv (s : System) : Prop := mkInv {
  inv_ids_distinct : NoDup (used_ids s);
  inv_ids_nonempty : EmptyString ∉ used_ids s;
  inv_jobs_owned : ∀ k, k ∈ Obj.keys (jobs (store s)) → k ∈ used_ids s;
  inv_flags_owned : ∀ k, is_Some (jobControlRefs (store s) !! k) → k ∈ used_ids s;
  inv_keys_are_ids : keys_are_ids (store s);
  inv_terminal_finished : ∀ t p j,
    (t, p) ∈ tasks s → Obj.get (t_jobId t) (jobs (store s)) = Some j →
    terminal (Job.status j) → p = Finished;
  inv_terminal_no_flags : ∀ k j,
    Obj.get k (jobs (store s)) = Some j → terminal (Job.status j) →
    jobControlRefs (store s) !! k = None;
  inv_yield_unpublished : ∀ t,
    (t, AwaitYield) ∈ tasks s →
    Obj.get (t_jobId t) (jobs (store s)) = None
    ∧ jobControlRefs (store s) !! t_jobId t = None;
}.

(** A control object that is paused, not cancelled, and that no entry of
    the flag map leads to any more. *)
Definition orphaned (l : loc) (σ : Store) : Prop :=
  heap σ !! l = Some (mkControls true false)
  ∧ ∀ k, jobControlRefs σ !! k ≠ Some l.

(** A change of the store that touches no flag entry, adds or removes no
    job, and gives a job a new status only if its flags are there and the
    status is not a terminal one. *)
Definition calm (σ σ' : Store) : Prop :=
  jobControlRefs σ' = jobControlRefs σ
  ∧ skeleton (jobs σ') = skeleton (jobs σ)
  ∧ ∀ k j', Obj.get k (jobs σ') = Some j' →
      ∃ j, Obj.get k (jobs σ) = Some j
           ∧ (Job.status j' = Job.status j
              ∨ is_Some (jobControlRefs σ !! k) ∧ ¬ terminal (Job.status j')).

(** A start is sequential when no earlier start for the same account is
    still in the yield that follows the removal of the previous job. *)
Definition start_allowed (c : command) (s : System) : Prop :=
  match c with
  | CmdStart _ _ accountId _ _ _ _ =>
      ∀ t, (t, AwaitYield) ∈ tasks s → t_accountId t ≠ accountId
  | _ => True
  end.

Fixpoint sequential (cs : list command) (s : System) : Prop :=
  match cs with
  | [] => True
  | c :: cs' =>
      start_allowed c s
      ∧ match sys_step c s with
        | Some s' => sequential cs' s'
        | None => True
        end
  end.

(** What sequential starts keep true, on top of [Inv]. *)
Record OneJob (s : System) : Prop := mkOneJob {
  one_inv : Inv s;
  one_per_account : one_job_per_account (store s);
  one_yield_empty : ∀ t,
    (t, AwaitYield) ∈ tasks s → jobs_of (t_accountId t) (jobs (store s)) = [];
  one_yield_unique : ∀ m n t1 t2,
    tasks s !! m = Some (t1, AwaitYield) → tasks s !! n = Some (t2, AwaitYield) →
    t_accountId t1 = t_accountId t2 → m = n;
}.

(** ** The JavaScript operators the server and the account context apply
    to JSON values *)
Module Js.

(** What is truthy among the JSON values. *)
Definition truthy (v : json) : bool :=
  match v with
  | JNull => false
  | JBool b => b
  | JNum n => negb (n =? 0)%Z
  | JStr s => negb (Str.is_empty s)
  | JArr _ | JObj _ => true
  end.

(** [a || b], [None] being [undefined]. *)
Definition or_else (a b : option json) : option json :=
  match a with
  | Some v => if truthy v then a else b
  | None => b
  end.

(** [v.key] on a value that is neither [null] nor [undefined], for the keys
    read here ([data], [message], [code], [status], [response]): an object
    gives its member, a string, number, boolean or array has no such
    property. *)
Definition prop (key : string) (v : json) : option json :=
  match v with
  | JObj members => Obj.get key members
  | _ => None
  end.

(** [v?.key] *)
Definition opt_prop (key : string) (v : option json) : option json :=
  match v with
  | None | Some JNull => None
  | Some v' => prop key v'
  end.

(** An object literal; a member whose value is [undefined] is read as
    [undefined] and left out by [JSON.stringify], as if it were not there. *)
Definition object (members : list (string * option json)) : json :=
  JObj (omap (λ m, pair (fst m) <$> snd m) members).

(** [response.ok] *)
Definition ok (status : Z) : bool := (200 <=? status)%Z && (status <=? 299)%Z.

End Js.

(** ** The endpoint the engine posts to: [POST /api/brevo/contact]
    (server, lines 514-525 of src/src/pages/UserManagement.tsx)

    The request body is the one the engine sends (lines 210-214 of
    JobContext.tsx): [apiKey] and [listId] are strings and [contact] is an
    object with three string fields, so a field is falsy exactly when it is
    the empty string and [contact] itself is always truthy. The call to the
    provider goes through axios, created without [validateStatus]: the
    promise resolves with the response for a status in 200..299 and rejects
    otherwise, with [error.response] when the provider answered and without
    when it could not be reached. The payload sent to the provider is not
    modelled; what comes back is given with the request. *)
Module Server.

Record ContactBody := mkContactBody {
  b_apiKey : string;
  b_contact : Contact;
  b_listId : string;
}.

(** The outcome of [await apiClient.post(...)]. *)
Inductive Axios :=
  | Resolved (status : Z) (data : json)
  | Rejected (response : option (Z * json)) (message : string).

(** axios with the default [validateStatus]. *)
Definition axios_default (r : Axios) : Prop :=
  match r with
  | Resolved status _ => (200 ≤ status < 300)%Z
  | Rejected (Some (status, _)) _ => ¬ (200 ≤ status < 300)%Z
  | Rejected None _ => True
  end.

(** What the [catch] clause reads of the value it receives:
    [error.response] and [error.message]. *)
Record Caught := mkCaught {
  response : option (Z * json);
  message : option string;
}.

Record Reply := mkReply {
  status : Z;
  body : json;
}.

(** Lines 387-400: the only failure of [getBrevoApiClient]. *)
Definition getBrevoApiClient (apiKey : string) : option Caught :=
  if Str.is_empty apiKey
  then Some (mkCaught None (Some "Brevo API Key is missing."))
  else None.

(** [error.response?.status || 500] *)
Definition errorStatus (error : Caught) : Z :=
  match response error with
  | Some (st, _) => if (st =? 0)%Z then 500%Z else st
  | None => 500%Z
  end.

(** [error.response?.data || { message: error.message }] *)
Definition errorDetails (error : Caught) : json :=
  default JNull
    (Js.or_else (snd <$> response error)
       (Some (Js.object [("message", JStr <$> message error)]))).

(** [errorDetails.data?.message || errorDetails.data?.code ||
     (typeof errorDetails.data === 'string' ? errorDetails.data : null) ||
     errorDetails.message || "Failed import"] *)
Definition errorMessage (details : json) : option json :=
  let data := Js.prop "data" details in
  Js.or_else (Js.opt_prop "message" data)
    (Js.or_else (Js.opt_prop "code" data)
       (Js.or_else (match data with
                 | Some (JStr s) => Some (JStr s)
                 | _ => Some JNull
                 end)
          (Js.or_else (Js.prop "message" details) (Some (JStr "Failed import"))))).

(** The [catch] clause of lines 521-524. *)
Definition on_error (error : Caught) : Reply :=
  let details := errorDetails error in
  mkReply (errorStatus error)
    (Js.object [("error", errorMessage details); ("details", Js.prop "data" details)]).

(** The handler: the reply to a request whose call to the provider, if it is
    made, ends as [brevo] says. *)
Definition contact_endpoint (b : ContactBody) (brevo : Axios) : Reply :=
  if Str.is_empty (b_apiKey b) || Str.is_empty (b_listId b)
     || Str.is_empty (email (b_contact b))
  then mkReply 400
         (JObj [("error", JStr "apiKey, contact(with email), listId required.")])
  else
    match getBrevoApiClient (b_apiKey b) with
    | Some error => on_error error
    | None =>
        match brevo with
        | Resolved st data =>
            if (st =? 201)%Z then mkReply st data
            else
              on_error
                (mkCaught
                   (Some (500%Z,
                          default JNull
                            (Js.or_else (Some data)
                               (Some (JObj [("message",
                                             JStr "Unexpected success status")])))))
                   None)
        | Rejected resp msg => on_error (mkCaught resp (Some msg))
        end
    end.

(** Whether the handler gets as far as calling the provider. *)
Definition calls_provider (b : ContactBody) : bool :=
  negb (Str.is_empty (b_apiKey b) || Str.is_empty (b_listId b)
        || Str.is_empty (email (b_contact b)))
  && bool_decide (getBrevoApiClient (b_apiKey b) = None).

(** *** [POST /api/accounts/check-status] (lines 461-473)

    The body is the one the account context sends: [apiKey] is a string.
    [res.json] without [res.status] answers 200. *)

(** The [catch] clause of lines 468-472; [status] is ['failed'] on both
    sides of its conditional. *)
Definition check_on_error (error : Caught) : Reply :=
  mkReply (errorStatus error)
    (Js.object [("status", Some (JStr "failed"));
                ("response", Some (errorDetails error))]).

Definition check_status_endpoint (apiKey : string) (brevo : Axios) : Reply :=
  if Str.is_empty apiKey
  then mkReply 400
         (JObj [("status", JStr "failed");
                ("response", JObj [("message", JStr "API Key required")])])
  else
    match getBrevoApiClient apiKey with
    | Some error => check_on_error error
    | None =>
        match brevo with
        | Resolved _ data =>
            mkReply 200
              (Js.object [("status", Some (JStr "connected")); ("response", Some data)])
        | Rejected resp msg => check_on_error (mkCaught resp (Some msg))
        end
    end.

(** *** [POST /api/brevo/delete-contacts] (lines 540-556)

    The body is the one the contact page sends: [apiKey] is a string and
    [emails] an array of strings. The [k]-th call to the provider ends as
    [brevo k] says; a failure of [encodeURIComponent] is a rejection without
    a response like any other. *)

Record Failed := mkFailed {
  f_email : string;
  f_reason : json;
}.

Record DeleteResults := mkResults {
  r_success : list string;
  r_failed : list Failed;
}.

Inductive DeleteBody :=
  | DeleteError (error : string)
  | DeleteReport (message : string) (details : DeleteResults).

Record DeleteReply := mkDeleteReply {
  d_status : Z;
  d_body : DeleteBody;
}.

(** The [catch] clause of line 549:
    [errorDetails.data?.message || errorDetails.message ||
     `Status ${errorDetails.status || 'unknown'}`], where [errorDetails] is
    [{ status, data }] when there is a response and [{ message }] when there
    is none. *)
Definition delete_reason (error : Caught) : json :=
  default JNull
    (match response error with
     | Some (st, data) =>
         Js.or_else (Js.opt_prop "message" (Some data))
           (Js.or_else None
              (Some (JStr ("Status "
                           +:+ (if (st =? 0)%Z then "unknown" else Json.number st)))))
     | None =>
         Js.or_else None
           (Js.or_else (JStr <$> message error) (Some (JStr "Status unknown")))
     end).

(** The body of the [for] loop, for the [k]-th email. *)
Definition delete_one (brevo : nat → Axios) (k : nat) (email : string)
    (results : DeleteResults) : DeleteResults :=
  match brevo k with
  | Resolved st _ =>
      if (st =? 204)%Z
      then mkResults (r_success results ++ [email]) (r_failed results)
      else mkResults (r_success results)
             (r_failed results
              ++ [mkFailed email (JStr ("Unexpected status " +:+ Json.number st))])
  | Rejected resp msg =>
      mkResults (r_success results)
        (r_failed results
         ++ [mkFailed email (delete_reason (mkCaught resp (Some msg)))])
  end.

Fixpoint delete_each (brevo : nat → Axios) (k : nat) (emails : list string)
    (results : DeleteResults) : DeleteResults :=
  match emails with
  | [] => results
  | email :: rest => delete_each brevo (S k) rest (delete_one brevo k email results)
  end.

(** The handler. [getBrevoApiClient] does not throw: [apiKey] is truthy
    when it is called. *)
Definition delete_contacts_endpoint (apiKey : string) (emails : list string)
    (brevo : nat → Axios) : DeleteReply :=
  if Str.is_empty apiKey || bool_decide (length emails = 0)
  then mkDeleteReply 400 (DeleteError "apiKey and emails array required.")
  else
    let results := delete_each brevo 0 emails (mkResults [] []) in
    if bool_decide (0 < length (r_failed results))
       && bool_decide (length (r_success results) = 0)
    then mkDeleteReply 500 (DeleteReport "Failed delete all" results)
    else if bool_decide (0 < length (r_failed results))
    then mkDeleteReply 207 (DeleteReport "Some failed" results)
    else mkDeleteReply 200 (DeleteReport "Success" results).

End Server.

(** ** The accounts the engine looks up: [AccountProvider]
    (src/unnamed/part_000)

    The fields [id], [name] and [apiKey] are strings, as the interface
    says; [status] and [lastCheckResponse] hold what the backend sent, [None]
    being [undefined]. *)
Module AccountContext.

Record Account := mkAccount {
  id : string;
  name : string;
  apiKey : string;
  status : option json;
  lastCheckResponse : option json;
}.

Record State := mkState {
  accounts : list Account;
  activeAccount : option Account;
}.

(** What [await fetch(...)] followed by [await response.json()] gives:
    the request fails, or there is a status code and a body, [None] when the
    body is not JSON. *)
Inductive Fetched :=
  | FetchFailed
  | FetchReply (code : Z) (result : option json).

(** [setActiveAccount] (lines 32-38) *)
Definition setActiveAccount (account : option Account) (s : State) : State :=
  mkState
    (match account with
     | Some account' =>
         (λ a, if decide (id a = id account') then account' else a) <$> accounts s
     | None => accounts s
     end)
    account.

(** [checkAccountStatus] (lines 41-54); [None]: the promise rejects.
    Reading [result.status] throws when [result] is [null]. *)
Definition checkAccountStatus (account : Account) (r : Fetched) : option Account :=
  match r with
  | FetchReply code (Some result) =>
      match result with
      | JNull => None
      | _ =>
          let status' :=
            Js.or_else (Js.prop "status" result)
              (Some (JStr (if Js.ok code then "connected" else "failed"))) in
          Some (mkAccount (id account) (name account) (apiKey account) status'
                  (Js.or_else (Js.prop "response" result) (Some result)))
      end
  | _ => None
  end.

(** [acc && acc.id && acc.name && acc.apiKey] *)
Definition valid (acc : Account) : bool :=
  negb (Str.is_empty (id acc)) && negb (Str.is_empty (name acc))
  && negb (Str.is_empty (apiKey acc)).

(** [Promise.all(validAccounts.map(acc => checkAccountStatus(acc)))]; the
    [k]-th check gets the answer [check k]. *)
Fixpoint check_all (check : nat → Fetched) (k : nat) (validAccounts : list Account)
    : option (list Account) :=
  match validAccounts with
  | [] => Some []
  | acc :: rest =>
      match checkAccountStatus acc (check k), check_all check (S k) rest with
      | Some acc', Some rest' => Some (acc' :: rest')
      | _, _ => None
      end
  end.

(** [fetchAccounts] (lines 56-88). [activeAccount] is the value the
    function closed over; [data] is what [GET /api/accounts] returned, [None]
    when the request failed, was not answered with a 2xx, or had no JSON
    body. *)
Definition fetchAccounts (activeAccount : option Account)
    (data : option (list Account)) (check : nat → Fetched) : State :=
  match data with
  | None => mkState [] None
  | Some data' =>
      let validAccounts := filter (λ acc, valid acc = true) data' in
      match check_all check 0 validAccounts with
      | None => mkState [] None
      | Some accountsWithStatus =>
          let currentActiveId := id <$> activeAccount in
          mkState accountsWithStatus
            (match accountsWithStatus with
             | first :: _ =>
                 let newActiveAccount :=
                   match currentActiveId with
                   | Some currentActiveId' =>
                       if Str.is_empty currentActiveId' then Some first
                       else find (λ a, bool_decide (id a = currentActiveId'))
                              accountsWithStatus
                   | None => Some first
                   end in
                 Some (default first newActiveAccount)
             | [] => None
             end)
      end
  end.

(** The function the provider exposes. [useCallback] keeps the function of
    the first render for as long as its dependency [checkAccountStatus] is
    the same, and that one, built with no dependencies, never changes: the
    [activeAccount] that [fetchAccounts] reads is the initial state. *)
Definition provided_fetchAccounts : option (list Account) → (nat → Fetched) → State :=
  fetchAccounts None.

(** [deleteAccount] (lines 119-126); [reached] is false when the request
    fails, in which case nothing after the [await] runs. The answer to the
    request is not looked at. *)
Definition deleteAccount (id' : string) (reached : bool) (s : State) : State :=
  if reached then
    let remainingAccounts := filter (λ acc, id acc ≠ id') (accounts s) in
    mkState remainingAccounts
      (if decide (id <$> activeAccount s = Some id')
       then head remainingAccounts
       else activeAccount s)
  else s.

End AccountContext.


(** ** Vocabulary of the further properties *)

(** The contact an invocation is suspended on. *)
Definition pc_contact (p : pc) : option Contact :=
  match p with
  | AwaitPause _ contact _ | AwaitDelay _ contact | AwaitFetch _ contact => Some contact
  | AwaitYield | Finished => None
  end.

(** A suspended invocation holds the contact of the iteration it is in. *)
Definition pc_ok (t : Task) (p : pc) : Prop :=
  ∀ i contact, pc_index p = Some i → pc_contact p = Some contact →
               t_contacts t !! i = Some contact.

(** [rs], newest first, has one entry for each of the first [m] contacts,
    in order, with the contact's 1-based position and email. *)
Definition entries_match (contacts : list Contact) (m : nat)
    (rs : list ImportResult.t) : Prop :=
  ImportResult.index <$> rs = rev (seq 1 m)
  ∧ ImportResult.email <$> rs = rev (email <$> take m contacts).

(** [(m / total) * 100] *)
Definition progress_at (m total : nat) : Q :=
  (inject_Z (Z.of_nat m) / inject_Z (Z.of_nat total) * 100)%Q.

(** The published job of invocation [t] once [m] of its contacts were
    answered. *)
Record book (t : Task) (m : nat) (j : Job.t) : Prop := mkBook {
  book_id : Job.id j = t_jobId t;
  book_accountId : Job.accountId j = t_accountId t;
  book_listId : Job.listId j = t_listId t;
  book_listName : Job.listName j = t_listName t;
  book_delay : Job.delay j = t_delay t;
  book_total : Job.totalContacts j = length (t_contacts t);
  book_bound : m ≤ length (t_contacts t);
  book_entries : entries_match (t_contacts t) m (Job.results j);
  book_completed : Job.status j = completed → m = length (t_contacts t);
  book_progress :
    Job.progress j
    = if decide (Job.status j = completed) then 100%Q
      else if decide (m = 0) then 0%Q
      else progress_at m (Job.totalContacts j);
}.

Definition booked (t : Task) (p : pc) (j : Job.t) : Prop :=
  ∃ m, book t m j ∧ ∀ i, pc_index p = Some i → m = i.

(** What holds of the jobs and invocations of every reachable state, on top
    of [Inv]. *)
Record Booked (s : System) : Prop := mkBooked {
  booked_inv : Inv s;
  booked_pcs : ∀ t p, (t, p) ∈ tasks s → pc_ok t p;
  booked_jobs : ∀ t p j,
    (t, p) ∈ tasks s → Obj.get (t_jobId t) (jobs (store s)) = Some j → booked t p j;
}.

(** The ways a stretch of the loop started inside iteration [i] can end:
    suspended again in that iteration, over because the flags are gone, over
    after publishing [cancelled]. *)
Definition ends (t : Task) (i : nat) (contact : Contact) (σ : Store)
    (r : pc * Store) : Prop :=
  (snd r = σ ∧ pc_index (fst r) = Some i ∧ pc_contact (fst r) = Some contact)
  ∨ (r = (Finished, σ) ∧ jobControlRefs σ !! t_jobId t = None)
  ∨ (∃ whilePaused, r = (Finished, publish_cancelled t whilePaused σ)).

(** Two versions of a job that differ at most by [elapsedTime] and by a
    status that is not [completed] on either side. *)
Definition same_book (j j' : Job.t) : Prop :=
  Job.id j' = Job.id j ∧ Job.accountId j' = Job.accountId j
  ∧ Job.listId j' = Job.listId j ∧ Job.listName j' = Job.listName j
  ∧ Job.delay j' = Job.delay j ∧ Job.totalContacts j' = Job.totalContacts j
  ∧ Job.results j' = Job.results j ∧ Job.progress j' = Job.progress j
  ∧ (Job.status j' = Job.status j
     ∨ Job.status j ≠ completed ∧ Job.status j' ≠ completed).

(** The entries an undisturbed run pushes for the contacts from position
    [i] on, oldest first. *)
Fixpoint entries (i : nat) (contacts : list Contact) (os : list Outcome)
    : list ImportResult.t :=
  match contacts, os with
  | contact :: contacts', o :: os' =>
      result_of i contact o :: entries (S i) contacts' os'
  | _, _ => []
  end.

(** The events that drive an undisturbed run from contact [i] on: the
    delay timer before every contact but the first when [delay] is positive,
    then the provider's answer. *)
Fixpoint answers (delay : Z) (i : nat) (os : list Outcome) : list event :=
  match os with
  | [] => []
  | o :: os' =>
      (if bool_decide (0 < i) && bool_decide (0 < delay)%Z then [Timer] else [])
      ++ Reply o :: answers delay (S i) os'
  end.

Definition undisturbed_events (p : pc) (delay : Z) (os : list Outcome) : list event :=
  match p with
  | AwaitYield => [Timer]
  | _ => []
  end ++ answers delay 0 os.

(** Where an undisturbed invocation waits before contact [i]. *)
Definition pc_before (delay : Z) (i : nat) (contact : Contact) : pc :=
  if bool_decide (0 < i) && bool_decide (0 < delay)%Z
  then AwaitDelay i contact
  else AwaitFetch i contact.

(** The status an entry gets for an outcome. *)
Definition status_for (o : Outcome) : ResultStatus :=
  if decide (succeeded o) then success else failed.

(** The answer [o] for contact [i], received in store [σ] where the job is
    [j], ends the invocation with the job [completed]. *)
Definition completes_with (t : Task) (i : nat) (contact : Contact) (o : Outcome)
    (j : Job.t) (σ : Store) : Prop :=
  ∃ σ' j',
    resume t (AwaitFetch i contact) (Reply o) σ = (Finished, σ')
    ∧ Obj.get (t_jobId t) (jobs σ') = Some j'
    ∧ Job.status j' = completed
    ∧ Job.progress j' = 100%Q
    ∧ Job.results j' = result_of i contact o :: Job.results j
    ∧ jobControlRefs σ' !! t_jobId t = None
    ∧ last (toasts σ') = Some (ToastJobCompleted (t_listName t)).

(** The characters of a string. *)
Fixpoint chars (s : string) : list ascii :=
  match s with
  | EmptyString => []
  | String c s' => c :: chars s'
  end.

(** A field as [parseContacts] leaves it: trimming changes nothing, and
    there is no comma and no line feed in it. *)
Definition clean_field (s : string) : Prop :=
  Str.trim s = s ∧ (Str.COMMA ∉ chars s) ∧ (Str.LF ∉ chars s).

(** The flag entries and the published statuses agree: every flag entry
    leads to a control object of its own and belongs to a published job whose
    status is [paused] when the object says so and [running] otherwise; a
    published job without a flag entry is [completed] or [cancelled]. *)
Record mirrored (σ : Store) : Prop := mkMirrored {
  mir_alloc : ∀ k l, jobControlRefs σ !! k = Some l → l < length (heap σ);
  mir_inj : ∀ k k' l,
    jobControlRefs σ !! k = Some l → jobControlRefs σ !! k' = Some l → k = k';
  mir_active : ∀ k l,
    jobControlRefs σ !! k = Some l →
    ∃ j, Obj.get k (jobs σ) = Some j
         ∧ Job.status j = if isPaused (deref σ l) then paused else running;
  mir_done : ∀ k j,
    Obj.get k (jobs σ) = Some j → jobControlRefs σ !! k = None →
    terminal (Job.status j);
}.

(** The body the engine posts for a contact: lines 199-214. *)
Definition request_body (t : Task) (contact : Contact) : Server.ContactBody :=
  Server.mkContactBody (acc_apiKey (t_account t))
    (mkContact (email contact) (firstName contact) (lastName contact))
    (t_listId t).


(** The [accounts] the engine gets from [useAccount()], of which it reads
    [id] and [apiKey]. *)
Definition engine_accounts (s : AccountContext.State) : list Account :=
  (λ a, mkAccount (AccountContext.id a) (AccountContext.apiKey a))
  <$> AccountContext.accounts s.

(** The active account, if there is one, is one of the accounts. *)
Definition active_listed (s : AccountContext.State) : Prop :=
  ∀ a, AccountContext.activeAccount s = Some a → a ∈ AccountContext.accounts s.

(** What the account context receives from the check-status endpoint: the
    endpoint's status code and its body, read back as it was written. *)
Definition check_via_endpoint (account : AccountContext.Account)
    (brevo : Server.Axios) : AccountContext.Fetched :=
  AccountContext.FetchReply
    (Server.status (Server.check_status_endpoint (AccountContext.apiKey account) brevo))
    (Some (Server.body (Server.check_status_endpoint (AccountContext.apiKey account) brevo))).

(** How far an invocation has come: three stops per contact, the pause
    wait, the delay and the request, in this order. *)
Definition position (p : pc) : nat :=
  match p with
  | AwaitYield | Finished => 0
  | AwaitPause i _ _ => 3 * i + 1
  | AwaitDelay i _ => 3 * i + 2
  | AwaitFetch i _ => 3 * i + 3
  end.

(** The jobs a step is about: the job a command names, the job of the
    invocation that is woken, every running job for the ticker, and for a
    start the new job and the job it finds for the account. *)
Definition concerns (c : command) (s : System) (k : string) : Prop :=
  match c with
  | CmdStart _ uuid accountId _ _ _ _ =>
      k = uuid ∨ existing_job_id accountId (store s) = Some k
  | CmdPause jobId | CmdResume jobId | CmdCancel jobId => k = jobId
  | Tick => ∃ j, Obj.get k (jobs (store s)) = Some j ∧ Job.status j = running
  | Wake n _ => ∃ t p, tasks s !! n = Some (t, p) ∧ t_jobId t = k
  end.

(** The provider deleted the contact of the [k]-th call: it answered 204. *)
Definition deleted (brevo : nat → Server.Axios) (k : nat) : bool :=
  match brevo k with
  | Server.Resolved st _ => bool_decide (st = 204%Z)
  | Server.Rejected _ _ => false
  end.

(** The emails with the number of their call, from call [k] on. *)
Definition numbered (k : nat) (emails : list string) : list (string * nat) :=
  zip emails (seq k (length emails)).

(** ** Sample data for the examples *)

Module Sample.
Definition accounts : list Account := [mkAccount "A" "key-A"; mkAccount "B" "key-B"].

Definition lines (ls : list string) : string :=
  String.concat (String Str.LF EmptyString) ls.

Definition batch2 : string := lines ["a@x.com,Jo,Do"; "b@x.com"].
Definition batch1 : string := lines ["c@x.com"].

(** Two starts for account A. *)
Definition start_j1 : command := CmdStart accounts "j1" "A" "7" "news" batch2 0.
Definition start_j2 : command := CmdStart accounts "j2" "A" "7" "news" batch1 0.

Definition created : Outcome := Response 201 EmptyString None.
Definition bad_gateway : Outcome := Response 502 "Bad Gateway" None.

(** The system after a sequence of commands ([init] if one is not enabled). *)
Definition after (cs : list command) : System := default init (exec cs init).

Definition job_of (jobId : string) (s : System) : option Job.t :=
  Obj.get jobId (jobs (store s)).

Definition c0 : Contact := mkContact "a@x.com" "Jo" "Do".
Definition c1 : Contact := mkContact "b@x.com" EmptyString EmptyString.
Definition c2 : Contact := mkContact "c@x.com" EmptyString EmptyString.

(** The invocation that [start_j1] creates. *)
Definition task_j1 : Task :=
  mkTask (mkAccount "A" "key-A") "A" "7" "news" [c0; c1] 0 "j1".

(** The job of [start_j1] as first published. *)
Definition job_j1 : Job.t := Job.mk "j1" "A" "7" "news" running 0%Q [] 2 0 0.

(** The job of [start_j2] once its only contact went through. *)
Definition done_j2 : list command := [start_j2; Wake 0 (Reply created)].

(** An import for account A is paused while its first request is in
    flight; the answer comes; a new import is started for account A. *)
Definition restart_while_paused : list command :=
  [start_j1; CmdPause "j1"; Wake 0 (Reply created); start_j2].
End Sample.

(** ** Sample data for the further properties *)

Module Cases.
(** The first answer to [Sample.start_j1] is a failure, or a success. *)
Definition one_failed : list command :=
  [Sample.start_j1; Wake 0 (Reply Sample.bad_gateway)].

Definition one_created : list command :=
  [Sample.start_j1; Wake 0 (Reply Sample.created)].

Definition job_j1_one_failed : Job.t :=
  Job.mk "j1" "A" "7" "news" running (newProgress 0 Sample.job_j1)
    [ImportResult.mk 1 "a@x.com" failed (failure_data Sample.bad_gateway)] 2 0 0.

Definition job_j1_one_created : Job.t :=
  Job.mk "j1" "A" "7" "news" running (newProgress 0 Sample.job_j1)
    [ImportResult.mk 1 "a@x.com" success
       (Json.stringify (JObj [("status", JNum 201)]))] 2 0 0.

(** The invocation of [Sample.start_j1] with a delay of two seconds. *)
Definition task_slow : Task :=
  mkTask (mkAccount "A" "key-A") "A" "7" "news" [Sample.c0; Sample.c1] 2 "j1".

(** The job is paused while the first request is in flight; the answer
    comes. *)
Definition paused_in_flight : list command :=
  [Sample.start_j1; CmdPause "j1"; Wake 0 (Reply Sample.created)].

(** A second start for account A removes the job of the first. *)
Definition restarted : list command := [Sample.start_j1; Sample.start_j2].

(** What the backend lists, one entry without an id; the answer to every
    check; the state after the first [fetchAccounts]. *)
Definition backend_accounts : list AccountContext.Account :=
  [AccountContext.mkAccount "A" "Main" "key-A" None None;
   AccountContext.mkAccount EmptyString "broken" "key-X" None None].

Definition connected_reply : AccountContext.Fetched :=
  AccountContext.FetchReply 200
    (Some (JObj [("status", JStr "connected");
                 ("response", JObj [("email", JStr "me@x.com")])])).

Definition fetched_state : AccountContext.State :=
  AccountContext.fetchAccounts None (Some backend_accounts) (λ _, connected_reply).

(** The provider created the contact. *)
Definition brevo_created : Server.Axios :=
  Server.Resolved 201 (JObj [("id", JNum 7)]).

(** An import for account B next to the one for account A. *)
Definition start_j3 : command :=
  CmdStart Sample.accounts "j3" "B" "9" "promo" Sample.batch1 0.

Definition two_jobs : list command := [Sample.start_j1; start_j3].
End Cases.

(** * Properties *)

(** ** Parsing *)

Module StrFacts.
Import Str.

Lemma split_not_nil sep s : split sep s ≠ [].
Proof.
  destruct s as [|c s]; simpl; [done|].
  destruct (Ascii.eqb c sep); [done|].
  by destruct (split sep s).
Qed.

Lemma split_head sep s : is_Some (split sep s !! 0).
Proof.
  pose proof (split_not_nil sep s) as H.
  destruct (split sep s); [done|]. by eexists.
Qed.

(** A string without the separator is its own single field. *)
Lemma split_singleton sep s x : split sep s = [x] → x = s.
Proof.
  revert x. induction s as [|c s IH]; intros x; simpl.
  - by intros [= <-].
  - destruct (Ascii.eqb c sep).
    + intros [= _ H]. by destruct (split_not_nil sep s).
    + destruct (split sep s) as [|hd tl] eqn:E.
      * by intros [= <-]; destruct (split_not_nil sep s).
      * intros [= <- ->]. by rewrite (IH hd eq_refl).
Qed.

Lemma trimEnd_idemp s : trimEnd (trimEnd s) = trimEnd s.
Proof.
  induction s as [|c s IH]; simpl; [done|].
  destruct (is_ws c && is_empty (trimEnd s)) eqn:E; simpl; [done|].
  by rewrite IH, E.
Qed.

Lemma trimStart_trimEnd s : trimStart (trimEnd s) = trimEnd (trimStart s).
Proof.
  induction s as [|c s IH]; simpl; [done|].
  destruct (is_ws c) eqn:Hc; simpl.
  - destruct (is_empty (trimEnd s)) eqn:He; simpl.
    + rewrite <- IH. by destruct (trimEnd s).
    + by rewrite Hc.
  - by rewrite Hc.
Qed.

Lemma trim_trimStart s : trim (trimStart s) = trim s.
Proof.
  unfold trim. f_equal.
  induction s as [|c s IH]; simpl; [done|].
  destruct (is_ws c) eqn:Hc; simpl; [done|]. by rewrite Hc.
Qed.

Lemma trim_trimEnd s : trim (trimEnd s) = trim s.
Proof. unfold trim. by rewrite trimStart_trimEnd, trimEnd_idemp. Qed.

Lemma trim_idemp s : trim (trim s) = trim s.
Proof. unfold trim at 2. by rewrite trim_trimEnd, trim_trimStart. Qed.

Lemma map_last_cons {A} (f : A → A) x l :
  l ≠ [] → map_last f (x :: l) = x :: map_last f l.
Proof. by destruct l. Qed.

Lemma map_last_singleton_inv {A} (f : A → A) l y :
  map_last f l = [y] → ∃ x, l = [x] ∧ f x = y.
Proof.
  destruct l as [|x [|x' l]]; simpl; [done| |].
  - intros [= <-]. by exists x.
  - intros [= _ H]. by destruct l.
Qed.

Lemma split_trimStart sep s :
  is_ws sep = false → split sep (trimStart s) = map_head trimStart (split sep s).
Proof.
  intros Hsep. induction s as [|c s IH]; simpl; [done|].
  destruct (is_ws c) eqn:Hc.
  - assert (Ascii.eqb c sep = false) as ->.
    { apply Ascii.eqb_neq. intros ->. congruence. }
    rewrite IH. pose proof (split_not_nil sep s).
    destruct (split sep s) as [|hd tl]; [done|]. simpl. by rewrite Hc.
  - simpl. destruct (Ascii.eqb c sep); [done|].
    pose proof (split_not_nil sep s).
    destruct (split sep s) as [|hd tl]; [done|]. simpl. by rewrite Hc.
Qed.

Lemma split_trimEnd sep s :
  is_ws sep = false → split sep (trimEnd s) = map_last trimEnd (split sep s).
Proof.
  intros Hsep. induction s as [|c s IH]; simpl; [done|].
  pose proof (split_not_nil sep s) as Hnil.
  destruct (is_ws c && is_empty (trimEnd s)) eqn:E.
  - apply andb_prop in E as [Hc He].
    assert (Ascii.eqb c sep = false) as ->.
    { apply Ascii.eqb_neq. intros ->. congruence. }
    assert (trimEnd s = EmptyString) as Hs by (by destruct (trimEnd s)).
    rewrite Hs in IH. simpl in IH. symmetry in IH.
    apply map_last_singleton_inv in IH as (x & -> & Hx).
    simpl. by rewrite Hc, Hx.
  - simpl. destruct (Ascii.eqb c sep) eqn:Hcs.
    + rewrite IH. by rewrite map_last_cons.
    + rewrite IH. destruct (split sep s) as [|hd [|hd' tl]] eqn:Es; [done| |].
      * simpl. apply split_singleton in Es as ->. by rewrite E.
      * done.
Qed.

Lemma fmap_trim_map_head l : trim <$> map_head trimStart l = trim <$> l.
Proof. destruct l; [done|]. simpl. by rewrite trim_trimStart. Qed.

Lemma fmap_trim_map_last l : trim <$> map_last trimEnd l = trim <$> l.
Proof.
  induction l as [|x [|x' l] IH]; [done| |].
  - simpl. by rewrite trim_trimEnd.
  - change (trim x :: (trim <$> map_last trimEnd (x' :: l)) = trim x :: (trim <$> x' :: l)).
    by rewrite IH.
Qed.

(** Trimming a line before splitting it changes no trimmed field. *)
Lemma fields_of_trimmed sep line :
  is_ws sep = false →
  trim <$> split sep (trim line) = trim <$> split sep line.
Proof.
  intros Hsep. unfold trim at 2.
  rewrite (split_trimEnd _ _ Hsep), fmap_trim_map_last.
  by rewrite (split_trimStart _ _ Hsep), fmap_trim_map_head.
Qed.

End StrFacts.

Lemma contact_of_trimmed_line line :
  contact_of_line (Str.trim line) = ParseSpec.contact line.
Proof.
  unfold contact_of_line, ParseSpec.contact, ParseSpec.trimmed_field, ParseSpec.field.
  rewrite <- !list_lookup_fmap.
  by rewrite StrFacts.fields_of_trimmed.
Qed.

(** The two filters and the two maps of [parseContacts] amount to one
    filter on the raw lines followed by one map. *)
Lemma filter_fmap_fuse {A B C} (g : A → B) (f : B → C) (h : A → C)
    (P1 : B → Prop) (P2 : C → Prop) (K : A → Prop)
    `{!∀ x, Decision (P1 x)} `{!∀ x, Decision (P2 x)} `{!∀ x, Decision (K x)}
    (l : list A) :
  (∀ a, f (g a) = h a) →
  (∀ a, K a ↔ P1 (g a) ∧ P2 (h a)) →
  filter P2 (f <$> filter P1 (g <$> l)) = h <$> filter K l.
Proof.
  intros Hh HK. induction l as [|a l IH]; [done|].
  rewrite fmap_cons, !filter_cons.
  destruct (decide (P1 (g a))) as [Hg|Hg].
  - rewrite fmap_cons, filter_cons, Hh.
    destruct (decide (P2 (h a))) as [Hc|Hc].
    + rewrite decide_True by (by apply HK). by rewrite fmap_cons, IH.
    + rewrite decide_False by (rewrite HK; tauto). done.
  - rewrite decide_False by (rewrite HK; tauto). done.
Qed.

(** C4. For every raw input, [parseContacts] returns exactly the contacts
    of the lines that are non-empty after trimming and whose first
    comma-delimited field is non-empty after trimming, in input order; the
    contact of a line holds its trimmed first, second and third
    comma-delimited fields, an absent one being the empty string. The
    function is total: a dropped line is left out and nothing else happens. *)
Theorem parseContacts_meets_spec (raw : string) :
  parseContacts raw = ParseSpec.parse raw
  ∧ length (parseContacts raw)
    = length (filter ParseSpec.kept (Str.split Str.LF raw)).
Proof.
  assert (parseContacts raw = ParseSpec.parse raw) as Heq.
  { unfold parseContacts, ParseSpec.parse.
    apply filter_fmap_fuse.
    - apply contact_of_trimmed_line.
    - intros line. unfold ParseSpec.kept. done. }
  split; [done|].
  rewrite Heq. unfold ParseSpec.parse. by rewrite length_fmap.
Qed.

(** The example of the specification. *)
Example parseContacts_example :
  parseContacts
    (String.concat (String Str.LF EmptyString)
       ["a@x.com,Jo,Do"; EmptyString; " b@x.com "; ",NoEmail"])
  = [mkContact "a@x.com" "Jo" "Do"; mkContact "b@x.com" EmptyString EmptyString].
Proof. reflexivity. Qed.

(** ** Records as insertion-ordered objects *)

Module ObjFacts.
Section ObjFacts.
Context {A : Type}.
Implicit Types (o : list (string * A)) (k : string) (v : A).

Lemma get_set_eq k v o : Obj.get k (Obj.set k v o) = Some v.
Proof.
  induction o as [|[k' v'] o IH]; simpl.
  - by rewrite decide_True.
  - destruct (decide (k' = k)); simpl.
    + by rewrite decide_True.
    + by rewrite decide_False.
Qed.

Lemma get_set_ne k k' v o : k ≠ k' → Obj.get k' (Obj.set k v o) = Obj.get k' o.
Proof.
  intros Hne. induction o as [|[k0 v0] o IH]; simpl.
  - by rewrite decide_False.
  - destruct (decide (k0 = k)) as [->|]; simpl.
    + by rewrite !decide_False.
    + destruct (decide (k0 = k')); [done|]. apply IH.
Qed.

Lemma get_del_eq k o : Obj.get k (Obj.del k o) = None.
Proof.
  unfold Obj.del. induction o as [|[k0 v0] o IH]; [done|].
  rewrite filter_cons. simpl. destruct (decide (k0 ≠ k)); [|done].
  simpl. by rewrite decide_False.
Qed.

Lemma get_del_ne k k' o : k ≠ k' → Obj.get k' (Obj.del k o) = Obj.get k' o.
Proof.
  intros Hne. unfold Obj.del. induction o as [|[k0 v0] o IH]; [done|].
  rewrite filter_cons. simpl. destruct (decide (k0 ≠ k)) as [|Heq]; simpl.
  - by rewrite IH.
  - apply dec_stable in Heq as ->. by rewrite decide_False.
Qed.

Lemma get_fmap (f : A → A) k o :
  Obj.get k (prod_map id f <$> o) = f <$> Obj.get k o.
Proof.
  induction o as [|[k0 v0] o IH]; [done|].
  rewrite fmap_cons. simpl. by destruct (decide (k0 = k)).
Qed.

Lemma get_Some_elem k v o : Obj.get k o = Some v → (k, v) ∈ o.
Proof.
  induction o as [|[k0 v0] o IH]; simpl; [done|].
  destruct (decide (k0 = k)) as [->|].
  - intros [= ->]. apply list_elem_of_here.
  - intros H. apply list_elem_of_further. by apply IH.
Qed.

Lemma get_None_keys k o : Obj.get k o = None ↔ k ∉ Obj.keys o.
Proof.
  unfold Obj.keys. induction o as [|[k0 v0] o IH]; simpl.
  - split; [intros _; apply not_elem_of_nil|done].
  - rewrite not_elem_of_cons. destruct (decide (k0 = k)) as [->|].
    + split; [done|]. by intros [? _].
    + rewrite IH. split; [by intros ?; split|by intros [_ ?]].
Qed.

Lemma set_values_id k v o : Obj.get k o = Some v → Obj.set k v o = o.
Proof.
  induction o as [|[k0 v0] o IH]; simpl; [done|].
  destruct (decide (k0 = k)) as [->|].
  - by intros [= ->].
  - intros H. by rewrite IH.
Qed.

(** A key that is not there is appended. *)
Lemma set_fresh k v o : Obj.get k o = None → Obj.set k v o = o ++ [(k, v)].
Proof.
  induction o as [|[k0 v0] o IH]; simpl; [done|].
  destruct (decide (k0 = k)); [done|]. intros H. by rewrite IH.
Qed.

Lemma keys_set_present k v o :
  is_Some (Obj.get k o) → Obj.keys (Obj.set k v o) = Obj.keys o.
Proof.
  unfold Obj.keys. induction o as [|[k0 v0] o IH]; simpl.
  - by intros [? ?].
  - destruct (decide (k0 = k)) as [->|]; [done|].
    intros H. rewrite !fmap_cons. simpl. f_equal. by apply IH.
Qed.
End ObjFacts.
End ObjFacts.

(** ** The ticker *)

Lemma tick_jobs_get prevJobs jobId :
  Obj.get jobId (tick_jobs prevJobs) = tick_job <$> Obj.get jobId prevJobs.
Proof.
  unfold tick_jobs.
  destruct (existsb _ _) eqn:E; [apply ObjFacts.get_fmap|].
  destruct (Obj.get jobId prevJobs) as [j|] eqn:Hj; [|done].
  simpl. f_equal. unfold tick_job. case_decide as Hr; [|done].
  apply ObjFacts.get_Some_elem in Hj.
  assert (existsb (λ j, bool_decide (Job.status j = running)) (Obj.values prevJobs) = true)
    as E'; [|congruence].
  apply existsb_exists. exists j. split; [|by apply bool_decide_eq_true].
  apply list_elem_of_In. unfold Obj.values.
  apply (list_elem_of_fmap_2 snd _ _ Hj).
Qed.

Lemma tick_jobs_keys prevJobs : Obj.keys (tick_jobs prevJobs) = Obj.keys prevJobs.
Proof.
  unfold tick_jobs. destruct (existsb _ _); [|done].
  unfold Obj.keys. rewrite <- list_fmap_compose.
  apply list_fmap_ext. by intros i [k j] _.
Qed.

(** C8. One tick adds exactly 1 to [elapsedTime] of every published job
    whose status is [running] and changes no other field of it; a job in
    another status is left as it is; no job is added or removed; and when no
    job is running the published state is the one before the tick. *)
Theorem tick_spec (σ : Store) (jobId : string) (j : Job.t) :
  Obj.get jobId (jobs σ) = Some j →
  Obj.get jobId (jobs (tick σ))
  = Some (if decide (Job.status j = running)
          then Job.mk (Job.id j) (Job.accountId j) (Job.listId j) (Job.listName j)
                 (Job.status j) (Job.progress j) (Job.results j)
                 (Job.totalContacts j) (Job.elapsedTime j + 1) (Job.delay j)
          else j)
  ∧ Obj.keys (jobs (tick σ)) = Obj.keys (jobs σ)
  ∧ jobControlRefs (tick σ) = jobControlRefs σ
  ∧ heap (tick σ) = heap σ
  ∧ (Forall (λ j', Job.status j' ≠ running) (Obj.values (jobs σ)) → tick σ = σ).
Proof.
  intros Hj. split; [|split; [|split; [|split]]]; try done.
  - simpl. rewrite tick_jobs_get, Hj. done.
  - apply tick_jobs_keys.
  - intros Hall. destruct σ as [js rf hp ts]. unfold tick, setJobs. simpl in *.
    f_equal. unfold tick_jobs.
    destruct (existsb _ _) eqn:E; [|done].
    apply existsb_exists in E as (j' & Hin & Hr).
    apply bool_decide_eq_true in Hr.
    rewrite Forall_forall in Hall. apply list_elem_of_In in Hin.
    by destruct (Hall j' Hin).
Qed.

(** ** The commands *)

Lemma updateJobStatus_get jobId st σ j :
  Obj.get jobId (jobs σ) = Some j →
  Obj.get jobId (jobs (updateJobStatus jobId st σ))
  = Some (if decide (Job.status j = st) then j
          else Job.with_status_progress st
                 (if decide (st = completed) then 100%Q else Job.progress j) j).
Proof.
  intros Hj. unfold updateJobStatus. simpl. rewrite Hj.
  destruct (decide (Job.status j = st)) as [Hst|Hst].
  - by rewrite decide_False by (by intros ?).
  - rewrite decide_True by done. apply ObjFacts.get_set_eq.
Qed.

Lemma updateJobStatus_get_None jobId st σ :
  Obj.get jobId (jobs σ) = None → updateJobStatus jobId st σ = σ.
Proof. intros Hj. unfold updateJobStatus, setJobs. rewrite Hj. by destruct σ. Qed.

Lemma updateJobStatus_get_ne jobId st σ k :
  jobId ≠ k →
  Obj.get k (jobs (updateJobStatus jobId st σ)) = Obj.get k (jobs σ).
Proof.
  intros Hne. unfold updateJobStatus. simpl.
  destruct (Obj.get jobId (jobs σ)); [|done].
  case_decide; [|done]. by apply ObjFacts.get_set_ne.
Qed.

Lemma updateJobStatus_same jobId st σ j :
  Obj.get jobId (jobs σ) = Some j → Job.status j = st →
  updateJobStatus jobId st σ = σ.
Proof.
  intros Hj Hst. unfold updateJobStatus, setJobs. rewrite Hj.
  rewrite decide_False by (by intros ?). by destruct σ.
Qed.

Lemma updateJobStatus_keys jobId st σ :
  Obj.keys (jobs (updateJobStatus jobId st σ)) = Obj.keys (jobs σ).
Proof.
  unfold updateJobStatus. simpl.
  destruct (Obj.get jobId (jobs σ)) eqn:E; [|done].
  case_decide; [|done]. apply ObjFacts.keys_set_present. by rewrite E.
Qed.

Lemma updateJobStatus_refs jobId st σ :
  jobControlRefs (updateJobStatus jobId st σ) = jobControlRefs σ.
Proof. done. Qed.

Lemma updateJobStatus_heap jobId st σ :
  heap (updateJobStatus jobId st σ) = heap σ.
Proof. done. Qed.

(** C10. On a job whose control flags exist, [pauseJob] and [resumeJob]
    change only the [status] field of the published job, to [paused] and
    [running]: the nine other fields keep their values, every other job is
    untouched, and when the job already has the requested status the
    published state is the same as before. *)
Theorem pause_resume_change_status_only
    (σ : Store) (jobId : string) (controls : loc) (j : Job.t) :
  jobControlRefs σ !! jobId = Some controls →
  Obj.get jobId (jobs σ) = Some j →
  Obj.get jobId (jobs (pauseJob jobId σ))
  = Some (Job.mk (Job.id j) (Job.accountId j) (Job.listId j) (Job.listName j)
            paused (Job.progress j) (Job.results j) (Job.totalContacts j)
            (Job.elapsedTime j) (Job.delay j))
  ∧ Obj.get jobId (jobs (resumeJob jobId σ))
    = Some (Job.mk (Job.id j) (Job.accountId j) (Job.listId j) (Job.listName j)
              running (Job.progress j) (Job.results j) (Job.totalContacts j)
              (Job.elapsedTime j) (Job.delay j))
  ∧ (∀ k, k ≠ jobId →
       Obj.get k (jobs (pauseJob jobId σ)) = Obj.get k (jobs σ)
       ∧ Obj.get k (jobs (resumeJob jobId σ)) = Obj.get k (jobs σ))
  ∧ Obj.keys (jobs (pauseJob jobId σ)) = Obj.keys (jobs σ)
  ∧ Obj.keys (jobs (resumeJob jobId σ)) = Obj.keys (jobs σ)
  ∧ (Job.status j = paused → jobs (pauseJob jobId σ) = jobs σ)
  ∧ (Job.status j = running → jobs (resumeJob jobId σ) = jobs σ).
Proof.
  intros Href Hj. unfold pauseJob, resumeJob. rewrite Href.
  unfold toast. cbn [jobs].
  pose proof (updateJobStatus_get jobId paused
                (setHeap (alter (set_isPaused true) controls) σ) j Hj) as Hp.
  pose proof (updateJobStatus_get jobId running
                (setHeap (alter (set_isPaused false) controls) σ) j Hj) as Hr.
  repeat split.
  - rewrite Hp. f_equal. destruct j as [? ? ? ? st ? ? ? ? ?]. simpl.
    by destruct (decide (st = paused)) as [->|].
  - rewrite Hr. f_equal. destruct j as [? ? ? ? st ? ? ? ? ?]. simpl.
    by destruct (decide (st = running)) as [->|].
  - by apply (updateJobStatus_get_ne jobId paused (setHeap _ σ)).
  - by apply (updateJobStatus_get_ne jobId running (setHeap _ σ)).
  - apply (updateJobStatus_keys jobId paused (setHeap _ σ)).
  - apply (updateJobStatus_keys jobId running (setHeap _ σ)).
  - intros Hst.
    by rewrite (updateJobStatus_same jobId paused (setHeap _ σ) j Hj Hst).
  - intros Hst.
    by rewrite (updateJobStatus_same jobId running (setHeap _ σ) j Hj Hst).
Qed.

Lemma alter_alter_idemp {A} (f : A → A) (l : nat) (h : list A) :
  (∀ x, f (f x) = f x) → alter f l (alter f l h) = alter f l h.
Proof.
  intros Hf. rewrite list_alter_alter_eq.
  apply list_alter_ext; [|done]. intros x _. apply Hf.
Qed.

Lemma cancelJob_Some jobId σ l :
  jobControlRefs σ !! jobId = Some l →
  cancelJob jobId σ
  = toast (ToastCancellationRequested (listName_of jobId σ))
      (setHeap (alter (set_isCancelled true) l) σ).
Proof. intros H. unfold cancelJob. by rewrite H. Qed.

Lemma cancelJob_None jobId σ :
  jobControlRefs σ !! jobId = None → cancelJob jobId σ = σ.
Proof. intros H. unfold cancelJob. by rewrite H. Qed.

Lemma cancelJob_jobs jobId σ : jobs (cancelJob jobId σ) = jobs σ.
Proof. unfold cancelJob. by destruct (jobControlRefs σ !! jobId). Qed.

Lemma cancelJob_refs jobId σ : jobControlRefs (cancelJob jobId σ) = jobControlRefs σ.
Proof. unfold cancelJob. by destruct (jobControlRefs σ !! jobId). Qed.

(** C9. Calling [cancelJob] twice in a row on an id leaves the published
    jobs, the map of control flags and the control objects as one call
    does. *)
Theorem cancelJob_twice (σ : Store) (jobId : string) :
  jobs (cancelJob jobId (cancelJob jobId σ)) = jobs (cancelJob jobId σ)
  ∧ jobControlRefs (cancelJob jobId (cancelJob jobId σ))
    = jobControlRefs (cancelJob jobId σ)
  ∧ heap (cancelJob jobId (cancelJob jobId σ)) = heap (cancelJob jobId σ).
Proof.
  split; [apply cancelJob_jobs|]. split; [apply cancelJob_refs|].
  destruct (jobControlRefs σ !! jobId) as [l|] eqn:Href.
  - rewrite (cancelJob_Some jobId (cancelJob jobId σ) l)
      by (by rewrite cancelJob_refs).
    rewrite (cancelJob_Some jobId σ l Href). simpl.
    by apply alter_alter_idemp.
  - by rewrite !(cancelJob_None jobId σ Href).
Qed.

(** ** Cancellation checkpoints *)

Section Checkpoints.
Variable t : Task.
Implicit Types (σ : Store) (j : Job.t).

Lemma publish_cancelled_refs wp σ :
  jobControlRefs (publish_cancelled t wp σ) = delete (t_jobId t) (jobControlRefs σ).
Proof. done. Qed.

Lemma publish_cancelled_heap wp σ : heap (publish_cancelled t wp σ) = heap σ.
Proof. done. Qed.

Lemma publish_cancelled_get wp σ j :
  Obj.get (t_jobId t) (jobs σ) = Some j →
  Obj.get (t_jobId t) (jobs (publish_cancelled t wp σ))
  = Some (Job.with_status_progress cancelled (Job.progress j) j).
Proof.
  intros Hj. unfold publish_cancelled. cbn [jobs setRefs].
  rewrite (updateJobStatus_get _ cancelled (toast _ σ) j Hj). f_equal.
  destruct j as [? ? ? ? st ? ? ? ? ?]. simpl.
  by destruct (decide (st = cancelled)) as [->|].
Qed.

Lemma publish_cancelled_get_ne wp σ k :
  t_jobId t ≠ k →
  Obj.get k (jobs (publish_cancelled t wp σ)) = Obj.get k (jobs σ).
Proof.
  intros Hne. unfold publish_cancelled. cbn [jobs setRefs].
  by rewrite (updateJobStatus_get_ne _ cancelled (toast _ σ) k Hne).
Qed.

Lemma after_loop_no_flags σ :
  jobControlRefs σ !! t_jobId t = None → after_loop t σ = (Finished, σ).
Proof. intros H. unfold after_loop. by rewrite H. Qed.

Lemma after_loop_publish_cancelled wp σ :
  after_loop t (publish_cancelled t wp σ) = (Finished, publish_cancelled t wp σ).
Proof.
  apply after_loop_no_flags. rewrite publish_cancelled_refs. apply lookup_delete_eq.
Qed.

Lemma cancel_requested_true σ controls :
  jobControlRefs σ !! t_jobId t = Some controls →
  cancel_requested (t_jobId t) σ = isCancelled (deref σ controls).
Proof. intros H. unfold cancel_requested. by rewrite H. Qed.

Lemma loop_top_cancelled i contact controls σ :
  t_contacts t !! i = Some contact →
  jobControlRefs σ !! t_jobId t = Some controls →
  isCancelled (deref σ controls) = true →
  loop_top t i σ = (Finished, publish_cancelled t false σ).
Proof.
  intros Hc Hr Hx. unfold loop_top. rewrite Hc, Hr, Hx.
  apply after_loop_publish_cancelled.
Qed.

Lemma pause_wait_cancelled i contact controls σ :
  jobControlRefs σ !! t_jobId t = Some controls →
  isCancelled (deref σ controls) = true →
  pause_wait t i contact controls σ
  = (Finished, publish_cancelled t (isPaused (deref σ controls)) σ).
Proof.
  intros Hr Hx. unfold pause_wait. rewrite Hx.
  destruct (isPaused (deref σ controls)); [done|].
  unfold post_pause. rewrite (cancel_requested_true _ _ Hr), Hx.
  apply after_loop_publish_cancelled.
Qed.

Lemma post_pause_cancelled i contact controls σ :
  jobControlRefs σ !! t_jobId t = Some controls →
  isCancelled (deref σ controls) = true →
  post_pause t i contact σ = (Finished, publish_cancelled t false σ).
Proof.
  intros Hr Hx. unfold post_pause. rewrite (cancel_requested_true _ _ Hr), Hx.
  apply after_loop_publish_cancelled.
Qed.

Lemma post_delay_cancelled i contact controls σ :
  jobControlRefs σ !! t_jobId t = Some controls →
  isCancelled (deref σ controls) = true →
  post_delay t i contact σ = (Finished, publish_cancelled t false σ).
Proof.
  intros Hr Hx. unfold post_delay. rewrite (cancel_requested_true _ _ Hr), Hx.
  apply after_loop_publish_cancelled.
Qed.
End Checkpoints.

Lemma deref_alter_eq f σ l :
  l < length (heap σ) → deref (setHeap (alter f l) σ) l = f (deref σ l).
Proof.
  intros Hl. unfold deref, setHeap. cbn [heap]. rewrite list_lookup_alter_eq.
  apply lookup_lt_is_Some_2 in Hl as [c Hc]. rewrite Hc. reflexivity.
Qed.

Lemma deref_alter_ne f σ l l' :
  l ≠ l' → deref (setHeap (alter f l) σ) l' = deref σ l'.
Proof.
  intros Hl. unfold deref, setHeap. cbn [heap].
  by rewrite list_lookup_alter_ne.
Qed.

(** C2. On a job whose control flags exist, [cancelJob] raises
    [isCancelled] on the job's control object and touches nothing else: the
    published jobs, the flag map and [isPaused] are as before. The loop,
    finding the flag raised at any of its four checkpoints ([loop_top] at the
    top of an iteration, [pause_wait] inside the pause wait, [post_pause]
    after it, [post_delay] after the delay; the two timers wake the
    invocation in [pause_wait] and [post_delay]), ends the invocation; the
    store it leaves has the job with status [cancelled] and every other
    field, [progress] included, as last published, no flag entry for the job,
    and the other jobs and flags untouched. In the pause wait, when the job
    is paused, the invocation returns on the spot. *)
Theorem cancellation_protocol
    (t : Task) (σ : Store) (controls : loc) (j : Job.t) (i : nat) (contact : Contact) :
  jobControlRefs σ !! t_jobId t = Some controls →
  controls < length (heap σ) →
  Obj.get (t_jobId t) (jobs σ) = Some j →
  t_contacts t !! i = Some contact →
  (jobs (cancelJob (t_jobId t) σ) = jobs σ
   ∧ jobControlRefs (cancelJob (t_jobId t) σ) = jobControlRefs σ
   ∧ isCancelled (deref (cancelJob (t_jobId t) σ) controls) = true
   ∧ isPaused (deref (cancelJob (t_jobId t) σ) controls) = isPaused (deref σ controls)
   ∧ ∀ l, l ≠ controls → deref (cancelJob (t_jobId t) σ) l = deref σ l)
  ∧ (isCancelled (deref σ controls) = true →
     loop_top t i σ = (Finished, publish_cancelled t false σ)
     ∧ pause_wait t i contact controls σ
       = (Finished, publish_cancelled t (isPaused (deref σ controls)) σ)
     ∧ post_pause t i contact σ = (Finished, publish_cancelled t false σ)
     ∧ post_delay t i contact σ = (Finished, publish_cancelled t false σ)
     ∧ resume t (AwaitPause i contact controls) Timer σ
       = pause_wait t i contact controls σ
     ∧ resume t (AwaitDelay i contact) Timer σ = post_delay t i contact σ)
  ∧ (∀ whilePaused,
       Obj.get (t_jobId t) (jobs (publish_cancelled t whilePaused σ))
       = Some (Job.mk (Job.id j) (Job.accountId j) (Job.listId j) (Job.listName j)
                 cancelled (Job.progress j) (Job.results j) (Job.totalContacts j)
                 (Job.elapsedTime j) (Job.delay j))
       ∧ jobControlRefs (publish_cancelled t whilePaused σ) !! t_jobId t = None
       ∧ (∀ k, k ≠ t_jobId t →
            Obj.get k (jobs (publish_cancelled t whilePaused σ)) = Obj.get k (jobs σ)
            ∧ jobControlRefs (publish_cancelled t whilePaused σ) !! k
              = jobControlRefs σ !! k)).
Proof.
  intros Hr Hl Hj Hc. split; [|split].
  - rewrite (cancelJob_Some _ _ _ Hr). unfold toast. cbn [jobs jobControlRefs].
    repeat split.
    + change (isCancelled (deref (setHeap (alter (set_isCancelled true) controls) σ)
                controls) = true).
      by rewrite deref_alter_eq.
    + change (isPaused (deref (setHeap (alter (set_isCancelled true) controls) σ)
                controls) = isPaused (deref σ controls)).
      by rewrite deref_alter_eq.
    + intros l Hne.
      change (deref (setHeap (alter (set_isCancelled true) controls) σ) l = deref σ l).
      by rewrite deref_alter_ne.
  - intros Hx.
    split; [by eapply loop_top_cancelled|].
    split; [by apply pause_wait_cancelled|].
    split; [by eapply post_pause_cancelled|].
    split; [by eapply post_delay_cancelled|done].
  - intros wp.
    split; [by rewrite (publish_cancelled_get t wp σ j Hj)|].
    split; [rewrite publish_cancelled_refs; apply lookup_delete_eq|].
    intros k Hk. split; [by apply publish_cancelled_get_ne|].
    rewrite publish_cancelled_refs. by apply lookup_delete_ne.
Qed.

(** ** The loop when nobody interferes *)

Lemma record_result_eq jobId i contact o σ :
  record_result jobId i contact o σ
  = setJobs (push_result jobId i (result_of i contact o)) σ.
Proof. unfold record_result, result_of. by destruct (attempt o). Qed.

Lemma record_result_get jobId i contact o σ j :
  Obj.get jobId (jobs σ) = Some j →
  Obj.get jobId (jobs (record_result jobId i contact o σ))
  = Some (Job.with_results_progress (result_of i contact o :: Job.results j)
            (newProgress i j) j).
Proof.
  intros Hj. rewrite record_result_eq. unfold setJobs, push_result. cbn [jobs].
  rewrite Hj. apply ObjFacts.get_set_eq.
Qed.

Lemma record_result_get_ne jobId i contact o σ k :
  jobId ≠ k →
  Obj.get k (jobs (record_result jobId i contact o σ)) = Obj.get k (jobs σ).
Proof.
  intros Hne. rewrite record_result_eq. unfold setJobs, push_result. cbn [jobs].
  destruct (Obj.get jobId (jobs σ)); [|done]. by apply ObjFacts.get_set_ne.
Qed.

Lemma record_result_absent jobId i contact o σ :
  Obj.get jobId (jobs σ) = None → record_result jobId i contact o σ = σ.
Proof.
  intros Hj. rewrite record_result_eq. unfold setJobs, push_result.
  rewrite Hj. by destruct σ.
Qed.

Lemma record_result_keys jobId i contact o σ :
  Obj.keys (jobs (record_result jobId i contact o σ)) = Obj.keys (jobs σ).
Proof.
  rewrite record_result_eq. unfold setJobs, push_result. cbn [jobs].
  destruct (Obj.get jobId (jobs σ)) eqn:E; [|done].
  apply ObjFacts.keys_set_present. by rewrite E.
Qed.

Lemma record_result_refs jobId i contact o σ :
  jobControlRefs (record_result jobId i contact o σ) = jobControlRefs σ.
Proof. by rewrite record_result_eq. Qed.

Lemma record_result_heap jobId i contact o σ :
  heap (record_result jobId i contact o σ) = heap σ.
Proof. by rewrite record_result_eq. Qed.

Lemma result_of_succeeded i contact o :
  succeeded o → ImportResult.status (result_of i contact o) = success
                ∧ ImportResult.index (result_of i contact o) = i + 1.
Proof.
  unfold result_of. destruct o as [|st text parsed]; simpl; [done|].
  intros [->| ->]; by simpl.
Qed.

Section Quiet.
Variable t : Task.
Implicit Types (σ : Store) (j : Job.t).

Lemma loop_top_quiet i contact σ :
  t_contacts t !! i = Some contact → quiet (t_jobId t) σ →
  i = 0 ∨ (t_delay t ≤ 0)%Z →
  loop_top t i σ = (AwaitFetch i contact, σ).
Proof.
  intros Hc (l & Hr & Hl) Hd. unfold loop_top. rewrite Hc, Hr.
  unfold deref. rewrite Hl. simpl.
  unfold pause_wait, deref. rewrite Hl. simpl.
  unfold post_pause, cancel_requested, deref. rewrite Hr, Hl. simpl.
  assert (bool_decide (0 < i) && bool_decide (0 < t_delay t)%Z = false) as ->.
  { destruct Hd as [->|Hd].
    - by rewrite bool_decide_eq_false_2 by lia.
    - rewrite (bool_decide_eq_false_2 (0 < t_delay t)%Z) by lia.
      apply andb_false_r. }
  unfold post_delay, cancel_requested, deref. by rewrite Hr, Hl.
Qed.

Lemma loop_top_end i σ l :
  t_contacts t !! i = None →
  jobControlRefs σ !! t_jobId t = Some l →
  loop_top t i σ
  = (Finished,
     setRefs (delete (t_jobId t))
       (updateJobStatus (t_jobId t) completed
          (toast (ToastJobCompleted (t_listName t)) σ))).
Proof. intros Hc Hr. unfold loop_top, after_loop. by rewrite Hc, Hr. Qed.

Lemma install_quiet σ contact :
  t_contacts t !! 0 = Some contact →
  ∃ σ', install t σ = (AwaitFetch 0 contact, σ')
        ∧ quiet (t_jobId t) σ'
        ∧ Obj.get (t_jobId t) (jobs σ') = Some (newJob t).
Proof.
  intros Hc. unfold install.
  assert (quiet (t_jobId t) (installed t σ)) as Hq.
  { exists (length (heap σ)). unfold installed, toast, setJobs, setRefs, setHeap.
    simpl. split; [apply lookup_insert_eq|].
    rewrite lookup_app_r by lia. by rewrite Nat.sub_diag. }
  exists (installed t σ). split; [|split; [done|]].
  - apply loop_top_quiet; [done|done|by left].
  - unfold installed, toast, setJobs, setRefs, setHeap. simpl.
    apply ObjFacts.get_set_eq.
Qed.

Lemma install_submitting σ contact :
  t_contacts t !! 0 = Some contact →
  ∃ σ', install t σ = (AwaitFetch 0 contact, σ') ∧ submitting t 0 σ'.
Proof.
  intros Hc. destruct (install_quiet σ contact Hc) as (σ' & Hi & Hq & Hj).
  exists σ'. split; [done|]. split; [done|].
  exists (newJob t). by repeat split.
Qed.

Lemma fetch_step_succeeded i contact o σ :
  (t_delay t ≤ 0)%Z →
  t_contacts t !! i = Some contact →
  submitting t i σ → succeeded o →
  match t_contacts t !! S i with
  | Some next =>
      ∃ σ', resume t (AwaitFetch i contact) (Reply o) σ = (AwaitFetch (S i) next, σ')
            ∧ submitting t (S i) σ'
  | None =>
      ∃ σ', resume t (AwaitFetch i contact) (Reply o) σ = (Finished, σ')
            ∧ completed_all t σ'
  end.
Proof.
  intros Hd Hc ((l & Hr & Hl) & j & Hj & Hst & Htot & Hix & Hok) Ho.
  cbn [resume].
  set (σr := record_result (t_jobId t) i contact o σ).
  assert (quiet (t_jobId t) σr) as Hq.
  { exists l. subst σr. by rewrite record_result_refs, record_result_heap. }
  pose proof (record_result_get (t_jobId t) i contact o σ j Hj) as Hjr.
  fold σr in Hjr.
  destruct (result_of_succeeded i contact o Ho) as [Hrs Hri].
  assert (ImportResult.index <$> (result_of i contact o :: Job.results j)
          = rev (seq 1 (S i))) as Hix'.
  { rewrite fmap_cons, Hix, Hri, seq_S, rev_app_distr. simpl.
    by rewrite Nat.add_1_r. }
  destruct (t_contacts t !! S i) as [next|] eqn:Hn.
  - exists σr. split; [apply loop_top_quiet; auto|].
    split; [done|]. eexists. split; [exact Hjr|].
    repeat split; try done. simpl. by constructor.
  - eexists. split; [by apply (loop_top_end (S i) σr l Hn); subst σr;
                       rewrite record_result_refs|].
    split; [cbn [jobControlRefs setRefs]; apply lookup_delete_eq|].
    eexists. split.
    { cbn [jobs setRefs].
      apply (updateJobStatus_get _ completed (toast _ σr)). exact Hjr. }
    rewrite decide_False by (simpl; congruence).
    rewrite decide_True by done.
    cbn [Job.status Job.progress Job.results Job.totalContacts
         Job.with_status_progress Job.with_results_progress].
    repeat split; try done.
    + rewrite Hix'. f_equal. f_equal.
      apply lookup_ge_None_1 in Hn. apply lookup_lt_Some in Hc. lia.
    + by constructor.
Qed.

Lemma run_from_fetch os : ∀ i contact σ,
  (t_delay t ≤ 0)%Z →
  t_contacts t !! i = Some contact →
  submitting t i σ →
  Forall succeeded os →
  i + length os = length (t_contacts t) →
  ∃ σ', run t (Reply <$> os) (AwaitFetch i contact, σ) = (Finished, σ')
        ∧ completed_all t σ'.
Proof.
  induction os as [|o os IH]; intros i contact σ Hd Hc Hs Hos Hlen.
  - apply lookup_lt_Some in Hc. simpl in Hlen. lia.
  - apply Forall_cons in Hos as [Ho Hos].
    pose proof (fetch_step_succeeded i contact o σ Hd Hc Hs Ho) as Hstep.
    rewrite fmap_cons. unfold run. cbn [foldl fst snd].
    destruct (t_contacts t !! S i) as [next|] eqn:Hn.
    + destruct Hstep as (σ' & -> & Hs').
      apply (IH (S i) next σ' Hd Hn Hs' Hos). simpl in Hlen. lia.
    + destruct Hstep as (σ' & -> & Hfin).
      apply lookup_ge_None_1 in Hn. simpl in Hlen.
      destruct os; [|simpl in Hlen; lia].
      exists σ'. by split.
Qed.
End Quiet.

Lemma startJob_inv accounts uuid accountId listId listName importData delay σ t p σ0 :
  startJob accounts uuid accountId listId listName importData delay σ = (Some (t, p), σ0) →
  ∃ account,
    find_account accounts accountId = Some account
    ∧ parseContacts importData ≠ []
    ∧ t = mkTask account accountId listId listName (parseContacts importData) delay uuid
    ∧ ((p, σ0) = install t σ
       ∧ (existing_job_id accountId σ = None
          ∨ existing_job_id accountId σ = Some EmptyString)
       ∨ ∃ existingJobId,
           existing_job_id accountId σ = Some existingJobId
           ∧ existingJobId ≠ EmptyString
           ∧ p = AwaitYield
           ∧ σ0 = removeJob existingJobId (setRefs (delete existingJobId) σ)).
Proof.
  unfold startJob. destruct (find_account accounts accountId) as [account|]; [|done].
  case_bool_decide as Hlen; [done|].
  assert (parseContacts importData ≠ []) as Hne by (by intros H; rewrite H in Hlen).
  destruct (existing_job_id accountId σ) as [e|] eqn:He.
  - destruct (Str.is_empty e) eqn:Hemp.
    + destruct (install _ σ) as [p' σ'] eqn:Hi. intros [= <- <- <-].
      exists account. repeat split; try done. left. split; [done|].
      right. by destruct e.
    + intros [= <- <- <-]. exists account. repeat split; try done.
      right. exists e. repeat split; try done. by intros ->.
  - destruct (install _ σ) as [p' σ'] eqn:Hi. intros [= <- <- <-].
    exists account. repeat split; try done. left. by split; [|left].
Qed.

(** C1. A job started with [delay = 0] on a batch of N parsed contacts, all
    of whose submissions the provider answers with 201 or 204, and which
    nothing disturbs, ends its invocation with the published job in status
    [completed], [progress] 100, N results, all successful, whose [index]
    fields read N, N-1, ..., 1 from the head of the list, and no control
    flags left for the job. *)
Theorem undisturbed_run_completes
    (accounts : list Account) (uuid accountId listId listName importData : string)
    (σ σ0 : Store) (t : Task) (p : pc) (os : list Outcome) :
  startJob accounts uuid accountId listId listName importData 0 σ = (Some (t, p), σ0) →
  length os = length (parseContacts importData) →
  Forall succeeded os →
  ∃ σ' j,
    run t (undisturbed p os) (p, σ0) = (Finished, σ')
    ∧ Obj.get uuid (jobs σ') = Some j
    ∧ Job.status j = completed
    ∧ Job.progress j = 100%Q
    ∧ length (Job.results j) = length (parseContacts importData)
    ∧ ImportResult.index <$> Job.results j
      = rev (seq 1 (length (parseContacts importData)))
    ∧ Forall (λ r, ImportResult.status r = success) (Job.results j)
    ∧ jobControlRefs σ' !! uuid = None.
Proof.
  intros Hstart Hlen Hos.
  apply startJob_inv in Hstart as (account & _ & Hne & Ht & Hcase).
  assert (t_contacts t = parseContacts importData) as Hcs by (by subst t).
  assert (t_jobId t = uuid) as Hid by (by subst t).
  assert (t_delay t ≤ 0)%Z as Hd by (by subst t).
  destruct (t_contacts t) as [|c0 cs] eqn:Hcontacts; [by rewrite <- Hcs in Hne|].
  assert (t_contacts t !! 0 = Some c0) as Hc0 by (by rewrite Hcontacts).
  assert (∃ σx, run t (undisturbed p os) (p, σ0)
                = run t (Reply <$> os) (install t σx)) as [σx Hrun].
  { destruct Hcase as [[Hi _]|(e & _ & _ & -> & ->)].
    - exists σ. rewrite <- Hi.
      destruct (install_quiet t σ c0 Hc0) as (σ' & Hi' & _).
      rewrite Hi' in Hi. by injection Hi as -> ->.
    - by eexists. }
  destruct (install_submitting t σx c0 Hc0) as (σ1 & Hi & Hs).
  rewrite Hi in Hrun.
  destruct (run_from_fetch t os 0 c0 σ1 Hd Hc0 Hs Hos) as (σ' & Hr & Hfin).
  { rewrite Hcontacts, Hlen, <- Hcs. done. }
  destruct Hfin as (Hrefs & j & Hj & Hst & Hpr & Htot & Hix & Hok).
  rewrite Hid in *. rewrite Hcontacts, Hcs in Hix.
  exists σ', j. rewrite Hrun, Hr. repeat split; try done.
  rewrite <- (length_fmap ImportResult.index), Hix.
  by rewrite length_rev, length_seq.
Qed.

(** ** A failed submission *)

Section Failure.
Variable t : Task.
Implicit Types (σ : Store) (j : Job.t).

Lemma after_loop_pc σ : fst (after_loop t σ) = Finished.
Proof. unfold after_loop. by destruct (jobControlRefs σ !! t_jobId t). Qed.

(** Which await the loop reaches next depends on the flags only. *)
Lemma loop_top_pc_flags i σ1 σ2 :
  jobControlRefs σ1 = jobControlRefs σ2 → heap σ1 = heap σ2 →
  fst (loop_top t i σ1) = fst (loop_top t i σ2).
Proof.
  intros Hr Hh. unfold loop_top, pause_wait, post_pause, post_delay,
    cancel_requested, deref. rewrite Hr, Hh.
  destruct (t_contacts t !! i); [|by rewrite !after_loop_pc].
  destruct (jobControlRefs σ2 !! t_jobId t) as [l|]; [|by rewrite !after_loop_pc].
  destruct (isCancelled _); [by rewrite !after_loop_pc|].
  destruct (isPaused _); [done|].
  destruct (bool_decide (0 < i) && _); done.
Qed.

Lemma loop_top_pc_index i σ :
  fst (loop_top t i σ) = Finished ∨ pc_index (fst (loop_top t i σ)) = Some i.
Proof.
  unfold loop_top, pause_wait, post_pause, post_delay.
  destruct (t_contacts t !! i); [|left; apply after_loop_pc].
  destruct (jobControlRefs σ !! t_jobId t) as [l|]; [|left; apply after_loop_pc].
  destruct (isCancelled _); [left; apply after_loop_pc|].
  destruct (isPaused _); [by right|].
  destruct (cancel_requested _ _); [left; apply after_loop_pc|].
  destruct (bool_decide (0 < i) && _); by right.
Qed.

Lemma result_of_failed i contact o :
  ¬ succeeded o →
  result_of i contact o
  = ImportResult.mk (i + 1) (email contact) failed (failure_data o).
Proof.
  unfold result_of, failure_data, attempt.
  destruct o as [|st text parsed]; simpl; [done|].
  intros Hno.
  assert (bool_decide (st ≠ 201%Z) && bool_decide (st ≠ 204%Z) = true) as ->.
  { apply andb_true_intro. split; apply bool_decide_eq_true; intros ->; tauto. }
  unfold response_data. destruct (Str.is_empty text); [done|].
  by destruct parsed as [[]|].
Qed.
End Failure.

(** C6 (amended). An outcome other than a 201 or 204 answer - another
    status code, or a rejected request - makes the loop push one [failed]
    entry for that contact, with the contact's 1-based index and email, on
    the job's results; the job's status and its other fields but [progress]
    stay as they are and no other job, flag or control object changes. The
    loop then goes on exactly as after a success: which await it reaches next
    does not depend on the outcome, and it is never one for the same or an
    earlier contact. The entry's [data] is [failure_data]: the serialized
    payload, where an unparseable body is wrapped with the status code in an
    object (it is not stored as raw text). *)
Theorem failed_submission_recorded
    (t : Task) (i : nat) (contact : Contact) (o : Outcome) (σ : Store) (j : Job.t) :
  ¬ succeeded o →
  Obj.get (t_jobId t) (jobs σ) = Some j →
  resume t (AwaitFetch i contact) (Reply o) σ
  = loop_top t (S i) (record_result (t_jobId t) i contact o σ)
  ∧ (∀ o', fst (resume t (AwaitFetch i contact) (Reply o') σ)
           = fst (resume t (AwaitFetch i contact) (Reply o) σ))
  ∧ (fst (resume t (AwaitFetch i contact) (Reply o) σ) = Finished
     ∨ pc_index (fst (resume t (AwaitFetch i contact) (Reply o) σ)) = Some (S i))
  ∧ Obj.get (t_jobId t) (jobs (record_result (t_jobId t) i contact o σ))
    = Some (Job.mk (Job.id j) (Job.accountId j) (Job.listId j) (Job.listName j)
              (Job.status j) (newProgress i j)
              (ImportResult.mk (i + 1) (email contact) failed (failure_data o)
               :: Job.results j)
              (Job.totalContacts j) (Job.elapsedTime j) (Job.delay j))
  ∧ (∀ k, k ≠ t_jobId t →
       Obj.get k (jobs (record_result (t_jobId t) i contact o σ)) = Obj.get k (jobs σ))
  ∧ jobControlRefs (record_result (t_jobId t) i contact o σ) = jobControlRefs σ
  ∧ heap (record_result (t_jobId t) i contact o σ) = heap σ.
Proof.
  intros Hno Hj. split; [done|]. split; [|split; [|split; [|split; [|split]]]].
  - intros o'. cbn [resume].
    apply loop_top_pc_flags;
      by rewrite ?record_result_refs, ?record_result_heap.
  - cbn [resume]. apply loop_top_pc_index.
  - rewrite (record_result_get _ _ _ _ _ _ Hj).
    by rewrite (result_of_failed i contact o Hno).
  - intros k Hk. by apply record_result_get_ne.
  - apply record_result_refs.
  - apply record_result_heap.
Qed.

(** C6 as the specification words it fails on an unparseable body: after a
    502 answer whose body is the text [Bad Gateway], the entry pushed for the
    contact is [failed] and its [data] is the serialized object holding the
    text and the code, not the text. *)
Lemma failed_data_is_not_the_raw_text :
  (Sample.job_of "j1"
     (Sample.after [Sample.start_j1; Wake 0 (Reply (Response 502 "Bad Gateway" None))])
   ≫= λ j, head (Job.results j))
  = Some (ImportResult.mk 1 "a@x.com" failed
            (Json.stringify
               (JObj [("rawResponse", JStr "Bad Gateway"); ("status", JNum 502)])))
  ∧ Json.stringify (JObj [("rawResponse", JStr "Bad Gateway"); ("status", JNum 502)])
    ≠ "Bad Gateway".
Proof. split; [vm_compute; reflexivity|vm_compute; discriminate]. Qed.

(** ** Updates in place *)

Lemma skeleton_keys js : Obj.keys js = fst <$> skeleton js.
Proof.
  unfold Obj.keys, skeleton. rewrite <- list_fmap_compose.
  apply list_fmap_ext. by intros i [k j] _.
Qed.

Lemma skeleton_set k j j' js :
  Obj.get k js = Some j →
  Job.id j' = Job.id j → Job.accountId j' = Job.accountId j →
  skeleton (Obj.set k j' js) = skeleton js.
Proof.
  intros Hj Hid Hacc. unfold skeleton.
  induction js as [|[k0 j0] js IH]; simpl in *; [done|].
  destruct (decide (k0 = k)) as [->|].
  - injection Hj as ->. rewrite !fmap_cons. simpl. by rewrite Hid, Hacc.
  - rewrite !fmap_cons. simpl. f_equal. by apply IH.
Qed.

Lemma skeleton_jobs_of a js js' :
  skeleton js = skeleton js' → length (jobs_of a js) = length (jobs_of a js').
Proof.
  unfold skeleton, jobs_of, Obj.values.
  revert js'. induction js as [|[k j] js IH]; intros [|[k' j'] js']; try done.
  rewrite !fmap_cons. simpl. intros [= -> Hid Hacc Hrest].
  rewrite !filter_cons. rewrite Hacc.
  destruct (decide (Job.accountId j' = a)); simpl; by rewrite (IH js' Hrest).
Qed.

Lemma skeleton_keys_are_ids js js' :
  skeleton js = skeleton js' →
  Forall (λ kj, Job.id (snd kj) = fst kj) js →
  Forall (λ kj, Job.id (snd kj) = fst kj) js'.
Proof.
  unfold skeleton.
  revert js'. induction js as [|[k j] js IH]; intros [|[k' j'] js']; try done.
  rewrite !fmap_cons. simpl. intros [= -> Hid Hacc Hrest].
  rewrite !Forall_cons. simpl. intros [Hk Hall].
  split; [congruence|]. by apply IH.
Qed.

Lemma skeleton_updateJobStatus jobId st σ :
  skeleton (jobs (updateJobStatus jobId st σ)) = skeleton (jobs σ).
Proof.
  unfold updateJobStatus. cbn [jobs setJobs].
  destruct (Obj.get jobId (jobs σ)) as [j|] eqn:Hj; [|done].
  case_decide; [|done]. by apply (skeleton_set _ j).
Qed.

Lemma skeleton_record_result jobId i contact o σ :
  skeleton (jobs (record_result jobId i contact o σ)) = skeleton (jobs σ).
Proof.
  rewrite record_result_eq. unfold push_result. cbn [jobs setJobs].
  destruct (Obj.get jobId (jobs σ)) as [j|] eqn:Hj; [|done].
  by apply (skeleton_set _ j).
Qed.

Lemma skeleton_tick σ : skeleton (jobs (tick σ)) = skeleton (jobs σ).
Proof.
  unfold tick, tick_jobs. cbn [jobs setJobs].
  destruct (existsb _ _); [|done].
  unfold skeleton. rewrite <- list_fmap_compose.
  apply list_fmap_ext. intros i [k j] _. simpl.
  unfold tick_job. by case_decide.
Qed.

(** ** How a stretch of the loop can end *)

Section Shape.
Variable t : Task.
Implicit Types (σ : Store) (j : Job.t).

Lemma after_loop_shape σ : loop_shape t σ (after_loop t σ).
Proof.
  unfold after_loop, loop_shape.
  destruct (jobControlRefs σ !! t_jobId t) eqn:E.
  - right; right; right. by split.
  - right; left. by split.
Qed.

Lemma cancelled_shape wp σ : loop_shape t σ (after_loop t (publish_cancelled t wp σ)).
Proof. rewrite after_loop_publish_cancelled. right; right; left. by exists wp. Qed.

Lemma post_delay_shape i contact σ : loop_shape t σ (post_delay t i contact σ).
Proof.
  unfold post_delay. destruct (cancel_requested _ _); [apply cancelled_shape|].
  left. by split.
Qed.

Lemma post_pause_shape i contact σ : loop_shape t σ (post_pause t i contact σ).
Proof.
  unfold post_pause. destruct (cancel_requested _ _); [apply cancelled_shape|].
  destruct (_ && _); [by left|apply post_delay_shape].
Qed.

Lemma pause_wait_shape i contact controls σ :
  loop_shape t σ (pause_wait t i contact controls σ).
Proof.
  unfold pause_wait. destruct (isPaused _); [|apply post_pause_shape].
  destruct (isCancelled _); [|by left].
  right; right; left. by exists true.
Qed.

Lemma loop_top_shape i σ : loop_shape t σ (loop_top t i σ).
Proof.
  unfold loop_top. destruct (t_contacts t !! i); [|apply after_loop_shape].
  destruct (jobControlRefs σ !! t_jobId t); [|apply after_loop_shape].
  destruct (isCancelled _); [apply cancelled_shape|apply pause_wait_shape].
Qed.

(** The store a woken invocation runs the loop from. *)
Lemma resume_shape p ev σ :
  awaited p ev = true →
  ∃ σx, loop_shape t σx (resume t p ev σ)
        ∧ match p, ev with
          | AwaitYield, _ => σx = installed t σ
          | AwaitFetch i contact, Reply o =>
              σx = record_result (t_jobId t) i contact o σ
          | _, _ => σx = σ
          end.
Proof.
  destruct p as [|i c l|i c|i c|], ev as [|o]; try done; intros _; cbn [resume].
  - eexists. split; [apply loop_top_shape|done].
  - eexists. split; [apply pause_wait_shape|done].
  - eexists. split; [apply post_delay_shape|done].
  - eexists. split; [apply loop_top_shape|done].
Qed.

Lemma publish_completed_get σ j :
  Obj.get (t_jobId t) (jobs σ) = Some j →
  Obj.get (t_jobId t) (jobs (publish_completed t σ))
  = Some (if decide (Job.status j = completed) then j
          else Job.with_status_progress completed 100%Q j).
Proof.
  intros Hj. unfold publish_completed. cbn [jobs setRefs].
  by rewrite (updateJobStatus_get _ completed (toast _ σ) j Hj).
Qed.

(** What every ending has in common. *)
Lemma loop_shape_frame σ p' σ' :
  loop_shape t σ (p', σ') →
  skeleton (jobs σ') = skeleton (jobs σ)
  ∧ heap σ' = heap σ
  ∧ (∀ k, k ≠ t_jobId t →
       Obj.get k (jobs σ') = Obj.get k (jobs σ)
       ∧ jobControlRefs σ' !! k = jobControlRefs σ !! k)
  ∧ (jobControlRefs σ' !! t_jobId t = jobControlRefs σ !! t_jobId t
     ∨ jobControlRefs σ' !! t_jobId t = None)
  ∧ p' ≠ AwaitYield
  ∧ (p' ≠ Finished → σ' = σ)
  ∧ (p' = Finished → jobControlRefs σ' !! t_jobId t = None)
  ∧ (Obj.get (t_jobId t) (jobs σ) = None → jobs σ' = jobs σ).
Proof.
  intros [[Hs Hp]|[[[= -> ->] Hr]|[[wp [= -> ->]]|[[= -> ->] Hr]]]].
  - simpl in *. subst σ'. repeat split; try done.
    + by left.
    + intros ->. by destruct Hp.
    + intros ->. by destruct Hp.
  - repeat split; try done. by left.
  - repeat split; try done.
    + unfold publish_cancelled. cbn [jobs setRefs].
      apply (skeleton_updateJobStatus _ cancelled (toast _ σ)).
    + by apply publish_cancelled_get_ne.
    + rewrite publish_cancelled_refs. by apply lookup_delete_ne.
    + right. rewrite publish_cancelled_refs. apply lookup_delete_eq.
    + intros _. rewrite publish_cancelled_refs. apply lookup_delete_eq.
    + intros Hn. unfold publish_cancelled. cbn [jobs setRefs].
      by rewrite (updateJobStatus_get_None _ cancelled (toast _ σ)).
  - repeat split; try done.
    + unfold publish_completed. cbn [jobs setRefs].
      apply (skeleton_updateJobStatus _ completed (toast _ σ)).
    + unfold publish_completed. cbn [jobs setRefs].
      by apply (updateJobStatus_get_ne _ completed (toast _ σ)).
    + unfold publish_completed. cbn [jobControlRefs setRefs].
      rewrite updateJobStatus_refs. by apply lookup_delete_ne.
    + right. apply lookup_delete_eq.
    + intros _. apply lookup_delete_eq.
    + intros Hn. unfold publish_completed. cbn [jobs setRefs].
      by rewrite (updateJobStatus_get_None _ completed (toast _ σ)).
Qed.

End Shape.

Section Effect.
Variable t : Task.
Implicit Types (σ : Store) (j : Job.t).

Lemma installed_get σ : Obj.get (t_jobId t) (jobs (installed t σ)) = Some (newJob t).
Proof. unfold installed, toast. simpl. apply ObjFacts.get_set_eq. Qed.

Lemma installed_get_ne σ k :
  k ≠ t_jobId t →
  Obj.get k (jobs (installed t σ)) = Obj.get k (jobs σ)
  ∧ jobControlRefs (installed t σ) !! k = jobControlRefs σ !! k.
Proof.
  intros Hk. unfold installed, toast. simpl. split.
  - by apply ObjFacts.get_set_ne.
  - by apply lookup_insert_ne.
Qed.

Lemma installed_jobs σ :
  Obj.get (t_jobId t) (jobs σ) = None →
  jobs (installed t σ) = jobs σ ++ [(t_jobId t, newJob t)].
Proof.
  intros Hn. unfold installed, toast. simpl. by apply ObjFacts.set_fresh.
Qed.

(** The store the loop is run from when an invocation is woken, against
    the store it is woken in. *)
Lemma prepared_effect p ev σ σx :
  awaited p ev = true →
  match p, ev with
  | AwaitYield, _ => σx = installed t σ
  | AwaitFetch i contact, Reply o => σx = record_result (t_jobId t) i contact o σ
  | _, _ => σx = σ
  end →
  (p = AwaitYield → Obj.get (t_jobId t) (jobs σ) = None) →
  (∀ k, k ≠ t_jobId t →
     Obj.get k (jobs σx) = Obj.get k (jobs σ)
     ∧ jobControlRefs σx !! k = jobControlRefs σ !! k)
  ∧ ((∀ j, Obj.get (t_jobId t) (jobs σ) = Some j → ¬ terminal (Job.status j)) →
     ∀ j, Obj.get (t_jobId t) (jobs σx) = Some j → ¬ terminal (Job.status j))
  ∧ (∀ k, k ∈ Obj.keys (jobs σx) → k ∈ Obj.keys (jobs σ) ∨ k = t_jobId t)
  ∧ (keys_are_ids σ → keys_are_ids σx)
  ∧ (p ≠ AwaitYield →
     skeleton (jobs σx) = skeleton (jobs σ)
     ∧ jobControlRefs σx = jobControlRefs σ ∧ heap σx = heap σ).
Proof.
  intros Haw Hx Hy.
  destruct p as [|i c l|i c|i c|], ev as [|o]; try done; subst σx;
    try (by repeat split; auto).
  - specialize (Hy eq_refl). split; [|split; [|split; [|split]]]; [..|done].
    + intros k Hk. by apply installed_get_ne.
    + intros _ j. rewrite installed_get. intros [= <-]. simpl.
      unfold terminal. by intros [|].
    + intros k. rewrite (installed_jobs σ Hy). unfold Obj.keys.
      rewrite fmap_app. intros [H|H]%elem_of_app; [by left|right].
      by apply list_elem_of_singleton in H.
    + unfold keys_are_ids. rewrite (installed_jobs σ Hy).
      intros H. apply Forall_app. split; [done|]. by constructor.
  - split; [|split; [|split; [|split]]].
    + intros k Hk. split; [by apply record_result_get_ne|].
      by rewrite record_result_refs.
    + intros Hnt j Hj.
      destruct (Obj.get (t_jobId t) (jobs σ)) as [j0|] eqn:Hj0.
      * rewrite (record_result_get _ _ _ _ _ _ Hj0) in Hj. injection Hj as <-.
        simpl. by apply (Hnt j0).
      * by rewrite (record_result_absent _ _ _ _ _ Hj0), Hj0 in Hj.
    + intros k. rewrite record_result_keys. by left.
    + unfold keys_are_ids. apply skeleton_keys_are_ids.
      by rewrite skeleton_record_result.
    + intros _. split; [apply skeleton_record_result|].
      by rewrite record_result_refs, record_result_heap.
Qed.

(** The effect of waking an invocation, as far as the invariant goes. *)
Lemma resume_effect p ev σ p' σ' :
  awaited p ev = true →
  resume t p ev σ = (p', σ') →
  (p = AwaitYield → Obj.get (t_jobId t) (jobs σ) = None) →
  (∀ j, Obj.get (t_jobId t) (jobs σ) = Some j → ¬ terminal (Job.status j)) →
  (∀ k, k ≠ t_jobId t →
     Obj.get k (jobs σ') = Obj.get k (jobs σ)
     ∧ jobControlRefs σ' !! k = jobControlRefs σ !! k)
  ∧ p' ≠ AwaitYield
  ∧ (p' = Finished → jobControlRefs σ' !! t_jobId t = None)
  ∧ (∀ j', Obj.get (t_jobId t) (jobs σ') = Some j' →
           terminal (Job.status j') → p' = Finished)
  ∧ (∀ k, k ∈ Obj.keys (jobs σ') → k ∈ Obj.keys (jobs σ) ∨ k = t_jobId t)
  ∧ (keys_are_ids σ → keys_are_ids σ').
Proof.
  intros Haw Hres Hy Hnt.
  destruct (resume_shape t p ev σ Haw) as (σx & Hshape & Hx).
  rewrite Hres in Hshape.
  destruct (prepared_effect p ev σ σx Haw Hx Hy) as (Ha & Hc & Hd & He & _).
  destruct (loop_shape_frame t σx p' σ' Hshape)
    as (Hsk & Hh & Hfr & Hrf & Hny & Hlive & Hfin & _).
  split; [|split; [done|split; [done|split; [|split]]]].
  - intros k Hk. destruct (Hfr k Hk) as [-> ->]. by apply Ha.
  - intros j' Hj' Hterm.
    assert (p' = Finished ∨ p' ≠ Finished) as [|Hnf]
      by (by destruct p'; [right..|left]); [done|].
    rewrite (Hlive Hnf) in Hj'. by destruct (Hc Hnt j' Hj').
  - intros k. rewrite (skeleton_keys (jobs σ')), Hsk, <- skeleton_keys. apply Hd.
  - intros Hk. unfold keys_are_ids.
    apply (skeleton_keys_are_ids (jobs σx)); [done|]. by apply He.
Qed.

Lemma resume_flags_owned p ev σ p' σ' k :
  awaited p ev = true →
  resume t p ev σ = (p', σ') →
  is_Some (jobControlRefs σ' !! k) →
  is_Some (jobControlRefs σ !! k) ∨ k = t_jobId t.
Proof.
  intros Haw Hres Hk.
  destruct (decide (k = t_jobId t)) as [|Hne]; [by right|left].
  destruct (resume_shape t p ev σ Haw) as (σx & Hshape & Hx).
  rewrite Hres in Hshape.
  destruct (loop_shape_frame t σx p' σ' Hshape) as (_ & _ & Hfr & _).
  destruct (Hfr k Hne) as [_ Hr]. rewrite Hr in Hk.
  destruct p as [|i c l|i c|i c|], ev as [|o]; try done; subst σx; try done.
  - by rewrite (proj2 (installed_get_ne σ k Hne)) in Hk.
  - by rewrite record_result_refs in Hk.
Qed.
End Effect.

(** ** The commands and the ticker are calm *)

Lemma get_skeleton js js' k :
  skeleton js = skeleton js' → Obj.get k js = None → Obj.get k js' = None.
Proof.
  intros Hsk. rewrite !ObjFacts.get_None_keys, !skeleton_keys. by rewrite Hsk.
Qed.

Lemma calm_refl σ : calm σ σ.
Proof. repeat split. intros k j' Hj'. exists j'. by split; [|left]. Qed.

Lemma calm_toast n σ σ' : calm σ σ' → calm σ (toast n σ').
Proof. done. Qed.

Lemma calm_updateJobStatus jobId st σ :
  is_Some (jobControlRefs σ !! jobId) → ¬ terminal st →
  calm σ (updateJobStatus jobId st σ).
Proof.
  intros Hr Hst. split; [done|]. split; [apply skeleton_updateJobStatus|].
  intros k j' Hj'. destruct (decide (jobId = k)) as [<-|Hne].
  - destruct (Obj.get jobId (jobs σ)) as [j|] eqn:Hj.
    + exists j. split; [done|].
      rewrite (updateJobStatus_get _ _ _ _ Hj) in Hj'. injection Hj' as <-.
      case_decide; [by left|right]. by split.
    + by rewrite (updateJobStatus_get_None _ _ _ Hj), Hj in Hj'.
  - rewrite (updateJobStatus_get_ne _ _ _ _ Hne) in Hj'.
    exists j'. by split; [|left].
Qed.

Lemma calm_setHeap f σ σ' : calm (setHeap f σ) σ' → calm σ σ'.
Proof. done. Qed.

Lemma calm_pauseJob jobId σ : calm σ (pauseJob jobId σ).
Proof.
  unfold pauseJob. destruct (jobControlRefs σ !! jobId) eqn:Hr; [|apply calm_refl].
  apply calm_toast, (calm_setHeap (alter (set_isPaused true) n)).
  apply calm_updateJobStatus; [eexists; exact Hr|]. unfold terminal. by intros [|].
Qed.

Lemma calm_resumeJob jobId σ : calm σ (resumeJob jobId σ).
Proof.
  unfold resumeJob. destruct (jobControlRefs σ !! jobId) eqn:Hr; [|apply calm_refl].
  apply calm_toast, (calm_setHeap (alter (set_isPaused false) n)).
  apply calm_updateJobStatus; [eexists; exact Hr|]. unfold terminal. by intros [|].
Qed.

Lemma calm_cancelJob jobId σ : calm σ (cancelJob jobId σ).
Proof.
  unfold cancelJob. destruct (jobControlRefs σ !! jobId) eqn:Hr; [|apply calm_refl].
  apply calm_toast, (calm_setHeap (alter (set_isCancelled true) n)), calm_refl.
Qed.

Lemma calm_tick σ : calm σ (tick σ).
Proof.
  split; [done|]. split; [apply skeleton_tick|].
  intros k j'. cbn [tick jobs setJobs]. rewrite tick_jobs_get.
  destruct (Obj.get k (jobs σ)) as [j|]; [|done]. intros [= <-].
  exists j. split; [done|]. left. unfold tick_job. by case_decide.
Qed.

(** ** The invariant *)

Lemma Inv_init : Inv init.
Proof.
  split; simpl.
  - constructor.
  - apply not_elem_of_nil.
  - intros k H. by apply not_elem_of_nil in H.
  - intros k [? H]. by rewrite lookup_empty in H.
  - constructor.
  - intros ? ? ? H. by apply not_elem_of_nil in H.
  - done.
  - intros ? H. by apply not_elem_of_nil in H.
Qed.

Lemma Inv_calm s σ' : Inv s → calm (store s) σ' → Inv (mkSystem σ' (tasks s)).
Proof.
  intros [Hd He Hjo Hfo Hk Ht1 Ht2 Hy] (Hr & Hsk & Hst).
  split; cbn [store tasks used_ids]; try done.
  - intros k. rewrite skeleton_keys, Hsk, <- skeleton_keys. apply Hjo.
  - intros k. rewrite Hr. apply Hfo.
  - unfold keys_are_ids. by apply (skeleton_keys_are_ids (jobs (store s))).
  - intros t p j' Hin Hj' Hterm.
    destruct (Hst _ _ Hj') as (j & Hj & [Hsame|[_ Hnt]]); [|done].
    apply (Ht1 t p j Hin Hj). by rewrite <- Hsame.
  - intros k j' Hj' Hterm. rewrite Hr.
    destruct (Hst _ _ Hj') as (j & Hj & [Hsame|[_ Hnt]]); [|done].
    apply (Ht2 k j Hj). by rewrite <- Hsame.
  - intros t Hin. destruct (Hy t Hin) as [Hn Hrn]. rewrite Hr. split; [|done].
    by apply (get_skeleton (jobs (store s))).
Qed.

Lemma used_ids_mem s t p : (t, p) ∈ tasks s → t_jobId t ∈ used_ids s.
Proof.
  intros H. unfold used_ids.
  by apply (list_elem_of_fmap_2 (λ tp, t_jobId (fst tp)) _ (t, p)).
Qed.

(** The invariant after an invocation was woken, or started without a
    yield: [ts'] is the task list with that invocation at its new await. *)
Lemma Inv_resumed s t p ev p' σ' ts' :
  Inv s →
  awaited p ev = true →
  resume t p ev (store s) = (p', σ') →
  (p = AwaitYield → Obj.get (t_jobId t) (jobs (store s)) = None) →
  (∀ j, Obj.get (t_jobId t) (jobs (store s)) = Some j → ¬ terminal (Job.status j)) →
  NoDup (used_ids (mkSystem σ' ts')) →
  EmptyString ∉ used_ids (mkSystem σ' ts') →
  t_jobId t ∈ used_ids (mkSystem σ' ts') →
  (∀ k, k ∈ used_ids s → k ∈ used_ids (mkSystem σ' ts')) →
  (∀ t2 p2, (t2, p2) ∈ ts' →
     t2 = t ∧ p2 = p' ∨ (t2, p2) ∈ tasks s ∧ t_jobId t2 ≠ t_jobId t) →
  Inv (mkSystem σ' ts').
Proof.
  intros [Hd He Hjo Hfo Hk Ht1 Ht2 Hy] Haw Hres Hyt Hnt Hd' He' Hin' Hsub Hts.
  destruct (resume_effect t p ev (store s) p' σ' Haw Hres Hyt Hnt)
    as (Ha & Hb1 & Hb2 & Hc & Hdk & Hek).
  split; cbn [store tasks]; try done.
  - intros k Hkin. destruct (Hdk k Hkin) as [H| ->]; [|done]. by apply Hsub, Hjo.
  - intros k Hkin.
    destruct (resume_flags_owned t p ev (store s) p' σ' k Haw Hres Hkin) as [H| ->];
      [|done].
    by apply Hsub, Hfo.
  - by apply Hek.
  - intros t2 p2 j Hin Hj Hterm.
    destruct (Hts t2 p2 Hin) as [[-> ->]|[Hold Hne]]; [by apply (Hc j)|].
    rewrite (proj1 (Ha _ Hne)) in Hj. by apply (Ht1 t2 p2 j).
  - intros k j Hj Hterm. destruct (decide (k = t_jobId t)) as [->|Hne].
    + apply Hb2. by apply (Hc j).
    + destruct (Ha k Hne) as [Hg Hr]. rewrite Hr. rewrite Hg in Hj.
      by apply (Ht2 k j).
  - intros t2 Hin. destruct (Hts t2 AwaitYield Hin) as [[-> Hp]|[Hold Hne]].
    + by destruct Hb1.
    + destruct (Ha _ Hne) as [-> ->]. by apply Hy.
Qed.

Lemma elem_of_insert_inv {A} (l : list A) n x y :
  y ∈ <[n := x]> l → y = x ∨ ∃ m, m ≠ n ∧ l !! m = Some y.
Proof.
  intros (m & Hm)%list_elem_of_lookup.
  apply list_lookup_insert_Some in Hm as [(-> & -> & _)|(Hne & Hm)]; [by left|].
  right. exists m. by split.
Qed.

Lemma used_ids_lookup s n t p :
  tasks s !! n = Some (t, p) → used_ids s !! n = Some (t_jobId t).
Proof. intros H. unfold used_ids. by rewrite list_lookup_fmap, H. Qed.

Lemma used_ids_insert σ σ' ts n t p p' :
  ts !! n = Some (t, p) →
  used_ids (mkSystem σ' (<[n := (t, p')]> ts)) = used_ids (mkSystem σ ts).
Proof.
  intros H. unfold used_ids. cbn [tasks].
  rewrite list_fmap_insert. cbn [fst].
  apply list_insert_id. by rewrite list_lookup_fmap, H.
Qed.

Lemma Inv_wake s n ev t p p' σ' :
  Inv s →
  tasks s !! n = Some (t, p) →
  awaited p ev = true →
  resume t p ev (store s) = (p', σ') →
  Inv (mkSystem σ' (<[n := (t, p')]> (tasks s))).
Proof.
  intros HI Hn Haw Hres.
  assert ((t, p) ∈ tasks s) as Hin by (by eapply list_elem_of_lookup_2).
  assert (used_ids (mkSystem σ' (<[n := (t, p')]> (tasks s))) = used_ids s) as Hids.
  { destruct s as [σ ts]. by apply (used_ids_insert σ σ' ts n t p p'). }
  apply (Inv_resumed s t p ev p' σ'); try done.
  - intros ->. by apply (inv_yield_unpublished s HI).
  - intros j Hj Hterm.
    pose proof (inv_terminal_finished s HI t p j Hin Hj Hterm) as ->.
    by destruct ev.
  - rewrite Hids. apply (inv_ids_distinct s HI).
  - rewrite Hids. apply (inv_ids_nonempty s HI).
  - rewrite Hids. by eapply used_ids_mem.
  - intros k. by rewrite Hids.
  - intros t2 p2 [[= -> ->]|(m & Hne & Hm)]%elem_of_insert_inv; [by left|].
    right. split; [by eapply list_elem_of_lookup_2|].
    intros Heq. apply Hne.
    apply (NoDup_lookup (used_ids s) m n (t_jobId t)).
    + apply (inv_ids_distinct s HI).
    + rewrite <- Heq. by apply (used_ids_lookup s m t2 p2).
    + by apply (used_ids_lookup s n t p).
Qed.

(** The three ways a call of [startJob] can go. *)
Lemma startJob_cases accounts uuid accountId listId listName importData delay σ :
  (∃ n, startJob accounts uuid accountId listId listName importData delay σ
        = (None, toast n σ))
  ∨ (∃ t p σ0,
       startJob accounts uuid accountId listId listName importData delay σ
       = (Some (t, p), σ0)
       ∧ t_jobId t = uuid ∧ t_accountId t = accountId
       ∧ t_contacts t = parseContacts importData
       ∧ resume t AwaitYield Timer σ = (p, σ0)
       ∧ (existing_job_id accountId σ = None
          ∨ existing_job_id accountId σ = Some EmptyString))
  ∨ (∃ t existingJobId,
       startJob accounts uuid accountId listId listName importData delay σ
       = (Some (t, AwaitYield),
          removeJob existingJobId (setRefs (delete existingJobId) σ))
       ∧ t_jobId t = uuid ∧ t_accountId t = accountId
       ∧ t_contacts t = parseContacts importData
       ∧ existing_job_id accountId σ = Some existingJobId
       ∧ existingJobId ≠ EmptyString).
Proof.
  destruct (startJob accounts uuid accountId listId listName importData delay σ)
    as [[[t p]|] σ0] eqn:Hs.
  - right. apply startJob_inv in Hs as (account & _ & _ & Ht & Hcase).
    destruct Hcase as [[Hi He]|(e & He & Hne & -> & ->)].
    + left. exists t, p, σ0. subst t. by repeat split.
    + right. exists t, e. subst t. by repeat split.
  - left. revert Hs. unfold startJob.
    destruct (find_account accounts accountId); [|intros [= <-]; by eexists].
    case_bool_decide; [intros [= <-]; by eexists|].
    destruct (existing_job_id accountId σ) as [e|].
    + destruct (Str.is_empty e); [|done]. by destruct (install _ σ).
    + by destruct (install _ σ).
Qed.

Lemma get_del_Some {A} k e (o : list (string * A)) v :
  Obj.get k (Obj.del e o) = Some v → Obj.get k o = Some v ∧ k ≠ e.
Proof.
  intros H. destruct (decide (e = k)) as [->|Hne].
  - by rewrite ObjFacts.get_del_eq in H.
  - rewrite ObjFacts.get_del_ne in H by done. by split.
Qed.

Lemma get_del_None {A} k e (o : list (string * A)) :
  Obj.get k o = None → Obj.get k (Obj.del e o) = None.
Proof.
  intros H. destruct (decide (e = k)) as [->|Hne].
  - apply ObjFacts.get_del_eq.
  - by rewrite ObjFacts.get_del_ne.
Qed.

Lemma keys_del {A} k e (o : list (string * A)) :
  k ∈ Obj.keys (Obj.del e o) → k ∈ Obj.keys o.
Proof.
  unfold Obj.keys, Obj.del.
  intros ([k' v] & -> & Hin)%list_elem_of_fmap.
  apply list_elem_of_filter in Hin as [_ Hin].
  by apply (list_elem_of_fmap_2 fst _ (k', v)).
Qed.

Lemma Forall_filter_keep {A} (P Q : A → Prop) `{!∀ x, Decision (Q x)} (l : list A) :
  Forall P l → Forall P (filter Q l).
Proof.
  rewrite !Forall_forall. intros Hall x [_ Hx]%list_elem_of_filter. by apply Hall.
Qed.

Lemma Inv_fresh_id s uuid :
  Inv s → uuid ∉ used_ids s →
  Obj.get uuid (jobs (store s)) = None ∧ jobControlRefs (store s) !! uuid = None.
Proof.
  intros HI Hfresh. split.
  - apply ObjFacts.get_None_keys. intros H. by apply Hfresh, (inv_jobs_owned s HI).
  - destruct (jobControlRefs (store s) !! uuid) eqn:E; [|done].
    destruct Hfresh. apply (inv_flags_owned s HI). by eexists.
Qed.

Lemma used_ids_snoc σ σ' ts t p :
  used_ids (mkSystem σ' (ts ++ [(t, p)])) = used_ids (mkSystem σ ts) ++ [t_jobId t].
Proof. unfold used_ids. cbn [tasks]. by rewrite fmap_app. Qed.

Lemma NoDup_snoc_fresh {A} (l : list A) x : NoDup l → x ∉ l → NoDup (l ++ [x]).
Proof.
  intros Hl Hx. apply NoDup_app. split; [done|]. split; [|apply NoDup_singleton].
  intros y Hy ->%list_elem_of_singleton. done.
Qed.

Lemma Inv_start s accounts uuid accountId listId listName importData delay r σ' :
  Inv s →
  uuid ≠ EmptyString → uuid ∉ used_ids s →
  startJob accounts uuid accountId listId listName importData delay (store s) = (r, σ') →
  Inv (mkSystem σ' (tasks s ++ option_list r)).
Proof.
  intros HI Hne Hfresh Hs.
  destruct (Inv_fresh_id s uuid HI Hfresh) as [Hnj Hnr].
  destruct (startJob_cases accounts uuid accountId listId listName importData delay
              (store s))
    as [[n Hc]|[(t & p & σ0 & Hc & Hid & _ & _ & Hres & _)
               |(t & e & Hc & Hid & _ & _ & He & Hen)]];
    rewrite Hc in Hs; injection Hs as <- <-; unfold option_list; cbn [option_rect].
  - rewrite app_nil_r. apply Inv_calm; [done|]. apply calm_toast, calm_refl.
  - assert (used_ids (mkSystem σ0 (tasks s ++ [(t, p)])) = used_ids s ++ [uuid]) as Hids.
    { destruct s as [σ ts]. rewrite <- Hid. apply used_ids_snoc. }
    apply (Inv_resumed s t AwaitYield Timer p σ0); try done.
    + intros _. by rewrite Hid.
    + intros j. by rewrite Hid, Hnj.
    + rewrite Hids. apply NoDup_snoc_fresh; [apply (inv_ids_distinct s HI)|done].
    + rewrite Hids. apply not_elem_of_app. split; [apply (inv_ids_nonempty s HI)|].
      intros H%list_elem_of_singleton. congruence.
    + rewrite Hids, Hid. apply elem_of_app. right. by apply list_elem_of_singleton.
    + intros k Hk. rewrite Hids. apply elem_of_app. by left.
    + intros t2 p2 [Hin|[= -> ->]%list_elem_of_singleton]%elem_of_app; [|by left].
      right. split; [done|]. rewrite Hid. intros Heq. apply Hfresh.
      rewrite <- Heq. by eapply used_ids_mem.
  - assert (used_ids (mkSystem (removeJob e (setRefs (delete e) (store s)))
                        (tasks s ++ [(t, AwaitYield)])) = used_ids s ++ [uuid]) as Hids.
    { destruct s as [σ ts]. rewrite <- Hid. apply used_ids_snoc. }
    destruct HI as [Hd He' Hjo Hfo Hk Ht1 Ht2 Hy].
    split; rewrite ?Hids; cbn [store tasks removeJob jobs jobControlRefs setRefs setJobs].
    + by apply NoDup_snoc_fresh.
    + apply not_elem_of_app. split; [done|].
      intros H%list_elem_of_singleton. congruence.
    + intros k Hkin%keys_del. apply elem_of_app. left. by apply Hjo.
    + intros k [l Hl]. apply elem_of_app. left. apply Hfo.
      apply lookup_delete_Some in Hl as [_ Hl].
      apply lookup_delete_Some in Hl as [_ Hl]. by eexists.
    + unfold keys_are_ids, Obj.del. cbn [jobs]. by apply Forall_filter_keep.
    + intros t2 p2 j Hin [Hj Hke]%get_del_Some Hterm.
      apply elem_of_app in Hin as [Hin|[= -> ->]%list_elem_of_singleton].
      * by apply (Ht1 t2 p2 j).
      * rewrite Hid in Hj. congruence.
    + intros k j [Hj Hke]%get_del_Some Hterm.
      rewrite !lookup_delete_ne by done. by apply (Ht2 k j).
    + intros t2 [Hin|[= ->]%list_elem_of_singleton]%elem_of_app.
      * destruct (Hy t2 Hin) as [Hg Hr]. split; [by apply get_del_None|].
        apply lookup_delete_None. right. apply lookup_delete_None. by right.
      * rewrite Hid. split; [by apply get_del_None|].
        apply lookup_delete_None. right. apply lookup_delete_None. by right.
Qed.

Lemma Inv_step c s s' : Inv s → sys_step c s = Some s' → Inv s'.
Proof.
  intros HI. destruct c as [accounts uuid a li ln d dl|k|k|k| |n ev]; simpl.
  - case_decide as Hu; [done|].
    destruct (startJob accounts uuid a li ln d dl (store s)) as [r σ'] eqn:Hs.
    intros [= <-]. apply (Inv_start s accounts uuid a li ln d dl r σ'); try done.
    + intros ->. apply Hu. by left.
    + intros H. apply Hu. by right.
  - intros [= <-]. apply Inv_calm; [done|apply calm_pauseJob].
  - intros [= <-]. apply Inv_calm; [done|apply calm_resumeJob].
  - intros [= <-]. apply Inv_calm; [done|apply calm_cancelJob].
  - intros [= <-]. apply Inv_calm; [done|apply calm_tick].
  - destruct (tasks s !! n) as [[t p]|] eqn:Hn; [|done].
    destruct (awaited p ev) eqn:Haw; [|done].
    destruct (resume t p ev (store s)) as [p' σ'] eqn:Hres.
    intros [= <-]. by apply (Inv_wake s n ev t p p' σ').
Qed.

Lemma Inv_exec cs : ∀ s s', Inv s → exec cs s = Some s' → Inv s'.
Proof.
  induction cs as [|c cs IH]; intros s s' HI; simpl.
  - by intros [= <-].
  - destruct (sys_step c s) as [s1|] eqn:Hc; [|done].
    apply IH. by apply (Inv_step c s).
Qed.

Lemma Inv_reachable s : reachable s → Inv s.
Proof. intros [cs Hcs]. by apply (Inv_exec cs init s Inv_init). Qed.

(** ** Terminal statuses *)

Lemma calm_terminal σ σ' k j j' :
  calm σ σ' →
  Obj.get k (jobs σ) = Some j → jobControlRefs σ !! k = None →
  Obj.get k (jobs σ') = Some j' → Job.status j' = Job.status j.
Proof.
  intros (_ & _ & Hst) Hj Hr Hj'.
  destruct (Hst k j' Hj') as (j0 & Hj0 & [Hs|[[l Hl] _]]); congruence.
Qed.

(** C5. Take any state the engine can reach and any step from it - a
    pause, resume or cancel command, a start, a tick, or an invocation of
    the loop being woken. A job that is published after the step with status
    [completed] or [cancelled] has no control flags then, whether it has just
    entered that status or had it before; and a job that had one of the two
    statuses before the step and is still published after it has the same
    status. *)
Theorem terminal_status_is_final (s s' : System) (c : command) :
  reachable s →
  sys_step c s = Some s' →
  ∀ k j', Obj.get k (jobs (store s')) = Some j' →
    (terminal (Job.status j') → jobControlRefs (store s') !! k = None)
    ∧ (∀ j, Obj.get k (jobs (store s)) = Some j → terminal (Job.status j) →
            Job.status j' = Job.status j).
Proof.
  intros Hreach Hstep k j' Hj'.
  pose proof (Inv_reachable s Hreach) as HI.
  pose proof (Inv_step c s s' HI Hstep) as HI'.
  split; [by apply (inv_terminal_no_flags s' HI' k j')|].
  intros j Hj Hterm.
  pose proof (inv_terminal_no_flags s HI k j Hj Hterm) as Hnf.
  revert Hstep Hj'. clear HI'.
  destruct c as [accounts uuid a li ln d dl|k0|k0|k0| |n ev]; simpl.
  - case_decide as Hu; [done|].
    destruct (startJob accounts uuid a li ln d dl (store s)) as [r σ'] eqn:Hs.
    intros [= <-]. cbn [store].
    assert (k ≠ uuid) as Hku.
    { intros ->. apply Hu. right. apply (inv_jobs_owned s HI).
      apply dec_stable. rewrite <- ObjFacts.get_None_keys. congruence. }
    destruct (startJob_cases accounts uuid a li ln d dl (store s))
      as [[n Hc]|[(t & p & σ0 & Hc & Hid & _ & _ & Hres & _)
                 |(t & e & Hc & Hid & _ & _ & He & Hen)]];
      rewrite Hc in Hs; injection Hs as <- <-.
    + cbn [jobs toast]. congruence.
    + assert (uuid ∉ used_ids s) as Hfresh by (intros H; apply Hu; by right).
      destruct (Inv_fresh_id s uuid HI Hfresh) as [Hnj _].
      destruct (resume_effect t AwaitYield Timer (store s) p σ0 eq_refl Hres)
        as (Ha & _).
      * intros _. by rewrite Hid.
      * intros j0. by rewrite Hid, Hnj.
      * rewrite (proj1 (Ha k ltac:(by rewrite Hid))). congruence.
    + cbn [removeJob jobs setJobs setRefs].
      intros [Hg _]%get_del_Some. congruence.
  - intros [= <-]. by apply (calm_terminal _ _ k j j' (calm_pauseJob k0 _)).
  - intros [= <-]. by apply (calm_terminal _ _ k j j' (calm_resumeJob k0 _)).
  - intros [= <-]. by apply (calm_terminal _ _ k j j' (calm_cancelJob k0 _)).
  - intros [= <-]. by apply (calm_terminal _ _ k j j' (calm_tick _)).
  - destruct (tasks s !! n) as [[t p]|] eqn:Hn; [|done].
    destruct (awaited p ev) eqn:Haw; [|done].
    destruct (resume t p ev (store s)) as [p' σ'] eqn:Hres.
    intros [= <-]. cbn [store].
    assert ((t, p) ∈ tasks s) as Hin by (by eapply list_elem_of_lookup_2).
    assert (k ≠ t_jobId t) as Hkt.
    { intros ->.
      pose proof (inv_terminal_finished s HI t p j Hin Hj Hterm) as ->.
      by destruct ev. }
    destruct (resume_effect t p ev (store s) p' σ' Haw Hres) as (Ha & _).
    + intros ->. by apply (inv_yield_unpublished s HI).
    + intros j0 Hj0 Hterm0.
      pose proof (inv_terminal_finished s HI t p j0 Hin Hj0 Hterm0) as ->.
      by destruct ev.
    + rewrite (proj1 (Ha k Hkt)). congruence.
Qed.

(** ** A loop whose flags were removed from under it *)

(** X11. Not suspended in the pause wait, an invocation that finds neither its
    flags nor its job ends without publishing anything: at once when it is
    woken by the provider's answer or reaches the top of the loop, after one
    more submission when it is woken from the delay. *)
Lemma unpaused_orphan_ends_silently t i contact o σ :
  jobControlRefs σ !! t_jobId t = None →
  Obj.get (t_jobId t) (jobs σ) = None →
  loop_top t i σ = (Finished, σ)
  ∧ after_loop t σ = (Finished, σ)
  ∧ resume t (AwaitFetch i contact) (Reply o) σ = (Finished, σ)
  ∧ resume t (AwaitDelay i contact) Timer σ = (AwaitFetch i contact, σ).
Proof.
  intros Hr Hj.
  assert (∀ n, loop_top t n σ = (Finished, σ)) as Htop.
  { intros n. unfold loop_top. rewrite Hr.
    destruct (t_contacts t !! n); by apply after_loop_no_flags. }
  repeat split.
  - apply Htop.
  - by apply after_loop_no_flags.
  - cbn [resume]. rewrite (record_result_absent _ _ _ _ _ Hj). apply Htop.
  - cbn [resume]. unfold post_delay, cancel_requested. by rewrite Hr.
Qed.

Section Orphan.
Variable l : loc.
Implicit Types (σ : Store).

Lemma orphaned_alter f k σ σ' :
  orphaned l σ →
  jobControlRefs σ' = jobControlRefs σ →
  heap σ' = match jobControlRefs σ !! k with
            | Some l' => alter f l' (heap σ)
            | None => heap σ
            end →
  orphaned l σ'.
Proof.
  intros [Hl Hno] Hr Hh. split; [|by rewrite Hr].
  rewrite Hh. destruct (jobControlRefs σ !! k) as [l'|] eqn:Hk; [|done].
  rewrite list_lookup_alter_ne; [done|]. intros ->. by destruct (Hno k).
Qed.

Lemma orphaned_pauseJob k σ : orphaned l σ → orphaned l (pauseJob k σ).
Proof.
  intros H. apply (orphaned_alter (set_isPaused true) k σ); [done|..];
    unfold pauseJob; by destruct (jobControlRefs σ !! k).
Qed.

Lemma orphaned_resumeJob k σ : orphaned l σ → orphaned l (resumeJob k σ).
Proof.
  intros H. apply (orphaned_alter (set_isPaused false) k σ); [done|..];
    unfold resumeJob; by destruct (jobControlRefs σ !! k).
Qed.

Lemma orphaned_cancelJob k σ : orphaned l σ → orphaned l (cancelJob k σ).
Proof.
  intros H. apply (orphaned_alter (set_isCancelled true) k σ); [done|..];
    unfold cancelJob; by destruct (jobControlRefs σ !! k).
Qed.

Lemma orphaned_installed t σ : orphaned l σ → orphaned l (installed t σ).
Proof.
  intros [Hl Hno].
  unfold installed, toast, setJobs, setRefs, setHeap, orphaned.
  cbn [heap jobControlRefs]. split.
  - by apply lookup_app_l_Some.
  - intros k. destruct (decide (k = t_jobId t)) as [->|Hne].
    + rewrite lookup_insert_eq. intros [= Heq].
      apply lookup_lt_Some in Hl. lia.
    + rewrite lookup_insert_ne by done. apply Hno.
Qed.

Lemma orphaned_resume t p ev σ p' σ' :
  awaited p ev = true → resume t p ev σ = (p', σ') →
  orphaned l σ → orphaned l σ'.
Proof.
  intros Haw Hres Ho.
  destruct (resume_shape t p ev σ Haw) as (σx & Hshape & Hx).
  rewrite Hres in Hshape.
  assert (orphaned l σx) as [Hl Hno].
  { destruct p as [|i c l0|i c|i c|], ev as [|o]; try done; subst σx; try done.
    - by apply orphaned_installed.
    - destruct Ho as [Hl Hno]. split.
      + by rewrite record_result_heap.
      + by rewrite record_result_refs. }
  destruct (loop_shape_frame t σx p' σ' Hshape) as (_ & Hh & Hfr & Hown & _).
  split; [by rewrite Hh|].
  intros k. destruct (decide (k = t_jobId t)) as [->|Hne].
  - destruct Hown as [-> | ->]; [apply Hno|done].
  - rewrite (proj2 (Hfr k Hne)). apply Hno.
Qed.

Lemma orphaned_startJob accounts uuid a li ln d dl σ r σ' :
  startJob accounts uuid a li ln d dl σ = (r, σ') →
  orphaned l σ → orphaned l σ'.
Proof.
  intros Hs Ho.
  destruct (startJob_cases accounts uuid a li ln d dl σ)
    as [[n Hc]|[(t & p & σ0 & Hc & _ & _ & _ & Hres & _)
               |(t & e & Hc & _)]];
    rewrite Hc in Hs; injection Hs as <- <-.
  - done.
  - by apply (orphaned_resume t AwaitYield Timer σ p σ0).
  - destruct Ho as [Hl Hno]. split; [done|].
    intros k. cbn [removeJob jobControlRefs setRefs setJobs].
    intros [_ [_ H]%lookup_delete_Some]%lookup_delete_Some. by destruct (Hno k).
Qed.

(** Once orphaned in the pause wait, always so: no command, tick or wake
    moves the invocation, and the control object stays out of reach. *)
Lemma orphaned_step c s s' n t i contact :
  tasks s !! n = Some (t, AwaitPause i contact l) →
  orphaned l (store s) →
  sys_step c s = Some s' →
  tasks s' !! n = Some (t, AwaitPause i contact l) ∧ orphaned l (store s').
Proof.
  intros Hn Ho. destruct c as [accounts uuid a li ln d dl|k|k|k| |m ev]; simpl.
  - case_decide; [done|].
    destruct (startJob accounts uuid a li ln d dl (store s)) as [r σ'] eqn:Hs.
    intros [= <-]. cbn [store tasks]. split.
    + by apply lookup_app_l_Some.
    + by apply (orphaned_startJob accounts uuid a li ln d dl (store s) r σ').
  - intros [= <-]. split; [done|by apply orphaned_pauseJob].
  - intros [= <-]. split; [done|by apply orphaned_resumeJob].
  - intros [= <-]. split; [done|by apply orphaned_cancelJob].
  - by intros [= <-].
  - destruct (tasks s !! m) as [[t2 p2]|] eqn:Hm; [|done].
    destruct (awaited p2 ev) eqn:Haw; [|done].
    destruct (resume t2 p2 ev (store s)) as [p' σ'] eqn:Hres.
    intros [= <-]. cbn [store tasks].
    split; [|by apply (orphaned_resume t2 p2 ev (store s) p' σ')].
    destruct (decide (m = n)) as [->|Hne].
    + rewrite Hn in Hm. injection Hm as <- <-. destruct ev; [|done].
      revert Hres. cbn [resume]. unfold pause_wait, deref.
      destruct Ho as [-> _]. simpl. intros [= <- <-].
      apply list_lookup_insert_eq. by apply lookup_lt_Some in Hn.
    + by rewrite list_lookup_insert_ne.
Qed.

Lemma orphaned_exec cs : ∀ s s' n t i contact,
  tasks s !! n = Some (t, AwaitPause i contact l) →
  orphaned l (store s) →
  exec cs s = Some s' →
  tasks s' !! n = Some (t, AwaitPause i contact l) ∧ orphaned l (store s').
Proof.
  induction cs as [|c cs IH]; intros s s' n t i contact Hn Ho; simpl.
  - by intros [= <-].
  - destruct (sys_step c s) as [s1|] eqn:Hc; [|done].
    destruct (orphaned_step c s s1 n t i contact Hn Ho Hc) as [Hn1 Ho1].
    by apply IH.
Qed.
End Orphan.

(** C7, at the input where the code departs from it. An import for account
    A is paused, its loop reaches the pause wait, and a new import is started
    for account A, which removes the first job and its flags. Whatever
    happens next, the first invocation is still suspended in its pause wait:
    it polls the control object it kept, which no command can reach any
    more, and never ends. *)
Theorem orphaned_paused_loop_never_ends (cs : list command) (s' : System) :
  exec cs (Sample.after Sample.restart_while_paused) = Some s' →
  ∃ t contact,
    tasks s' !! 0 = Some (t, AwaitPause 1 contact 0)
    ∧ t_jobId t = "j1"
    ∧ heap (store s') !! 0 = Some (mkControls true false)
    ∧ ∀ k, jobControlRefs (store s') !! k ≠ Some 0.
Proof.
  intros Hexec.
  assert (∃ t contact,
            tasks (Sample.after Sample.restart_while_paused) !! 0
            = Some (t, AwaitPause 1 contact 0) ∧ t_jobId t = "j1")
    as (t & contact & Ht & Hid).
  { eexists _, _. split; vm_compute; reflexivity. }
  assert (orphaned 0 (store (Sample.after Sample.restart_while_paused))) as Ho.
  { split; [vm_compute; reflexivity|].
    assert (jobControlRefs (store (Sample.after Sample.restart_while_paused)) = ∅)
      as -> by (vm_compute; reflexivity).
    intros k. by rewrite lookup_empty. }
  destruct (orphaned_exec 0 cs _ s' 0 t 1 contact Ht Ho Hexec) as [Ht' [Hl Hno]].
  by exists t, contact.
Qed.

Lemma orphaned_paused_loop_never_ends_witness :
  ∃ s', exec [Wake 0 Timer; Tick; CmdCancel "j1"; CmdResume "j1"; Wake 0 Timer]
          (Sample.after Sample.restart_while_paused) = Some s'
        ∧ ∃ t contact,
            tasks s' !! 0 = Some (t, AwaitPause 1 contact 0)
            ∧ t_jobId t = "j1"
            ∧ heap (store s') !! 0 = Some (mkControls true false)
            ∧ ∀ k, jobControlRefs (store s') !! k ≠ Some 0.
Proof.
  eexists. split; [vm_compute; reflexivity|].
  apply (orphaned_paused_loop_never_ends
           [Wake 0 Timer; Tick; CmdCancel "j1"; CmdResume "j1"; Wake 0 Timer]).
  vm_compute. reflexivity.
Defined.

(** ** One job per account *)

Lemma find_filter_head {A} (f : A → bool) (P : A → Prop) `{!∀ x, Decision (P x)}
    (l : list A) x :
  (∀ y, f y = true ↔ P y) →
  find f l = Some x → ∃ l', filter P l = x :: l'.
Proof.
  intros Hf. induction l as [|y l IH]; simpl; [done|].
  rewrite filter_cons. destruct (f y) eqn:Hy.
  - intros [= ->]. rewrite decide_True by (by apply Hf). by eexists.
  - intros Hfn. rewrite decide_False; [by apply IH|].
    rewrite <- Hf. congruence.
Qed.

Lemma find_filter_nil {A} (f : A → bool) (P : A → Prop) `{!∀ x, Decision (P x)}
    (l : list A) :
  (∀ y, f y = true ↔ P y) →
  find f l = None → filter P l = [].
Proof.
  intros Hf. induction l as [|y l IH]; simpl; [done|].
  rewrite filter_cons. destruct (f y) eqn:Hy; [done|].
  intros Hfn. rewrite decide_False; [by apply IH|].
  rewrite <- Hf. congruence.
Qed.

Lemma jobs_of_elem a js j :
  j ∈ jobs_of a js ↔ Job.accountId j = a ∧ ∃ k, (k, j) ∈ js.
Proof.
  unfold jobs_of, Obj.values. rewrite list_elem_of_filter, list_elem_of_fmap.
  split.
  - intros [Ha ([k j'] & -> & Hin)]. split; [done|]. by exists k.
  - intros [Ha [k Hin]]. split; [done|]. by exists (k, j).
Qed.

Lemma jobs_of_app a js js' : jobs_of a (js ++ js') = jobs_of a js ++ jobs_of a js'.
Proof. unfold jobs_of, Obj.values. by rewrite fmap_app, filter_app. Qed.

Lemma jobs_of_del_length a e js :
  length (jobs_of a (Obj.del e js)) ≤ length (jobs_of a js).
Proof.
  unfold jobs_of, Obj.values, Obj.del.
  induction js as [|kj js IH]; [done|].
  rewrite filter_cons. destruct (decide (fst kj ≠ e)).
  - rewrite !fmap_cons, !filter_cons.
    destruct (decide (Job.accountId (snd kj) = a)); cbn [length]; lia.
  - rewrite fmap_cons, filter_cons.
    destruct (decide (Job.accountId (snd kj) = a)); cbn [length]; lia.
Qed.

Lemma length_le_1_inv {A} (l : list A) x y : length l ≤ 1 → x ∈ l → y ∈ l → x = y.
Proof.
  destruct l as [|z [|z' l]]; simpl; [by intros _ ?%not_elem_of_nil| |lia].
  by intros _ ->%list_elem_of_singleton ->%list_elem_of_singleton.
Qed.

(** The job [startJob] picks for an account that has one. *)
Lemma existing_job_id_Some σ a e old :
  one_job_per_account σ → keys_are_ids σ →
  Obj.get e (jobs σ) = Some old → Job.accountId old = a →
  existing_job_id a σ = Some e.
Proof.
  intros Hone Hkeys Hold Ha. unfold existing_job_id.
  pose proof (ObjFacts.get_Some_elem _ _ _ Hold) as Hin.
  assert (old ∈ jobs_of a (jobs σ)) as Hof by (apply jobs_of_elem; eauto).
  assert (Job.id old = e) as Hid.
  { unfold keys_are_ids in Hkeys. rewrite Forall_forall in Hkeys.
    apply (Hkeys (e, old) Hin). }
  destruct (find _ (Obj.values (jobs σ))) as [j|] eqn:Hfind.
  - apply (find_filter_head _ (λ j, Job.accountId j = a)) in Hfind as [l' Hl'].
    + assert (j ∈ jobs_of a (jobs σ)) as Hj.
      { unfold jobs_of. rewrite Hl'. apply list_elem_of_here. }
      rewrite (length_le_1_inv _ j old (Hone a) Hj Hof). simpl. by rewrite Hid.
    + intros y. apply bool_decide_eq_true.
  - apply (find_filter_nil _ (λ j, Job.accountId j = a)) in Hfind.
    + unfold jobs_of in Hof. rewrite Hfind in Hof. by apply not_elem_of_nil in Hof.
    + intros y. apply bool_decide_eq_true.
Qed.

Lemma existing_job_id_None σ a :
  existing_job_id a σ = None → jobs_of a (jobs σ) = [].
Proof.
  unfold existing_job_id.
  destruct (find _ (Obj.values (jobs σ))) as [j|] eqn:Hfind; [done|]. intros _.
  apply (find_filter_nil _ (λ j, Job.accountId j = a)) in Hfind; [done|].
  intros y. apply bool_decide_eq_true.
Qed.

(** Removing the account's only job leaves the account without a job. *)
Lemma jobs_of_del_elem σ a e old :
  one_job_per_account σ → keys_are_ids σ →
  (e, old) ∈ jobs σ → Job.accountId old = a →
  jobs_of a (Obj.del e (jobs σ)) = [].
Proof.
  intros Hone Hkeys Hin Ha.
  assert (old ∈ jobs_of a (jobs σ)) as Hof by (apply jobs_of_elem; eauto).
  unfold keys_are_ids in Hkeys. rewrite Forall_forall in Hkeys.
  pose proof (Hkeys (e, old) Hin) as Hid. simpl in Hid.
  destruct (jobs_of a (Obj.del e (jobs σ))) as [|j l] eqn:E; [done|].
  assert (j ∈ jobs_of a (Obj.del e (jobs σ))) as Hj
    by (rewrite E; apply list_elem_of_here).
  apply jobs_of_elem in Hj as [Hja [k Hk]].
  unfold Obj.del in Hk. apply list_elem_of_filter in Hk as [Hne Hk]. simpl in Hne.
  assert (j ∈ jobs_of a (jobs σ)) as Hj' by (apply jobs_of_elem; eauto).
  pose proof (length_le_1_inv _ j old (Hone a) Hj' Hof) as ->.
  pose proof (Hkeys (k, old) Hk) as Hid'. simpl in Hid'. congruence.
Qed.

Lemma jobs_of_del_own σ a e old :
  one_job_per_account σ → keys_are_ids σ →
  Obj.get e (jobs σ) = Some old → Job.accountId old = a →
  jobs_of a (Obj.del e (jobs σ)) = [].
Proof.
  intros Hone Hkeys Hold Ha.
  apply (jobs_of_del_elem σ a e old); try done.
  by apply ObjFacts.get_Some_elem.
Qed.

(** The id [startJob] finds is the key of a published job of the account. *)
Lemma existing_job_id_elem σ a e :
  keys_are_ids σ → existing_job_id a σ = Some e →
  ∃ old, (e, old) ∈ jobs σ ∧ Job.accountId old = a.
Proof.
  intros Hkeys. unfold existing_job_id.
  destruct (find _ (Obj.values (jobs σ))) as [j|] eqn:Hfind; [|done].
  intros [= <-]. apply find_some in Hfind as [Hin Hacc].
  apply bool_decide_eq_true in Hacc. exists j. split; [|done].
  apply list_elem_of_In in Hin. unfold Obj.values in Hin.
  apply list_elem_of_fmap in Hin as ([k j'] & -> & Hin).
  unfold keys_are_ids in Hkeys. rewrite Forall_forall in Hkeys.
  pose proof (Hkeys (k, j') Hin) as Hid. simpl in *. by rewrite Hid.
Qed.

Lemma installed_quiet t σ : quiet (t_jobId t) (installed t σ).
Proof.
  exists (length (heap σ)). unfold installed, toast, setJobs, setRefs, setHeap.
  simpl. split; [apply lookup_insert_eq|].
  rewrite lookup_app_r by lia. by rewrite Nat.sub_diag.
Qed.

Lemma install_eq t σ contact :
  t_contacts t !! 0 = Some contact →
  install t σ = (AwaitFetch 0 contact, installed t σ).
Proof.
  intros Hc. unfold install.
  apply loop_top_quiet; [done|apply installed_quiet|by left].
Qed.

Lemma jobs_of_installed t σ a :
  Obj.get (t_jobId t) (jobs σ) = None →
  jobs_of a (jobs (installed t σ))
  = jobs_of a (jobs σ) ++ (if decide (t_accountId t = a) then [newJob t] else []).
Proof.
  intros Hn. rewrite (installed_jobs t σ Hn), jobs_of_app. by f_equal.
Qed.

Lemma one_job_per_account_skeleton σ σ' :
  skeleton (jobs σ') = skeleton (jobs σ) →
  one_job_per_account σ → one_job_per_account σ'.
Proof.
  intros Hsk Hone a. rewrite (skeleton_jobs_of a _ _ Hsk). apply Hone.
Qed.

Lemma jobs_of_nil_skeleton a js js' :
  skeleton js' = skeleton js → jobs_of a js = [] → jobs_of a js' = [].
Proof.
  intros Hsk Hn. apply length_zero_iff_nil.
  by rewrite (skeleton_jobs_of a _ _ Hsk), Hn.
Qed.

Lemma one_job_per_account_del e σ σ' :
  jobs σ' = Obj.del e (jobs σ) → one_job_per_account σ → one_job_per_account σ'.
Proof.
  intros Hj Hone a. rewrite Hj.
  pose proof (jobs_of_del_length a e (jobs σ)). specialize (Hone a). lia.
Qed.

Lemma one_job_per_account_installed t σ :
  Obj.get (t_jobId t) (jobs σ) = None →
  jobs_of (t_accountId t) (jobs σ) = [] →
  one_job_per_account σ → one_job_per_account (installed t σ).
Proof.
  intros Hn Hempty Hone a. rewrite (jobs_of_installed t σ a Hn).
  destruct (decide (t_accountId t = a)) as [<-|].
  - by rewrite Hempty.
  - rewrite app_nil_r. apply Hone.
Qed.

(** C3 as the specification words it fails twice. On [totalContacts]: an
    import of one contact started for an account whose previous import had
    one contact publishes a job with the same [totalContacts], and only the
    id is new. On "at any time": two starts for one account that overlap in
    the 50 ms yield leave two jobs for the account, since the second start
    finds no job to remove and installs its own, after which the first one
    wakes and installs its own too. *)
Lemma restart_may_keep_totalContacts :
  ((Job.totalContacts
    <$> Sample.job_of "j2" (Sample.after [Sample.start_j2]))
   = Some 1
   ∧ (Job.totalContacts
      <$> Sample.job_of "j4"
            (Sample.after
               [Sample.start_j2;
                CmdStart Sample.accounts "j4" "A" "7" "news" Sample.batch1 0;
                Wake 1 Timer]))
     = Some 1
   ∧ Sample.job_of "j2"
       (Sample.after
          [Sample.start_j2;
           CmdStart Sample.accounts "j4" "A" "7" "news" Sample.batch1 0;
           Wake 1 Timer])
     = None)
  ∧ length
      (jobs_of "A"
         (jobs (store
            (Sample.after
               [Sample.start_j1; Sample.start_j2;
                CmdStart Sample.accounts "j4" "A" "7" "news" Sample.batch1 0;
                Wake 1 Timer]))))
    = 2.
Proof. repeat split; vm_compute; reflexivity. Qed.

(** A start for an account that has a job, on a well-formed store. *)
Lemma restart_effect accounts uuid a li ln d dl σ e old t p σ0 :
  one_job_per_account σ → keys_are_ids σ →
  e ≠ EmptyString → Obj.get uuid (jobs σ) = None →
  Obj.get e (jobs σ) = Some old → Job.accountId old = a →
  startJob accounts uuid a li ln d dl σ = (Some (t, p), σ0) →
  p = AwaitYield
  ∧ Obj.get e (jobs σ0) = None
  ∧ jobControlRefs σ0 !! e = None
  ∧ jobs_of a (jobs σ0) = []
  ∧ ∃ contact,
      resume t AwaitYield Timer σ0 = (AwaitFetch 0 contact, installed t σ0)
      ∧ jobs_of a (jobs (installed t σ0)) = [newJob t]
      ∧ Obj.get uuid (jobs (installed t σ0)) = Some (newJob t)
      ∧ Job.id (newJob t) = uuid
      ∧ uuid ≠ e
      ∧ Job.status (newJob t) = running
      ∧ Job.totalContacts (newJob t) = length (parseContacts d)
      ∧ one_job_per_account (installed t σ0).
Proof.
  intros Hone Hkeys Hen Hfresh Hold Ha Hs.
  pose proof (existing_job_id_Some σ a e old Hone Hkeys Hold Ha) as Hex.
  apply startJob_inv in Hs as (account & _ & Hne & Ht & Hcase).
  destruct Hcase as [[_ [Hn|Hn]]|(e' & He' & _ & -> & ->)]; [congruence..|].
  assert (e' = e) as -> by congruence.
  assert (t_jobId t = uuid) as Hid by (by subst t).
  assert (t_accountId t = a) as Hacc by (by subst t).
  assert (t_contacts t = parseContacts d) as Hcs by (by subst t).
  assert (uuid ≠ e) as Hue by (intros ->; congruence).
  set (σ0 := removeJob e (setRefs (delete e) σ)).
  assert (jobs σ0 = Obj.del e (jobs σ)) as Hj0 by done.
  assert (jobs_of a (jobs σ0) = []) as Hempty.
  { rewrite Hj0. by apply (jobs_of_del_own σ a e old). }
  assert (Obj.get (t_jobId t) (jobs σ0) = None) as Hfresh0.
  { rewrite Hid, Hj0. by apply get_del_None. }
  split; [done|]. split; [rewrite Hj0; apply ObjFacts.get_del_eq|].
  split; [apply lookup_delete_eq|]. split; [done|].
  destruct (t_contacts t) as [|c0 cs] eqn:Hc; [by rewrite <- Hcs in Hne|].
  exists c0. split; [cbn [resume]; apply install_eq; by rewrite Hc|].
  split.
  { rewrite (jobs_of_installed t σ0 a Hfresh0), Hempty.
    by rewrite decide_True. }
  split; [rewrite <- Hid; apply installed_get|].
  split; [done|]. split; [done|]. split; [done|].
  split; [simpl; by rewrite Hc, Hcs|].
  apply one_job_per_account_installed; [done|by rewrite Hacc|].
  by apply (one_job_per_account_del e σ).
Qed.

Lemma resume_skeleton t p ev σ p' σ' :
  awaited p ev = true → resume t p ev σ = (p', σ') →
  skeleton (jobs σ')
  = skeleton (jobs match p with AwaitYield => installed t σ | _ => σ end).
Proof.
  intros Haw Hres.
  destruct (resume_shape t p ev σ Haw) as (σx & Hshape & Hx).
  rewrite Hres in Hshape.
  destruct (loop_shape_frame t σx p' σ' Hshape) as (-> & _).
  destruct p as [|i c l|i c|i c|], ev as [|o]; try done; subst σx; try done.
  apply skeleton_record_result.
Qed.

Lemma OneJob_init : OneJob init.
Proof.
  split; [apply Inv_init|intros a; simpl; lia|..].
  - intros t H. by apply not_elem_of_nil in H.
  - intros m n t1 t2 H. simpl in H. by rewrite lookup_nil in H.
Qed.

Lemma OneJob_calm s σ' :
  OneJob s → calm (store s) σ' → OneJob (mkSystem σ' (tasks s)).
Proof.
  intros [HI Hone Hy Hu] Hcalm. pose proof Hcalm as (_ & Hsk & _).
  split; cbn [store tasks]; [by apply Inv_calm| | |done].
  - by apply (one_job_per_account_skeleton (store s)).
  - intros t Hin. apply (jobs_of_nil_skeleton _ (jobs (store s))); [done|].
    by apply Hy.
Qed.

Lemma OneJob_wake s n ev t p p' σ' :
  OneJob s →
  tasks s !! n = Some (t, p) →
  awaited p ev = true →
  resume t p ev (store s) = (p', σ') →
  OneJob (mkSystem σ' (<[n := (t, p')]> (tasks s))).
Proof.
  intros [HI Hone Hy Hu] Hn Haw Hres.
  assert ((t, p) ∈ tasks s) as Hin by (by eapply list_elem_of_lookup_2).
  pose proof (resume_skeleton t p ev (store s) p' σ' Haw Hres) as Hsk.
  assert (p' ≠ AwaitYield) as Hp'.
  { destruct (resume_shape t p ev (store s) Haw) as (σx & Hshape & _).
    rewrite Hres in Hshape.
    by destruct (loop_shape_frame t σx p' σ' Hshape) as (_ & _ & _ & _ & ? & _). }
  assert (∀ t2, (t2, AwaitYield) ∈ <[n := (t, p')]> (tasks s) →
                ∃ m, m ≠ n ∧ tasks s !! m = Some (t2, AwaitYield)) as Hother.
  { intros t2 [[= -> <-]|H]%elem_of_insert_inv; [done|exact H]. }
  split; cbn [store tasks].
  - by apply (Inv_wake s n ev t p p' σ').
  - destruct p; try (by apply (one_job_per_account_skeleton (store s))).
    apply (one_job_per_account_skeleton (installed t (store s))); [done|].
    apply one_job_per_account_installed; [|by apply Hy|done].
    by apply (inv_yield_unpublished s HI).
  - intros t2 Hin2. destruct (Hother t2 Hin2) as (m & Hne & Hm).
    assert (jobs_of (t_accountId t2) (jobs (store s)) = []) as He
      by (eapply Hy, list_elem_of_lookup_2, Hm).
    destruct p; try (by apply (jobs_of_nil_skeleton _ (jobs (store s)))).
    apply (jobs_of_nil_skeleton _ (jobs (installed t (store s)))); [done|].
    rewrite jobs_of_installed by (by apply (inv_yield_unpublished s HI)).
    rewrite He. rewrite decide_False; [done|].
    intros Heq. apply Hne. by apply (Hu m n t2 t).
  - intros m1 m2 t1 t2 H1 H2 Heq.
    apply list_lookup_insert_Some in H1 as [(_ & [= _ ?] & _)|[Hn1 H1]]; [done|].
    apply list_lookup_insert_Some in H2 as [(_ & [= _ ?] & _)|[Hn2 H2]]; [done|].
    by apply (Hu m1 m2 t1 t2).
Qed.

Lemma OneJob_start s accounts uuid a li ln d dl r σ' :
  OneJob s →
  start_allowed (CmdStart accounts uuid a li ln d dl) s →
  uuid ≠ EmptyString → uuid ∉ used_ids s →
  startJob accounts uuid a li ln d dl (store s) = (r, σ') →
  OneJob (mkSystem σ' (tasks s ++ option_list r)).
Proof.
  intros [HI Hone Hy Hu] Hallowed Hne Hfresh Hs. simpl in Hallowed.
  pose proof (Inv_start s accounts uuid a li ln d dl r σ' HI Hne Hfresh Hs) as HI'.
  destruct (Inv_fresh_id s uuid HI Hfresh) as [Hnj Hnr].
  pose proof (inv_keys_are_ids s HI) as Hkeys.
  destruct (startJob_cases accounts uuid a li ln d dl (store s))
    as [[n Hc]|[(t & p & σ0 & Hc & Hid & Hacc & _ & Hres & Hex)
               |(t & e & Hc & Hid & Hacc & _ & He & Hen)]];
    rewrite Hc in Hs; injection Hs as <- <-;
    unfold option_list in *; cbn [option_rect] in *.
  - rewrite app_nil_r in *.
    apply (OneJob_calm s); [by split|]. apply calm_toast, calm_refl.
  - pose proof (resume_skeleton t AwaitYield Timer (store s) p σ0 eq_refl Hres) as Hsk.
    assert (p ≠ AwaitYield) as Hp.
    { destruct (resume_shape t AwaitYield Timer (store s) eq_refl)
        as (σx & Hshape & _).
      rewrite Hres in Hshape.
      by destruct (loop_shape_frame t σx p σ0 Hshape) as (_ & _ & _ & _ & ? & _). }
    assert (jobs_of a (jobs (store s)) = []) as Hempty.
    { destruct Hex as [Hex|Hex]; [by apply existing_job_id_None|].
      destruct (existing_job_id_elem _ _ _ Hkeys Hex) as (old & Hin & _).
      destruct (inv_ids_nonempty s HI). apply (inv_jobs_owned s HI).
      unfold Obj.keys. by apply (list_elem_of_fmap_2 fst _ (EmptyString, old)). }
    rewrite <- Hid in Hnj.
    split; cbn [store tasks]; [done|..].
    + apply (one_job_per_account_skeleton (installed t (store s))); [done|].
      apply one_job_per_account_installed; [done|by rewrite Hacc|done].
    + intros t2 [Hin|[= -> ?]%list_elem_of_singleton]%elem_of_app; [|done].
      apply (jobs_of_nil_skeleton _ (jobs (installed t (store s)))); [done|].
      rewrite (jobs_of_installed t _ _ Hnj), (Hy t2 Hin).
      rewrite decide_False; [done|]. rewrite Hacc. intros Heq.
      by apply (Hallowed t2 Hin).
    + intros m1 m2 t1 t2.
      intros [[_ H1]|[_ [= -> ?]]]%lookup_snoc_Some; [|done].
      intros [[_ H2]|[_ [= -> ?]]]%lookup_snoc_Some; [|done].
      by apply (Hu m1 m2 t1 t2).
  - destruct (existing_job_id_elem _ _ _ Hkeys He) as (old & Hin & Hold).
    split; cbn [store tasks]; [done|..].
    + by apply (one_job_per_account_del e (store s)).
    + cbn [removeJob jobs setJobs setRefs].
      intros t2 [Hin2|[= ->]%list_elem_of_singleton]%elem_of_app.
      * apply length_zero_iff_nil.
        pose proof (jobs_of_del_length (t_accountId t2) e (jobs (store s))) as Hle.
        rewrite (Hy t2 Hin2) in Hle. simpl in Hle. lia.
      * rewrite Hacc. by apply (jobs_of_del_elem (store s) a e old).
    + intros m1 m2 t1 t2.
      intros [[Hl1 H1]|[-> [= <-]]]%lookup_snoc_Some
             [[Hl2 H2]|[-> [= <-]]]%lookup_snoc_Some Heq.
      * by apply (Hu m1 m2 t1 t2).
      * destruct (Hallowed t1); [by eapply list_elem_of_lookup_2|congruence].
      * destruct (Hallowed t2); [by eapply list_elem_of_lookup_2|congruence].
      * done.
Qed.

Lemma OneJob_step c s s' :
  OneJob s → start_allowed c s → sys_step c s = Some s' → OneJob s'.
Proof.
  intros HO Hal. destruct c as [accounts uuid a li ln d dl|k|k|k| |n ev]; simpl.
  - case_decide as Hu; [done|].
    destruct (startJob accounts uuid a li ln d dl (store s)) as [r σ'] eqn:Hs.
    intros [= <-]. apply (OneJob_start s accounts uuid a li ln d dl r σ'); try done.
    + intros ->. apply Hu. by left.
    + intros H. apply Hu. by right.
  - intros [= <-]. apply OneJob_calm; [done|apply calm_pauseJob].
  - intros [= <-]. apply OneJob_calm; [done|apply calm_resumeJob].
  - intros [= <-]. apply OneJob_calm; [done|apply calm_cancelJob].
  - intros [= <-]. apply OneJob_calm; [done|apply calm_tick].
  - destruct (tasks s !! n) as [[t p]|] eqn:Hn; [|done].
    destruct (awaited p ev) eqn:Haw; [|done].
    destruct (resume t p ev (store s)) as [p' σ'] eqn:Hres.
    intros [= <-]. by apply (OneJob_wake s n ev t p p' σ').
Qed.

Lemma OneJob_exec cs : ∀ s s',
  OneJob s → sequential cs s → exec cs s = Some s' → OneJob s'.
Proof.
  induction cs as [|c cs IH]; intros s s' HO; simpl.
  - by intros _ [= <-].
  - intros [Hal Hseq]. destruct (sys_step c s) as [s1|] eqn:Hc; [|done].
    apply IH; [|done]. by apply (OneJob_step c s).
Qed.

(** C3 (amended). As long as no start is issued for an account while an
    earlier start for it is still in the yield that follows the removal of
    the previous job, every state the engine reaches publishes at most one
    job per account. In such a state a successful start for an account that
    has a job, whatever its status, first removes that job and its control
    flags, which leaves the account without a job; when the new job is then
    installed, the account has exactly one job, the new one: it is
    [running], its id is the fresh id, which differs from the old job's, and
    its [totalContacts] is the number of contacts parsed from the new input
    (which may well be the old job's). *)
Theorem restart_keeps_one_job_per_account (cs : list command) (s : System) :
  sequential cs init →
  exec cs init = Some s →
  one_job_per_account (store s)
  ∧ ∀ accounts uuid accountId listId listName importData delay
      existingJobId old t p σ0,
      uuid ≠ EmptyString → uuid ∉ used_ids s →
      Obj.get existingJobId (jobs (store s)) = Some old →
      Job.accountId old = accountId →
      startJob accounts uuid accountId listId listName importData delay (store s)
      = (Some (t, p), σ0) →
      p = AwaitYield
      ∧ Obj.get existingJobId (jobs σ0) = None
      ∧ jobControlRefs σ0 !! existingJobId = None
      ∧ jobs_of accountId (jobs σ0) = []
      ∧ ∃ contact,
          resume t AwaitYield Timer σ0 = (AwaitFetch 0 contact, installed t σ0)
          ∧ jobs_of accountId (jobs (installed t σ0)) = [newJob t]
          ∧ Obj.get uuid (jobs (installed t σ0)) = Some (newJob t)
          ∧ Job.id (newJob t) = uuid
          ∧ uuid ≠ existingJobId
          ∧ Job.status (newJob t) = running
          ∧ Job.totalContacts (newJob t) = length (parseContacts importData)
          ∧ one_job_per_account (installed t σ0).
Proof.
  intros Hseq Hexec.
  pose proof (OneJob_exec cs init s OneJob_init Hseq Hexec) as [HI Hone _ _].
  split; [done|].
  intros accounts uuid a li ln d dl e old t p σ0 Hne Hfresh Hold Hacc Hs.
  destruct (Inv_fresh_id s uuid HI Hfresh) as [Hnj _].
  apply (restart_effect accounts uuid a li ln d dl (store s) e old t p σ0);
    try done.
  - apply (inv_keys_are_ids s HI).
  - intros ->. destruct (inv_ids_nonempty s HI). apply (inv_jobs_owned s HI).
    apply dec_stable. rewrite <- ObjFacts.get_None_keys. congruence.
Qed.

(** ** The theorems at work on the sample data *)

Lemma undisturbed_run_completes_witness :
  ∃ σ' j,
    run Sample.task_j1
      (undisturbed (AwaitFetch 0 Sample.c0) [Sample.created; Sample.created])
      (AwaitFetch 0 Sample.c0, store (Sample.after [Sample.start_j1]))
    = (Finished, σ')
    ∧ Obj.get "j1" (jobs σ') = Some j
    ∧ Job.status j = completed
    ∧ Job.progress j = 100%Q
    ∧ length (Job.results j) = length (parseContacts Sample.batch2)
    ∧ ImportResult.index <$> Job.results j
      = rev (seq 1 (length (parseContacts Sample.batch2)))
    ∧ Forall (λ r, ImportResult.status r = success) (Job.results j)
    ∧ jobControlRefs σ' !! "j1" = None.
Proof.
  apply (undisturbed_run_completes Sample.accounts "j1" "A" "7" "news"
           Sample.batch2 empty_store).
  - vm_compute. reflexivity.
  - reflexivity.
  - repeat constructor.
Defined.

Lemma cancellation_protocol_witness :
  jobControlRefs (store (Sample.after [Sample.start_j1; CmdCancel "j1"])) !! "j1"
  = Some 0
  ∧ loop_top Sample.task_j1 1 (store (Sample.after [Sample.start_j1; CmdCancel "j1"]))
    = (Finished,
       publish_cancelled Sample.task_j1 false
         (store (Sample.after [Sample.start_j1; CmdCancel "j1"])))
  ∧ (Job.status
     <$> Obj.get "j1"
           (jobs (publish_cancelled Sample.task_j1 false
                    (store (Sample.after [Sample.start_j1; CmdCancel "j1"])))))
    = Some cancelled.
Proof.
  destruct (cancellation_protocol Sample.task_j1
              (store (Sample.after [Sample.start_j1; CmdCancel "j1"]))
              0 Sample.job_j1 1 Sample.c1)
    as (_ & Hb & Hc).
  - vm_compute. reflexivity.
  - vm_compute. lia.
  - vm_compute. reflexivity.
  - reflexivity.
  - split; [vm_compute; reflexivity|]. split.
    + apply Hb. vm_compute. reflexivity.
    + destruct (Hc false) as [Hj _].
      change (t_jobId Sample.task_j1) with "j1" in Hj. by rewrite Hj.
Defined.

Lemma restart_keeps_one_job_per_account_witness :
  sequential Sample.done_j2 init
  ∧ one_job_per_account (store (Sample.after Sample.done_j2))
  ∧ jobs_of "A"
      (jobs (installed (mkTask (mkAccount "A" "key-A") "A" "7" "news" [Sample.c2] 0 "j4")
         (removeJob "j2"
            (setRefs (delete "j2") (store (Sample.after Sample.done_j2))))))
    = [newJob (mkTask (mkAccount "A" "key-A") "A" "7" "news" [Sample.c2] 0 "j4")].
Proof.
  assert (sequential Sample.done_j2 init) as Hseq.
  { simpl. split; [by intros t ?%not_elem_of_nil|done]. }
  split; [exact Hseq|].
  destruct (restart_keeps_one_job_per_account Sample.done_j2
              (Sample.after Sample.done_j2) Hseq) as [Hone Hrestart].
  { vm_compute. reflexivity. }
  split; [exact Hone|].
  destruct (Hrestart Sample.accounts "j4" "A" "7" "news" Sample.batch1 0%Z "j2"
              (Job.mk "j2" "A" "7" "news" completed 100%Q
                 [ImportResult.mk 1 "c@x.com" success
                    (Json.stringify (JObj [("status", JNum 201)]))]
                 1 0 0)
              (mkTask (mkAccount "A" "key-A") "A" "7" "news" [Sample.c2] 0 "j4")
              AwaitYield
              (removeJob "j2"
                 (setRefs (delete "j2") (store (Sample.after Sample.done_j2)))))
    as (_ & _ & _ & _ & contact & _ & Hjobs & _).
  - discriminate.
  - apply (bool_decide_unpack _). vm_compute. exact I.
  - vm_compute. reflexivity.
  - reflexivity.
  - vm_compute. reflexivity.
  - exact Hjobs.
Defined.

Lemma terminal_status_is_final_witness :
  reachable (Sample.after [Sample.start_j2])
  ∧ (Job.status <$> Sample.job_of "j2" (Sample.after Sample.done_j2)) = Some completed
  ∧ jobControlRefs (store (Sample.after Sample.done_j2)) !! "j2" = None
  ∧ reachable (Sample.after Sample.done_j2)
  ∧ (Job.status
     <$> Sample.job_of "j2" (Sample.after (Sample.done_j2 ++ [CmdPause "j2"])))
    = Some completed.
Proof.
  assert (reachable (Sample.after [Sample.start_j2])) as Hreach0.
  { exists [Sample.start_j2]. vm_compute. reflexivity. }
  assert (reachable (Sample.after Sample.done_j2)) as Hreach.
  { exists Sample.done_j2. vm_compute. reflexivity. }
  split; [exact Hreach0|]. split; [vm_compute; reflexivity|].
  split.
  { (* the job enters [completed]: its flags are gone *)
    refine (proj1 (terminal_status_is_final (Sample.after [Sample.start_j2])
                     (Sample.after Sample.done_j2) (Wake 0 (Reply Sample.created))
                     Hreach0 _ "j2"
                     (Job.mk "j2" "A" "7" "news" completed 100%Q
                        [ImportResult.mk 1 "c@x.com" success
                           (Json.stringify (JObj [("status", JNum 201)]))]
                        1 0 0) _) _).
    - vm_compute. reflexivity.
    - vm_compute. reflexivity.
    - left. reflexivity. }
  split; [exact Hreach|].
  (* a pause command on the completed job: no way out *)
  unfold Sample.job_of.
  destruct (Obj.get "j2"
              (jobs (store (Sample.after (Sample.done_j2 ++ [CmdPause "j2"])))))
    as [j'|] eqn:Hj'; [|vm_compute in Hj'; discriminate].
  simpl. f_equal.
  refine (proj2 (terminal_status_is_final (Sample.after Sample.done_j2)
                   (Sample.after (Sample.done_j2 ++ [CmdPause "j2"]))
                   (CmdPause "j2") Hreach _ "j2" j' Hj')
            (Job.mk "j2" "A" "7" "news" completed 100%Q
               [ImportResult.mk 1 "c@x.com" success
                  (Json.stringify (JObj [("status", JNum 201)]))]
               1 0 0) _ _).
  - vm_compute. reflexivity.
  - vm_compute. reflexivity.
  - left. reflexivity.
Defined.

Lemma failed_submission_recorded_witness :
  ¬ succeeded Sample.bad_gateway
  ∧ Obj.get "j1"
      (jobs (record_result "j1" 0 Sample.c0 Sample.bad_gateway
               (store (Sample.after [Sample.start_j1]))))
    = Some (Job.mk "j1" "A" "7" "news" running (newProgress 0 Sample.job_j1)
              [ImportResult.mk 1 "a@x.com" failed (failure_data Sample.bad_gateway)]
              2 0 0)
  ∧ fst (resume Sample.task_j1 (AwaitFetch 0 Sample.c0) (Reply Sample.bad_gateway)
           (store (Sample.after [Sample.start_j1])))
    = AwaitFetch 1 Sample.c1.
Proof.
  assert (¬ succeeded Sample.bad_gateway) as Hno.
  { simpl. intros [H|H]; discriminate H. }
  split; [exact Hno|].
  destruct (failed_submission_recorded Sample.task_j1 0 Sample.c0 Sample.bad_gateway
              (store (Sample.after [Sample.start_j1])) Sample.job_j1 Hno)
    as (_ & _ & _ & Hj & _).
  - vm_compute. reflexivity.
  - split; [exact Hj|]. vm_compute. reflexivity.
Defined.

Lemma tick_spec_witness :
  Obj.get "j1" (jobs (tick (store (Sample.after [Sample.start_j1]))))
  = Some (Job.mk "j1" "A" "7" "news" running 0%Q [] 2 1 0)
  ∧ tick (store (Sample.after Sample.done_j2)) = store (Sample.after Sample.done_j2).
Proof.
  split.
  - apply (tick_spec (store (Sample.after [Sample.start_j1])) "j1" Sample.job_j1).
    vm_compute. reflexivity.
  - apply (tick_spec (store (Sample.after Sample.done_j2)) "j2"
             (Job.mk "j2" "A" "7" "news" completed 100%Q
                [ImportResult.mk 1 "c@x.com" success
                   (Json.stringify (JObj [("status", JNum 201)]))]
                1 0 0)).
    + vm_compute. reflexivity.
    + vm_compute. repeat constructor. discriminate.
Defined.

Lemma pause_resume_change_status_only_witness :
  jobControlRefs (store (Sample.after [Sample.start_j1])) !! "j1" = Some 0
  ∧ Obj.get "j1" (jobs (pauseJob "j1" (store (Sample.after [Sample.start_j1]))))
    = Some (Job.mk "j1" "A" "7" "news" paused 0%Q [] 2 0 0)
  ∧ jobs (resumeJob "j1" (store (Sample.after [Sample.start_j1])))
    = jobs (store (Sample.after [Sample.start_j1])).
Proof.
  assert (jobControlRefs (store (Sample.after [Sample.start_j1])) !! "j1" = Some 0)
    as Hr by (vm_compute; reflexivity).
  split; [exact Hr|].
  destruct (pause_resume_change_status_only (store (Sample.after [Sample.start_j1]))
              "j1" 0 Sample.job_j1 Hr)
    as (Hp & _ & _ & _ & _ & _ & Hsame).
  - vm_compute. reflexivity.
  - split; [exact Hp|]. apply Hsame. reflexivity.
Defined.

(** * Further properties *)

(** ** The books of a job: results, progress and fixed fields *)

Section Ends.
Variable t : Task.
Implicit Types (σ : Store) (j : Job.t).

Lemma cancelled_ends i contact wp σ :
  ends t i contact σ (after_loop t (publish_cancelled t wp σ)).
Proof. rewrite after_loop_publish_cancelled. right; right. by exists wp. Qed.

Lemma post_delay_ends i contact σ : ends t i contact σ (post_delay t i contact σ).
Proof.
  unfold post_delay. destruct (cancel_requested _ _); [apply cancelled_ends|].
  by left.
Qed.

Lemma post_pause_ends i contact σ : ends t i contact σ (post_pause t i contact σ).
Proof.
  unfold post_pause. destruct (cancel_requested _ _); [apply cancelled_ends|].
  destruct (_ && _); [by left|apply post_delay_ends].
Qed.

Lemma pause_wait_ends i contact controls σ :
  ends t i contact σ (pause_wait t i contact controls σ).
Proof.
  unfold pause_wait. destruct (isPaused _); [|apply post_pause_ends].
  destruct (isCancelled _); [|by left].
  right; right. by exists true.
Qed.

Lemma loop_top_ends i σ :
  match t_contacts t !! i with
  | Some contact =>
      ends t i contact σ (loop_top t i σ)
  | None =>
      loop_top t i σ = (Finished, σ) ∧ jobControlRefs σ !! t_jobId t = None
      ∨ loop_top t i σ = (Finished, publish_completed t σ)
        ∧ is_Some (jobControlRefs σ !! t_jobId t)
  end.
Proof.
  unfold loop_top. destruct (t_contacts t !! i) as [contact|].
  - destruct (jobControlRefs σ !! t_jobId t) eqn:Hr.
    + destruct (isCancelled _); [apply cancelled_ends|apply pause_wait_ends].
    + right; left. split; [|done]. by apply after_loop_no_flags.
  - unfold after_loop. destruct (jobControlRefs σ !! t_jobId t) eqn:Hr.
    + right. by split.
    + left. by split.
Qed.

Lemma book_same m j j' : same_book j j' → book t m j → book t m j'.
Proof.
  intros (Hid & Ha & Hl & Hn & Hd & Ht & Hr & Hp & Hs)
         [Bid Ba Bl Bn Bd Bt Bb Be Bc Bp].
  split; try congruence.
  - intros Hc. destruct Hs as [Hs|[_ Hs]]; [|by destruct Hs].
    apply Bc. congruence.
  - rewrite Hp, Ht, Bp.
    destruct Hs as [->|[Hs1 Hs2]]; [done|].
    rewrite (decide_False (P:=Job.status j' = completed)) by done.
    by rewrite (decide_False (P:=Job.status j = completed)).
Qed.

Lemma same_book_status st j :
  Job.status j ≠ completed → st ≠ completed →
  same_book j (Job.with_status_progress st (Job.progress j) j).
Proof. intros Hj Hst. repeat split. by right. Qed.

Lemma same_book_refl j : same_book j j.
Proof. repeat split. by left. Qed.

(** From a job with [i] entries, a stretch inside iteration [i] leaves a
    job with [i] entries that is not [completed]. *)
Lemma ends_booked i contact σ p' σ' j :
  ends t i contact σ (p', σ') →
  t_contacts t !! i = Some contact →
  Obj.get (t_jobId t) (jobs σ) = Some j →
  book t i j → Job.status j ≠ completed →
  pc_ok t p' ∧ ∃ j', Obj.get (t_jobId t) (jobs σ') = Some j' ∧ booked t p' j'.
Proof.
  intros [(Hs & Hi & Hc)|[[[= -> ->] _]|[wp [= -> ->]]]] Hcontact Hj Hb Hnc.
  - simpl in *. subst σ'. split.
    + intros i' c'. rewrite Hi, Hc. by intros [= <-] [= <-].
    + exists j. split; [done|]. exists i. split; [done|]. rewrite Hi. by intros ? [= <-].
  - split; [by intros ? ? [=]|]. exists j. split; [done|]. by exists i.
  - split; [by intros ? ? [=]|].
    exists (Job.with_status_progress cancelled (Job.progress j) j).
    split; [by apply publish_cancelled_get|]. exists i. split; [|done].
    apply (book_same i j); [|done]. by apply same_book_status.
Qed.

(** From a job with all its entries, the end of the loop leaves a job with
    all its entries. *)
Lemma after_loop_booked σ p' σ' j :
  (p', σ') = (Finished, σ) ∨ (p', σ') = (Finished, publish_completed t σ) →
  Obj.get (t_jobId t) (jobs σ) = Some j →
  book t (length (t_contacts t)) j →
  pc_ok t p' ∧ ∃ j', Obj.get (t_jobId t) (jobs σ') = Some j' ∧ booked t p' j'.
Proof.
  intros [[= -> ->]|[= -> ->]] Hj Hb; (split; [by intros ? ? [=]|]).
  - exists j. split; [done|]. by exists (length (t_contacts t)).
  - eexists. split; [by apply publish_completed_get|].
    exists (length (t_contacts t)). split; [|done].
    destruct (decide (Job.status j = completed)); [done|].
    destruct Hb as [Bid Ba Bl Bn Bd Bt Bb Be Bc Bp].
    by split.
Qed.

Lemma loop_top_booked i σ p' σ' j :
  loop_top t i σ = (p', σ') →
  Obj.get (t_jobId t) (jobs σ) = Some j →
  book t i j → Job.status j ≠ completed →
  pc_ok t p' ∧ ∃ j', Obj.get (t_jobId t) (jobs σ') = Some j' ∧ booked t p' j'.
Proof.
  intros Htop Hj Hb Hnc. pose proof (loop_top_ends i σ) as He.
  destruct (t_contacts t !! i) as [contact|] eqn:Hc.
  - rewrite Htop in He. by apply (ends_booked i contact σ p' σ' j).
  - assert (i = length (t_contacts t)) as Hi.
    { apply lookup_ge_None_1 in Hc. pose proof (book_bound t i j Hb). lia. }
    rewrite Hi in Hb. apply (after_loop_booked σ p' σ' j); [|done..].
    rewrite Htop in He. destruct He as [[He _]|[He _]]; [by left|by right].
Qed.

Lemma newJob_book : book t 0 (newJob t).
Proof. split; try done; simpl; lia. Qed.

Lemma entries_match_push i contact r rs :
  t_contacts t !! i = Some contact →
  ImportResult.index r = i + 1 → ImportResult.email r = email contact →
  entries_match (t_contacts t) i rs →
  entries_match (t_contacts t) (i + 1) (r :: rs).
Proof.
  intros Hc Hi He [Hix Hem]. split.
  - rewrite fmap_cons, Hix, Hi, Nat.add_1_r, seq_S, rev_app_distr. done.
  - rewrite fmap_cons, Hem, He, Nat.add_1_r.
    rewrite (take_S_r _ _ _ Hc), fmap_app, rev_app_distr. done.
Qed.

Lemma result_of_index_email i contact o :
  ImportResult.index (result_of i contact o) = i + 1
  ∧ ImportResult.email (result_of i contact o) = email contact.
Proof. unfold result_of. by destruct (attempt o). Qed.

(** Recording the answer for contact [i] turns a job with [i] entries into
    one with [i + 1]. *)
Lemma record_result_book i contact o j :
  t_contacts t !! i = Some contact →
  book t i j → Job.status j ≠ completed →
  book t (i + 1)
    (Job.with_results_progress (result_of i contact o :: Job.results j)
       (newProgress i j) j).
Proof.
  intros Hc Hb Hnc. destruct Hb as [Bid Ba Bl Bn Bd Bt Bb Be Bc Bp].
  destruct (result_of_index_email i contact o) as [Hi He].
  split; try done; simpl.
  - apply lookup_lt_Some in Hc. lia.
  - by apply (entries_match_push i contact).
  - rewrite decide_False by done. rewrite decide_False by lia. done.
Qed.
End Ends.

Section BookedResume.
Variable t : Task.
Implicit Types (σ : Store) (j : Job.t).

Lemma ends_pc_ok i contact σ p' σ' :
  ends t i contact σ (p', σ') → t_contacts t !! i = Some contact → pc_ok t p'.
Proof.
  intros [(Hs & Hi & Hc)|[[[= -> ->] _]|[wp [= -> ->]]]] Hcontact;
    [|by intros ? ? [=]..].
  simpl in *. intros i' c'. rewrite Hi, Hc. by intros [= <-] [= <-].
Qed.

Lemma ends_absent i contact σ p' σ' :
  ends t i contact σ (p', σ') →
  Obj.get (t_jobId t) (jobs σ) = None → Obj.get (t_jobId t) (jobs σ') = None.
Proof.
  intros [(Hs & _)|[[[= -> ->] _]|[wp [= -> ->]]]] Hn.
  - simpl in Hs. by subst.
  - done.
  - unfold publish_cancelled. cbn [jobs setRefs].
    by rewrite (updateJobStatus_get_None _ cancelled (toast _ σ)).
Qed.

Lemma loop_top_pc_ok i σ p' σ' : loop_top t i σ = (p', σ') → pc_ok t p'.
Proof.
  intros Htop. pose proof (loop_top_ends t i σ) as He.
  destruct (t_contacts t !! i) as [contact|] eqn:Hc.
  - rewrite Htop in He. by apply (ends_pc_ok i contact σ p' σ').
  - rewrite Htop in He. destruct He as [[[= -> _] _]|[[= -> _] _]]; by intros ? ? [=].
Qed.

Lemma loop_top_absent i σ p' σ' :
  loop_top t i σ = (p', σ') →
  Obj.get (t_jobId t) (jobs σ) = None → Obj.get (t_jobId t) (jobs σ') = None.
Proof.
  intros Htop Hn.
  destruct (loop_shape_frame t σ p' σ') as (_ & _ & _ & _ & _ & _ & _ & Hjobs).
  { rewrite <- Htop. apply loop_top_shape. }
  by rewrite (Hjobs Hn).
Qed.

(** Waking an invocation keeps its job's books in order. *)
Lemma resume_booked p ev σ p' σ' :
  awaited p ev = true →
  resume t p ev σ = (p', σ') →
  pc_ok t p →
  (p = AwaitYield → Obj.get (t_jobId t) (jobs σ) = None) →
  (∀ j, Obj.get (t_jobId t) (jobs σ) = Some j →
        booked t p j ∧ Job.status j ≠ completed) →
  pc_ok t p' ∧ ∀ j', Obj.get (t_jobId t) (jobs σ') = Some j' → booked t p' j'.
Proof.
  intros Haw Hres Hok Hy Hb.
  assert (∀ i contact σ0 j0,
            ends t i contact σ0 (p', σ') → t_contacts t !! i = Some contact →
            (∀ j, Obj.get (t_jobId t) (jobs σ0) = Some j →
                  book t i j ∧ Job.status j ≠ completed) →
            Obj.get (t_jobId t) (jobs σ') = Some j0 → booked t p' j0) as Hends.
  { intros i contact σ0 j0 He Hc Hbk Hj0.
    destruct (Obj.get (t_jobId t) (jobs σ0)) as [j|] eqn:Hj.
    - destruct (Hbk j eq_refl) as [Hbj Hnc].
      destruct (ends_booked t i contact σ0 p' σ' j He Hc Hj Hbj Hnc)
        as (_ & j' & Hj' & Hbooked). congruence.
    - rewrite (ends_absent i contact σ0 p' σ' He Hj) in Hj0. done. }
  assert (∀ i contact, pc_index p = Some i → pc_contact p = Some contact →
            ∀ j, Obj.get (t_jobId t) (jobs σ) = Some j →
                 book t i j ∧ Job.status j ≠ completed) as Hbook.
  { intros i contact Hi Hc j Hj. destruct (Hb j Hj) as [(m & Hbm & Hidx) Hnc].
    rewrite (Hidx i Hi) in Hbm. by split. }
  destruct p as [|i c l|i c|i c|], ev as [|o]; try done; cbn [resume] in Hres.
  - specialize (Hy eq_refl). unfold install in Hres.
    split; [by eapply loop_top_pc_ok|]. intros j' Hj'.
    destruct (loop_top_booked t 0 (installed t σ) p' σ' (newJob t) Hres)
      as (_ & j2 & Hj2 & Hb2); [apply installed_get|apply newJob_book|done|].
    congruence.
  - pose proof (pause_wait_ends t i c l σ) as He. rewrite Hres in He.
    pose proof (Hok i c eq_refl eq_refl) as Hc.
    split; [by eapply ends_pc_ok|]. intros j' Hj'.
    apply (Hends i c σ j' He Hc); [|done]. by apply (Hbook i c).
  - pose proof (post_delay_ends t i c σ) as He. rewrite Hres in He.
    pose proof (Hok i c eq_refl eq_refl) as Hc.
    split; [by eapply ends_pc_ok|]. intros j' Hj'.
    apply (Hends i c σ j' He Hc); [|done]. by apply (Hbook i c).
  - pose proof (Hok i c eq_refl eq_refl) as Hc.
    split; [by eapply loop_top_pc_ok|]. intros j' Hj'.
    destruct (Obj.get (t_jobId t) (jobs σ)) as [j|] eqn:Hj.
    + destruct (Hbook i c eq_refl eq_refl j eq_refl) as [Hbj Hnc].
      pose proof (record_result_get (t_jobId t) i c o σ j Hj) as Hjr.
      pose proof (record_result_book t i c o j Hc Hbj Hnc) as Hbr.
      rewrite Nat.add_1_r in Hbr.
      destruct (loop_top_booked t (S i) _ p' σ' _ Hres Hjr Hbr Hnc)
        as (_ & j2 & Hj2 & Hb2).
      congruence.
    + rewrite (record_result_absent _ _ _ _ _ Hj) in Hres.
      by rewrite (loop_top_absent (S i) σ p' σ' Hres Hj) in Hj'.
Qed.
End BookedResume.

Lemma Booked_init : Booked init.
Proof.
  split; [apply Inv_init|..].
  - intros t p H. by apply not_elem_of_nil in H.
  - intros t p j H. by apply not_elem_of_nil in H.
Qed.

(** The books after an invocation was woken, or started without a yield. *)
Lemma Booked_resumed s t p ev p' σ' ts' :
  Booked s →
  Inv (mkSystem σ' ts') →
  awaited p ev = true →
  resume t p ev (store s) = (p', σ') →
  pc_ok t p →
  (p = AwaitYield → Obj.get (t_jobId t) (jobs (store s)) = None) →
  (∀ j, Obj.get (t_jobId t) (jobs (store s)) = Some j →
        booked t p j ∧ ¬ terminal (Job.status j)) →
  (∀ t2 p2, (t2, p2) ∈ ts' →
     t2 = t ∧ p2 = p' ∨ (t2, p2) ∈ tasks s ∧ t_jobId t2 ≠ t_jobId t) →
  Booked (mkSystem σ' ts').
Proof.
  intros [HI Hpcs Hjobs] HI' Haw Hres Hok Hy Hb Hts.
  destruct (resume_booked t p ev (store s) p' σ' Haw Hres Hok Hy) as [Hok' Hb'].
  { intros j Hj. destruct (Hb j Hj) as [Hbj Hnt]. split; [done|].
    intros Hc. apply Hnt. by left. }
  destruct (resume_effect t p ev (store s) p' σ' Haw Hres Hy) as (Ha & _).
  { intros j Hj. by destruct (Hb j Hj). }
  split; cbn [store tasks]; [done|..].
  - intros t2 p2 Hin. destruct (Hts t2 p2 Hin) as [[-> ->]|[Hold _]]; [done|].
    by apply Hpcs.
  - intros t2 p2 j Hin Hj. destruct (Hts t2 p2 Hin) as [[-> ->]|[Hold Hne]].
    + by apply Hb'.
    + rewrite (proj1 (Ha _ Hne)) in Hj. by apply Hjobs.
Qed.

Lemma Booked_wake s n ev t p p' σ' :
  Booked s →
  tasks s !! n = Some (t, p) →
  awaited p ev = true →
  resume t p ev (store s) = (p', σ') →
  Booked (mkSystem σ' (<[n := (t, p')]> (tasks s))).
Proof.
  intros HB Hn Haw Hres. pose proof (booked_inv s HB) as HI.
  assert ((t, p) ∈ tasks s) as Hin by (by eapply list_elem_of_lookup_2).
  apply (Booked_resumed s t p ev p' σ'); try done.
  - by apply (Inv_wake s n ev t p p' σ').
  - by apply (booked_pcs s HB).
  - intros ->. by apply (inv_yield_unpublished s HI).
  - intros j Hj. split; [by apply (booked_jobs s HB)|].
    intros Hterm.
    pose proof (inv_terminal_finished s HI t p j Hin Hj Hterm) as ->.
    by destruct ev.
  - intros t2 p2 [[= -> ->]|(m & Hne & Hm)]%elem_of_insert_inv; [by left|].
    right. split; [by eapply list_elem_of_lookup_2|].
    intros Heq. apply Hne.
    apply (NoDup_lookup (used_ids s) m n (t_jobId t)).
    + apply (inv_ids_distinct s HI).
    + rewrite <- Heq. by apply (used_ids_lookup s m t2 p2).
    + by apply (used_ids_lookup s n t p).
Qed.

Lemma updateJobStatus_same_book k0 st σ k j' :
  st ≠ completed →
  (∀ j, Obj.get k0 (jobs σ) = Some j → Job.status j ≠ completed) →
  Obj.get k (jobs (updateJobStatus k0 st σ)) = Some j' →
  ∃ j, Obj.get k (jobs σ) = Some j ∧ same_book j j'.
Proof.
  intros Hst Hnc Hj'. destruct (decide (k0 = k)) as [<-|Hne].
  - destruct (Obj.get k0 (jobs σ)) as [j|] eqn:Hj.
    + exists j. split; [done|].
      rewrite (updateJobStatus_get _ _ _ _ Hj) in Hj'. injection Hj' as <-.
      case_decide; [apply same_book_refl|].
      case_decide; [done|]. apply same_book_status; [by apply Hnc|done].
    + by rewrite (updateJobStatus_get_None _ _ _ Hj), Hj in Hj'.
  - rewrite (updateJobStatus_get_ne _ _ _ _ Hne) in Hj'.
    exists j'. split; [done|apply same_book_refl].
Qed.

Lemma tick_same_book σ k j' :
  Obj.get k (jobs (tick σ)) = Some j' →
  ∃ j, Obj.get k (jobs σ) = Some j ∧ same_book j j'.
Proof.
  cbn [tick jobs setJobs]. rewrite tick_jobs_get.
  destruct (Obj.get k (jobs σ)) as [j|]; [|done]. intros [= <-].
  exists j. split; [done|]. unfold tick_job.
  case_decide; [|apply same_book_refl]. repeat split. by left.
Qed.

(** The commands and the ticker leave every job's books as they are. *)
Lemma command_same_book s c s' k j' :
  Inv s →
  match c with CmdStart _ _ _ _ _ _ _ | Wake _ _ => False | _ => True end →
  sys_step c s = Some s' →
  tasks s' = tasks s
  ∧ (Obj.get k (jobs (store s')) = Some j' →
     ∃ j, Obj.get k (jobs (store s)) = Some j ∧ same_book j j').
Proof.
  intros HI Hc.
  assert (∀ k0 j, is_Some (jobControlRefs (store s) !! k0) →
            Obj.get k0 (jobs (store s)) = Some j → Job.status j ≠ completed) as Hlive.
  { intros k0 j [l Hl] Hj Hcomp.
    rewrite (inv_terminal_no_flags s HI k0 j Hj) in Hl; [done|by left]. }
  destruct c as [| k0 | k0 | k0 | |]; try done; simpl; intros [= <-];
    (split; [done|]); cbn [store].
  - unfold pauseJob. destruct (jobControlRefs (store s) !! k0) as [l|] eqn:Hr.
    + intros Hj'.
      apply (updateJobStatus_same_book k0 paused
               (setHeap (alter (set_isPaused true) l) (store s))); [done| |done].
      intros j. apply Hlive. by rewrite Hr.
    + intros Hj'. exists j'. split; [done|apply same_book_refl].
  - unfold resumeJob. destruct (jobControlRefs (store s) !! k0) as [l|] eqn:Hr.
    + intros Hj'.
      apply (updateJobStatus_same_book k0 running
               (setHeap (alter (set_isPaused false) l) (store s))); [done| |done].
      intros j. apply Hlive. by rewrite Hr.
    + intros Hj'. exists j'. split; [done|apply same_book_refl].
  - rewrite cancelJob_jobs. intros Hj'. exists j'. split; [done|apply same_book_refl].
  - apply tick_same_book.
Qed.

Lemma Booked_command s c s' :
  Booked s →
  match c with CmdStart _ _ _ _ _ _ _ | Wake _ _ => False | _ => True end →
  sys_step c s = Some s' → Booked s'.
Proof.
  intros [HI Hpcs Hjobs] Hc Hstep.
  pose proof (Inv_step c s s' HI Hstep) as HI'.
  split; [done|..].
  - intros t p. rewrite (proj1 (command_same_book s c s' EmptyString
                                   (newJob t) HI Hc Hstep)).
    apply Hpcs.
  - intros t p j'.
    destruct (command_same_book s c s' (t_jobId t) j' HI Hc Hstep) as [-> Hsame].
    intros Hin Hj'. destruct (Hsame Hj') as (j & Hj & Hsb).
    destruct (Hjobs t p j Hin Hj) as (m & Hb & Hidx).
    exists m. split; [|done]. by apply (book_same t m j).
Qed.

Lemma Booked_start s accounts uuid a li ln d dl r σ' :
  Booked s →
  uuid ≠ EmptyString → uuid ∉ used_ids s →
  startJob accounts uuid a li ln d dl (store s) = (r, σ') →
  Booked (mkSystem σ' (tasks s ++ option_list r)).
Proof.
  intros HB Hne Hfresh Hs. pose proof HB as [HI Hpcs Hjobs].
  pose proof (Inv_start s accounts uuid a li ln d dl r σ' HI Hne Hfresh Hs) as HI'.
  destruct (Inv_fresh_id s uuid HI Hfresh) as [Hnj Hnr].
  destruct (startJob_cases accounts uuid a li ln d dl (store s))
    as [[n Hc]|[(t & p & σ0 & Hc & Hid & _ & _ & Hres & _)
               |(t & e & Hc & Hid & _ & _ & He & Hen)]];
    rewrite Hc in Hs; injection Hs as <- <-;
    unfold option_list in *; cbn [option_rect] in *.
  - rewrite app_nil_r in *. by split.
  - rewrite <- Hid in Hnj.
    apply (Booked_resumed s t AwaitYield Timer p σ0); try done.
    + intros j. by rewrite Hnj.
    + intros t2 p2 [Hin|[= -> ->]%list_elem_of_singleton]%elem_of_app; [|by left].
      right. split; [done|]. rewrite Hid. intros Heq. apply Hfresh.
      rewrite <- Heq. by eapply used_ids_mem.
  - split; cbn [store tasks]; [done|..].
    + intros t2 p2 [Hin|[= -> ->]%list_elem_of_singleton]%elem_of_app;
        [by apply Hpcs|by intros ? ? [=]].
    + cbn [removeJob jobs setJobs setRefs].
      intros t2 p2 j [Hin|[= -> ->]%list_elem_of_singleton]%elem_of_app
             [Hj _]%get_del_Some.
      * by apply Hjobs.
      * rewrite Hid in Hj. congruence.
Qed.

Lemma Booked_step c s s' : Booked s → sys_step c s = Some s' → Booked s'.
Proof.
  intros HB.
  destruct c as [accounts uuid a li ln d dl|k|k|k| |n ev];
    try (by apply Booked_command).
  - simpl. case_decide as Hu; [done|].
    destruct (startJob accounts uuid a li ln d dl (store s)) as [r σ'] eqn:Hs.
    intros [= <-]. apply (Booked_start s accounts uuid a li ln d dl r σ'); try done.
    + intros ->. apply Hu. by left.
    + intros H. apply Hu. by right.
  - simpl. destruct (tasks s !! n) as [[t p]|] eqn:Hn; [|done].
    destruct (awaited p ev) eqn:Haw; [|done].
    destruct (resume t p ev (store s)) as [p' σ'] eqn:Hres.
    intros [= <-]. by apply (Booked_wake s n ev t p p' σ').
Qed.

Lemma Booked_exec cs : ∀ s s', Booked s → exec cs s = Some s' → Booked s'.
Proof.
  induction cs as [|c cs IH]; intros s s' HB; simpl.
  - by intros [= <-].
  - destruct (sys_step c s) as [s1|] eqn:Hc; [|done].
    apply IH. by apply (Booked_step c s).
Qed.

Lemma Booked_reachable s : reachable s → Booked s.
Proof. intros [cs Hcs]. by apply (Booked_exec cs init s Booked_init). Qed.

(** Every published job belongs to an invocation. *)
Lemma job_has_task s k j :
  Inv s → Obj.get k (jobs (store s)) = Some j →
  ∃ t p, (t, p) ∈ tasks s ∧ t_jobId t = k.
Proof.
  intros HI Hj.
  assert (k ∈ used_ids s) as Hk.
  { apply (inv_jobs_owned s HI). apply dec_stable.
    rewrite <- ObjFacts.get_None_keys. congruence. }
  unfold used_ids in Hk. apply list_elem_of_fmap in Hk as ([t p] & -> & Hin).
  by exists t, p.
Qed.

Lemma entries_match_length contacts m rs :
  entries_match contacts m rs → length rs = m.
Proof.
  intros [Hix _]. rewrite <- (length_fmap ImportResult.index), Hix.
  by rewrite length_rev, length_seq.
Qed.

(** X1. Whatever the interleaving of commands, ticks, answers and timers, the
    results of a published job are never lost, duplicated or reordered: they
    carry the indices m, m-1, ..., 1 from the head of the list, for some m no
    larger than [totalContacts]; a [completed] job has them all. *)
Theorem results_never_lost_or_duplicated (s : System) (k : string) (j : Job.t) :
  reachable s →
  Obj.get k (jobs (store s)) = Some j →
  ImportResult.index <$> Job.results j = rev (seq 1 (length (Job.results j)))
  ∧ length (Job.results j) ≤ Job.totalContacts j
  ∧ NoDup (ImportResult.index <$> Job.results j)
  ∧ (Job.status j = completed → length (Job.results j) = Job.totalContacts j).
Proof.
  intros Hreach Hj. pose proof (Booked_reachable s Hreach) as [HI _ Hjobs].
  destruct (job_has_task s k j HI Hj) as (t & p & Hin & <-).
  destruct (Hjobs t p j Hin Hj) as (m & [Bid Ba Bl Bn Bd Bt Bb Be Bc Bp] & _).
  pose proof (entries_match_length _ _ _ Be) as Hlen. destruct Be as [Hix _].
  rewrite Hlen, Bt. repeat split; try done.
  rewrite Hix. apply NoDup_ListNoDup, NoDup_rev, seq_NoDup.
Qed.

(** X2. Every entry is attributed to the right contact: in any reachable state
    the emails of a job's results are, newest first, the emails of the first
    contacts of the batch its invocation parsed, and the job's [id],
    [accountId], [listId], [listName], [delay] and [totalContacts] are those
    the invocation was started with. *)
Theorem results_follow_the_batch (s : System) (k : string) (j : Job.t) :
  reachable s →
  Obj.get k (jobs (store s)) = Some j →
  ∃ t p,
    (t, p) ∈ tasks s ∧ t_jobId t = k
    ∧ ImportResult.email <$> Job.results j
      = rev (email <$> take (length (Job.results j)) (t_contacts t))
    ∧ Job.id j = k
    ∧ Job.accountId j = t_accountId t
    ∧ Job.listId j = t_listId t
    ∧ Job.listName j = t_listName t
    ∧ Job.delay j = t_delay t
    ∧ Job.totalContacts j = length (t_contacts t)
    ∧ (∀ i, pc_index p = Some i → length (Job.results j) = i).
Proof.
  intros Hreach Hj. pose proof (Booked_reachable s Hreach) as [HI _ Hjobs].
  destruct (job_has_task s k j HI Hj) as (t & p & Hin & <-).
  destruct (Hjobs t p j Hin Hj) as (m & [Bid Ba Bl Bn Bd Bt Bb Be Bc Bp] & Hidx).
  pose proof (entries_match_length _ _ _ Be) as Hlen. destruct Be as [_ Hem].
  exists t, p. rewrite Hlen. by repeat split.
Qed.

Lemma task_persists c s s' t p :
  sys_step c s = Some s' → (t, p) ∈ tasks s → ∃ p', (t, p') ∈ tasks s'.
Proof.
  intros Hstep Hin. revert Hstep.
  destruct c as [accounts uuid a li ln d dl|k|k|k| |n ev]; simpl;
    try (intros [= <-]; by exists p).
  - case_decide; [done|].
    destruct (startJob accounts uuid a li ln d dl (store s)) as [r σ'].
    intros [= <-]. exists p. cbn [tasks]. apply elem_of_app. by left.
  - destruct (tasks s !! n) as [[t2 p2]|] eqn:Hn; [|done].
    destruct (awaited p2 ev); [|done].
    destruct (resume t2 p2 ev (store s)) as [p' σ']. intros [= <-]. cbn [tasks].
    apply list_elem_of_lookup in Hin as [m Hm].
    destruct (decide (n = m)) as [->|Hne].
    + rewrite Hn in Hm. injection Hm as -> ->. exists p'.
      eapply list_elem_of_lookup_2. apply list_lookup_insert_eq.
      by apply lookup_lt_Some in Hn.
    + exists p. eapply list_elem_of_lookup_2. by rewrite list_lookup_insert_ne.
Qed.

(** X3. No step of the engine ever changes the [id], [accountId], [listId],
    [listName], [delay] or [totalContacts] of a job that stays published. *)
Theorem job_fields_never_change (s s' : System) (c : command) (k : string)
    (j j' : Job.t) :
  reachable s →
  sys_step c s = Some s' →
  Obj.get k (jobs (store s)) = Some j →
  Obj.get k (jobs (store s')) = Some j' →
  Job.id j' = Job.id j
  ∧ Job.accountId j' = Job.accountId j
  ∧ Job.listId j' = Job.listId j
  ∧ Job.listName j' = Job.listName j
  ∧ Job.delay j' = Job.delay j
  ∧ Job.totalContacts j' = Job.totalContacts j.
Proof.
  intros Hreach Hstep Hj Hj'.
  pose proof (Booked_reachable s Hreach) as HB.
  pose proof (Booked_step c s s' HB Hstep) as [HI' _ Hjobs'].
  destruct HB as [HI _ Hjobs].
  destruct (job_has_task s k j HI Hj) as (t & p & Hin & <-).
  destruct (task_persists c s s' t p Hstep Hin) as [p' Hin'].
  destruct (Hjobs t p j Hin Hj) as (m & [Bid Ba Bl Bn Bd Bt _ _ _ _] & _).
  destruct (Hjobs' t p' j' Hin' Hj') as (m' & [Bid' Ba' Bl' Bn' Bd' Bt' _ _ _ _] & _).
  repeat split; congruence.
Qed.




(** ** An undisturbed run, whatever the delay and the answers *)

Lemma result_of_status i contact o :
  ImportResult.status (result_of i contact o) = status_for o.
Proof.
  unfold status_for. destruct (decide (succeeded o)) as [Hs|Hs].
  - by destruct (result_of_succeeded i contact o Hs).
  - by rewrite (result_of_failed i contact o Hs).
Qed.

Lemma run_app t evs1 evs2 st : run t (evs1 ++ evs2) st = run t evs2 (run t evs1 st).
Proof. unfold run. by rewrite foldl_app. Qed.

Section Undisturbed.
Variable t : Task.
Implicit Types (σ : Store) (j : Job.t).

Lemma loop_top_undisturbed i contact σ :
  t_contacts t !! i = Some contact → quiet (t_jobId t) σ →
  loop_top t i σ = (pc_before (t_delay t) i contact, σ).
Proof.
  intros Hc (l & Hr & Hl). unfold loop_top. rewrite Hc, Hr.
  unfold deref. rewrite Hl. simpl.
  unfold pause_wait, deref. rewrite Hl. simpl.
  unfold post_pause, pc_before, cancel_requested, deref. rewrite Hr, Hl. simpl.
  destruct (bool_decide (0 < i) && bool_decide (0 < t_delay t)%Z); [done|].
  unfold post_delay, cancel_requested, deref. by rewrite Hr, Hl.
Qed.

Lemma post_delay_undisturbed i contact σ :
  quiet (t_jobId t) σ → post_delay t i contact σ = (AwaitFetch i contact, σ).
Proof.
  intros (l & Hr & Hl). unfold post_delay, cancel_requested, deref.
  by rewrite Hr, Hl.
Qed.

(** From the wait before contact [i] to the answer for it. *)
Lemma run_to_fetch i contact o evs σ :
  quiet (t_jobId t) σ →
  run t ((if bool_decide (0 < i) && bool_decide (0 < t_delay t)%Z
          then [Timer] else []) ++ Reply o :: evs)
    (pc_before (t_delay t) i contact, σ)
  = run t evs (resume t (AwaitFetch i contact) (Reply o) σ).
Proof.
  intros Hq. unfold pc_before.
  destruct (bool_decide (0 < i) && bool_decide (0 < t_delay t)%Z).
  - unfold run. cbn [foldl app fst snd resume].
    by rewrite (post_delay_undisturbed i contact σ Hq).
  - done.
Qed.

Lemma run_answers os : ∀ i contact σ j,
  t_contacts t !! i = Some contact →
  quiet (t_jobId t) σ →
  Obj.get (t_jobId t) (jobs σ) = Some j →
  Job.status j ≠ completed →
  i + length os = length (t_contacts t) →
  ∃ σ' j',
    run t (answers (t_delay t) i os) (pc_before (t_delay t) i contact, σ)
    = (Finished, σ')
    ∧ jobControlRefs σ' !! t_jobId t = None
    ∧ Obj.get (t_jobId t) (jobs σ') = Some j'
    ∧ Job.status j' = completed
    ∧ Job.progress j' = 100%Q
    ∧ Job.results j' = rev (entries i (drop i (t_contacts t)) os) ++ Job.results j
    ∧ Job.totalContacts j' = Job.totalContacts j.
Proof.
  induction os as [|o os IH]; intros i contact σ j Hc Hq Hj Hnc Hlen.
  - apply lookup_lt_Some in Hc. simpl in Hlen. lia.
  - cbn [answers]. rewrite (run_to_fetch i contact o _ σ Hq). cbn [resume].
    set (σr := record_result (t_jobId t) i contact o σ).
    pose proof (record_result_get (t_jobId t) i contact o σ j Hj) as Hjr.
    fold σr in Hjr.
    assert (quiet (t_jobId t) σr) as Hqr.
    { destruct Hq as (l & Hr & Hl). exists l. subst σr.
      by rewrite record_result_refs, record_result_heap. }
    rewrite (drop_S _ _ _ Hc). cbn [entries rev].
    destruct (t_contacts t !! S i) as [next|] eqn:Hn.
    + rewrite (loop_top_undisturbed (S i) next σr Hn Hqr).
      destruct (IH (S i) next σr _ Hn Hqr Hjr Hnc) as (σ' & j' & Hrun & Hrest).
      { simpl in Hlen. lia. }
      exists σ', j'. split; [done|].
      destruct Hrest as (? & ? & ? & ? & Hres & ?). repeat split; try done.
      rewrite Hres. cbn [Job.results Job.with_results_progress].
      by rewrite <- app_assoc.
    + destruct Hqr as (l & Hr & Hl).
      rewrite (loop_top_end t (S i) σr l Hn Hr).
      assert (os = []) as ->.
      { apply lookup_ge_None_1 in Hn. simpl in Hlen. destruct os; [done|].
        simpl in Hlen. lia. }
      unfold run. cbn [answers foldl].
      eexists _, _. split; [done|].
      split; [cbn [jobControlRefs setRefs]; apply lookup_delete_eq|].
      split.
      { cbn [jobs setRefs].
        apply (updateJobStatus_get _ completed (toast _ σr)). exact Hjr. }
      rewrite decide_False by done. rewrite decide_True by done.
      repeat split.
      cbn [Job.results Job.with_status_progress Job.with_results_progress].
      destruct (drop (S i) (t_contacts t)); done.
Qed.
End Undisturbed.

Lemma entries_status i contacts os :
  length os = length contacts →
  ImportResult.status <$> entries i contacts os = status_for <$> os.
Proof.
  revert i os. induction contacts as [|c cs IH]; intros i [|o os]; try done.
  intros [= Hlen]. cbn [entries]. rewrite !fmap_cons, result_of_status.
  by rewrite (IH (S i) os Hlen).
Qed.

Lemma entries_length i contacts os :
  length os = length contacts → length (entries i contacts os) = length contacts.
Proof.
  revert i os. induction contacts as [|c cs IH]; intros i [|o os]; try done.
  intros [= Hlen]. cbn [entries length]. by rewrite (IH (S i) os Hlen).
Qed.

(** X5. An invocation that nothing disturbs runs to completion whatever the
    delay and whatever the provider answers: woken by the delay timer before
    every contact but the first (when the delay is positive) and by one answer
    per contact, it ends with the job [completed] at progress 100, without
    flags, holding exactly one entry per parsed contact, newest first, each
    [success] or [failed] according to its own answer. *)
Theorem undisturbed_run_records_every_answer
    (accounts : list Account) (uuid accountId listId listName importData : string)
    (delay : Z) (σ σ0 : Store) (t : Task) (p : pc) (os : list Outcome) :
  startJob accounts uuid accountId listId listName importData delay σ
  = (Some (t, p), σ0) →
  length os = length (parseContacts importData) →
  ∃ σ' j,
    run t (undisturbed_events p delay os) (p, σ0) = (Finished, σ')
    ∧ Obj.get uuid (jobs σ') = Some j
    ∧ jobControlRefs σ' !! uuid = None
    ∧ Job.status j = completed
    ∧ Job.progress j = 100%Q
    ∧ Job.totalContacts j = length (parseContacts importData)
    ∧ Job.results j = rev (entries 0 (parseContacts importData) os)
    ∧ ImportResult.status <$> Job.results j = rev (status_for <$> os).
Proof.
  intros Hstart Hlen.
  apply startJob_inv in Hstart as (account & _ & Hne & Ht & Hcase).
  assert (t_contacts t = parseContacts importData) as Hcs by (by subst t).
  assert (t_jobId t = uuid) as Hid by (by subst t).
  assert (t_delay t = delay) as Hd by (by subst t).
  destruct (parseContacts importData) as [|c0 cs] eqn:Hcontacts; [done|].
  assert (t_contacts t !! 0 = Some c0) as Hc0 by (by rewrite Hcs).
  assert (∃ σx, run t (undisturbed_events p delay os) (p, σ0)
                = run t (answers delay 0 os) (install t σx)) as [σx Hrun].
  { unfold undisturbed_events.
    destruct Hcase as [[Hi _]|(e & _ & _ & -> & ->)].
    - exists σ. rewrite <- Hi. rewrite (install_eq t σ c0 Hc0) in Hi.
      by injection Hi as -> ->.
    - by eexists. }
  rewrite (install_eq t σx c0 Hc0) in Hrun.
  destruct (run_answers t os 0 c0 (installed t σx) (newJob t)) as (σ' & j & Hr & Hrest);
    try done.
  { apply installed_quiet. }
  { apply installed_get. }
  { rewrite Hcs. simpl. by rewrite Hlen. }
  rewrite Hd in Hr. unfold pc_before in Hr. simpl in Hr.
  destruct Hrest as (Hrefs & Hj & Hst & Hpr & Hres & Htot).
  rewrite Hid in *. rewrite Hcs in Hres. simpl in Hres. rewrite app_nil_r in Hres.
  exists σ', j. rewrite Hrun, Hr. repeat split; try done.
  - rewrite Htot. simpl. by rewrite Hcs.
  - rewrite Hres, <- (entries_status 0 (c0 :: cs) os Hlen).
    unfold fmap. by rewrite map_rev.
Qed.

(** ** The last request *)

Lemma pauseJob_Some jobId σ l :
  jobControlRefs σ !! jobId = Some l →
  pauseJob jobId σ
  = toast (ToastJobPaused (listName_of jobId σ))
      (updateJobStatus jobId paused (setHeap (alter (set_isPaused true) l) σ)).
Proof. intros H. unfold pauseJob. by rewrite H. Qed.

Lemma resumeJob_Some jobId σ l :
  jobControlRefs σ !! jobId = Some l →
  resumeJob jobId σ
  = toast (ToastJobResumed (listName_of jobId σ))
      (updateJobStatus jobId running (setHeap (alter (set_isPaused false) l) σ)).
Proof. intros H. unfold resumeJob. by rewrite H. Qed.

Lemma pauseJob_refs jobId σ : jobControlRefs (pauseJob jobId σ) = jobControlRefs σ.
Proof. unfold pauseJob. by destruct (jobControlRefs σ !! jobId). Qed.

Lemma resumeJob_refs jobId σ : jobControlRefs (resumeJob jobId σ) = jobControlRefs σ.
Proof. unfold resumeJob. by destruct (jobControlRefs σ !! jobId). Qed.

Lemma last_answer_completes t i contact o σ l j :
  length (t_contacts t) = S i →
  jobControlRefs σ !! t_jobId t = Some l →
  Obj.get (t_jobId t) (jobs σ) = Some j →
  Job.status j ≠ completed →
  completes_with t i contact o j σ.
Proof.
  intros Hlen Hr Hj Hnc. unfold completes_with. cbn [resume].
  rewrite (loop_top_end t (S i) _ l).
  - eexists _, _. split; [done|].
    split.
    { cbn [jobs setRefs].
      apply (updateJobStatus_get _ completed (toast _ _)). cbn [jobs toast].
      by apply record_result_get. }
    rewrite decide_False by done. rewrite decide_True by done.
    repeat split.
    + apply lookup_delete_eq.
    + unfold updateJobStatus, setJobs, setRefs, toast. cbn [toasts].
      apply last_snoc.
  - apply lookup_ge_None_2. lia.
  - by rewrite record_result_refs.
Qed.

(** X6. A cancellation or a pause requested while the request for the last
    contact is in flight comes too late: when the answer arrives the loop
    test fails before any checkpoint is reached, and the completion step only
    asks whether the flag entry is there. The entry for the contact is
    pushed and the job ends [completed] at progress 100 with the completion
    notice, whether it was cancelled, paused, or paused and then cancelled. *)
Theorem request_during_last_submission_comes_too_late
    (t : Task) (i : nat) (contact : Contact) (o : Outcome) (σ : Store)
    (l : loc) (j : Job.t) :
  length (t_contacts t) = S i →
  jobControlRefs σ !! t_jobId t = Some l →
  Obj.get (t_jobId t) (jobs σ) = Some j →
  Job.status j ≠ completed →
  completes_with t i contact o j (cancelJob (t_jobId t) σ)
  ∧ completes_with t i contact o j (pauseJob (t_jobId t) σ)
  ∧ completes_with t i contact o j (cancelJob (t_jobId t) (pauseJob (t_jobId t) σ)).
Proof.
  intros Hlen Hr Hj Hnc.
  assert (∃ jp, Obj.get (t_jobId t) (jobs (pauseJob (t_jobId t) σ)) = Some jp
                ∧ Job.results jp = Job.results j ∧ Job.status jp ≠ completed)
    as (jp & Hjp & Hres & Hncp).
  { rewrite (pauseJob_Some _ _ _ Hr). cbn [jobs toast].
    eexists. split.
    - apply (updateJobStatus_get _ paused (setHeap _ σ)). exact Hj.
    - destruct (decide (Job.status j = paused)) as [Hp|Hp]; [by rewrite Hp|done]. }
  split; [|split].
  - apply (last_answer_completes t i contact o _ l j); try done.
    + by rewrite cancelJob_refs.
    + by rewrite cancelJob_jobs.
  - unfold completes_with. rewrite <- Hres.
    apply (last_answer_completes t i contact o _ l jp); try done.
    by rewrite pauseJob_refs.
  - unfold completes_with. rewrite <- Hres.
    apply (last_answer_completes t i contact o _ l jp); try done.
    + by rewrite cancelJob_refs, pauseJob_refs.
    + by rewrite cancelJob_jobs.
Qed.

(** ** Commands that find no flags *)

(** X7. A pause, resume or cancel command addressed to a job that is
    [completed] or [cancelled], or to an id no job was ever started under,
    changes nothing at all: not the jobs, not the flags, and no notice is
    shown. *)
Theorem commands_on_finished_or_unknown_job_do_nothing (s : System) (k : string) :
  reachable s →
  (∃ j, Obj.get k (jobs (store s)) = Some j ∧ terminal (Job.status j))
  ∨ k ∉ used_ids s →
  sys_step (CmdPause k) s = Some s
  ∧ sys_step (CmdResume k) s = Some s
  ∧ sys_step (CmdCancel k) s = Some s.
Proof.
  intros Hreach Hk. pose proof (Inv_reachable s Hreach) as HI.
  assert (jobControlRefs (store s) !! k = None) as Hr.
  { destruct Hk as [(j & Hj & Ht)|Hk].
    - by apply (inv_terminal_no_flags s HI k j).
    - by apply (Inv_fresh_id s k HI Hk). }
  cbn [sys_step]. unfold pauseJob, resumeJob, cancelJob. rewrite Hr.
  by destruct s.
Qed.

(** ** What [startJob] refuses *)

Lemma find_account_None accounts accountId :
  find_account accounts accountId = None
  ↔ ∀ acc, acc ∈ accounts → acc_id acc ≠ accountId.
Proof.
  unfold find_account. induction accounts as [|a accounts IH]; simpl.
  - split; [|done]. by intros _ acc ?%not_elem_of_nil.
  - case_bool_decide as Ha.
    + split; [done|]. intros Hall. destruct (Hall a); [left|done].
    + rewrite IH. split.
      * intros Hall acc [->|Hin]%elem_of_cons; [done|by apply Hall].
      * intros Hall acc Hin. apply Hall. by right.
Qed.

Lemma find_account_Some accounts accountId account :
  find_account accounts accountId = Some account →
  account ∈ accounts ∧ acc_id account = accountId.
Proof.
  unfold find_account. induction accounts as [|a accounts IH]; simpl; [done|].
  case_bool_decide as Ha.
  - intros [= <-]. split; [left|done].
  - intros [Hin Hid]%IH. split; [by right|done].
Qed.

(** X8. [startJob] creates nothing exactly when no account has the given id or
    the input holds no valid contact. It then leaves the jobs, the flags and
    the control objects as they were and shows one notice: that the account
    was not found, even if the input is empty as well, and otherwise that
    there are no valid contacts. When it does go ahead, the invocation holds
    an account of the list with the given id, the parsed contacts and the
    fresh job id. *)
Theorem startJob_refuses_iff
    (accounts : list Account) (uuid accountId listId listName importData : string)
    (delay : Z) (σ : Store) :
  (fst (startJob accounts uuid accountId listId listName importData delay σ) = None
   ↔ (∀ acc, acc ∈ accounts → acc_id acc ≠ accountId)
     ∨ parseContacts importData = [])
  ∧ (fst (startJob accounts uuid accountId listId listName importData delay σ) = None →
     snd (startJob accounts uuid accountId listId listName importData delay σ)
     = toast (match find_account accounts accountId with
              | None => ToastAccountNotFound
              | Some _ => ToastNoValidContacts
              end) σ)
  ∧ (∀ t p,
       fst (startJob accounts uuid accountId listId listName importData delay σ)
       = Some (t, p) →
       t_account t ∈ accounts ∧ acc_id (t_account t) = accountId
       ∧ t_accountId t = accountId ∧ t_listId t = listId ∧ t_listName t = listName
       ∧ t_contacts t = parseContacts importData ∧ t_contacts t ≠ []
       ∧ t_delay t = delay ∧ t_jobId t = uuid).
Proof.
  rewrite <- find_account_None.
  destruct (startJob accounts uuid accountId listId listName importData delay σ)
    as [[[t0 p0]|] σ0] eqn:Hs; cbn [fst snd].
  - apply startJob_inv in Hs as (account & Hacc & Hne & Ht & _).
    split; [|split]; [| done |].
    + split; [done|]. intros [Hn|Hn]; congruence.
    + intros t p [= <- <-]. apply find_account_Some in Hacc as [Hin Hid].
      subst t0. by repeat split.
  - revert Hs. unfold startJob.
    destruct (find_account accounts accountId) as [account|] eqn:Hacc.
    + case_bool_decide as Hlen.
      * intros [= <-]. split; [|split]; [| done | done].
        split; [|done]. intros _. right. by apply length_zero_iff_nil.
      * destruct (existing_job_id accountId σ) as [e|];
          [destruct (Str.is_empty e)|]; try done;
          by destruct (install _ σ).
    + intros [= <-]. split; [|split]; [| done | done].
      split; [|done]. intros _. by left.
Qed.

(** ** Pausing and resuming *)

Lemma set_set {A} k (v w : A) o : Obj.set k v (Obj.set k w o) = Obj.set k v o.
Proof.
  induction o as [|[k0 v0] o IH]; simpl.
  - by rewrite decide_True.
  - destruct (decide (k0 = k)) as [->|Hne]; simpl.
    + by rewrite decide_True.
    + rewrite decide_False by done. by rewrite IH.
Qed.

(** X9. Pausing a running job and resuming it right away brings the published
    jobs, the flags and the control objects back to what they were; two
    notices are all that is left of it. *)
Theorem pause_then_resume_restores
    (σ : Store) (jobId : string) (l : loc) (c : Controls) (j : Job.t) :
  jobControlRefs σ !! jobId = Some l →
  heap σ !! l = Some c →
  isPaused c = false →
  Obj.get jobId (jobs σ) = Some j →
  Job.status j = running →
  jobs (resumeJob jobId (pauseJob jobId σ)) = jobs σ
  ∧ jobControlRefs (resumeJob jobId (pauseJob jobId σ)) = jobControlRefs σ
  ∧ heap (resumeJob jobId (pauseJob jobId σ)) = heap σ
  ∧ toasts (resumeJob jobId (pauseJob jobId σ))
    = toasts σ ++ [ToastJobPaused (Some (Job.listName j));
                   ToastJobResumed (Some (Job.listName j))].
Proof.
  intros Hr Hl Hp Hj Hst.
  rewrite (resumeJob_Some jobId (pauseJob jobId σ) l) by (by rewrite pauseJob_refs).
  rewrite (pauseJob_Some jobId σ l Hr).
  unfold listName_of, updateJobStatus, toast, setJobs, setHeap.
  cbn [jobs jobControlRefs heap toasts]. rewrite Hj.
  rewrite (decide_True (P:=Job.status j ≠ paused)) by (by rewrite Hst).
  rewrite ObjFacts.get_set_eq. cbn [Job.status Job.with_status_progress].
  rewrite (decide_True (P:=paused ≠ running)) by done.
  repeat split.
  - rewrite set_set. apply ObjFacts.set_values_id. rewrite Hj. f_equal.
    destruct j. simpl in *. by subst.
  - apply list_eq. intros n. destruct (decide (l = n)) as [<-|Hne].
    + rewrite !list_lookup_alter_eq, Hl. simpl. f_equal.
      destruct c. simpl in *. by subst.
    + by rewrite !list_lookup_alter_ne.
  - cbn [fmap option_fmap option_map Job.listName]. by rewrite <- app_assoc.
Qed.

(** X10. While a job is paused and not cancelled its invocation stays in the
    pause wait: the loop enters the wait at the top of the next iteration,
    every poll finds the job still paused and changes nothing, and no request
    is sent. Once [resumeJob] has run, the next poll leaves the wait and goes
    on to the delay, or to the request, for the same contact. *)
Theorem paused_job_waits_until_resumed
    (t : Task) (i : nat) (contact : Contact) (σ : Store) (l : loc) (n : nat) :
  t_contacts t !! i = Some contact →
  jobControlRefs σ !! t_jobId t = Some l →
  heap σ !! l = Some (mkControls true false) →
  loop_top t i σ = (AwaitPause i contact l, σ)
  ∧ run t (replicate n Timer) (AwaitPause i contact l, σ) = (AwaitPause i contact l, σ)
  ∧ run t [Timer] (AwaitPause i contact l, resumeJob (t_jobId t) σ)
    = (pc_before (t_delay t) i contact, resumeJob (t_jobId t) σ).
Proof.
  intros Hc Hr Hl.
  assert (pause_wait t i contact l σ = (AwaitPause i contact l, σ)) as Hwait.
  { unfold pause_wait, deref. by rewrite Hl. }
  split; [|split].
  - unfold loop_top. rewrite Hc, Hr. unfold deref at 1. by rewrite Hl.
  - induction n as [|n IH]; [done|].
    unfold run in *. cbn [replicate foldl fst snd resume]. by rewrite Hwait.
  - assert (heap (resumeJob (t_jobId t) σ) !! l = Some (mkControls false false))
      as Hl'.
    { rewrite (resumeJob_Some _ _ _ Hr). unfold toast, updateJobStatus.
      cbn [heap setJobs setHeap]. by rewrite list_lookup_alter_eq, Hl. }
    assert (quiet (t_jobId t) (resumeJob (t_jobId t) σ)) as Hq.
    { exists l. by rewrite resumeJob_refs. }
    unfold run. cbn [foldl fst snd resume].
    rewrite <- (loop_top_undisturbed t i contact _ Hc Hq).
    unfold loop_top. rewrite Hc, resumeJob_refs, Hr.
    unfold deref at 1. by rewrite Hl'.
Qed.

(** ** What parsing leaves in a contact *)

Lemma chars_trimStart c s : c ∈ chars (Str.trimStart s) → c ∈ chars s.
Proof.
  induction s as [|a s IH]; simpl; [done|].
  destruct (Str.is_ws a); [|done]. intros H. right. by apply IH.
Qed.

Lemma chars_trimEnd c s : c ∈ chars (Str.trimEnd s) → c ∈ chars s.
Proof.
  induction s as [|a s IH]; simpl; [done|].
  destruct (Str.is_ws a && Str.is_empty (Str.trimEnd s)); simpl.
  - by intros ?%not_elem_of_nil.
  - intros [->|H]%elem_of_cons; [left|right; by apply IH].
Qed.

Lemma chars_trim c s : c ∈ chars (Str.trim s) → c ∈ chars s.
Proof. intros H. by apply chars_trimStart, chars_trimEnd. Qed.

(** A field cut out by [split] holds characters of the string only, and
    never the separator. *)
Lemma chars_split sep s : ∀ x c,
  x ∈ Str.split sep s → c ∈ chars x → c ∈ chars s ∧ c ≠ sep.
Proof.
  induction s as [|a s IH]; intros x c; simpl.
  - intros ->%list_elem_of_singleton. by intros ?%not_elem_of_nil.
  - destruct (Ascii.eqb a sep) eqn:Ha.
    + intros [->|Hx]%elem_of_cons; [by intros ?%not_elem_of_nil|].
      intros Hc. destruct (IH x c Hx Hc). split; [by right|done].
    + apply Ascii.eqb_neq in Ha.
      destruct (Str.split sep s) as [|hd tl] eqn:Es.
      * intros ->%list_elem_of_singleton. simpl.
        intros [->|?%not_elem_of_nil]%elem_of_cons; [|done]. split; [left|done].
      * intros [->|Hx]%elem_of_cons.
        -- simpl. intros [->|Hc]%elem_of_cons; [split; [left|done]|].
           destruct (IH hd c) as [? ?]; [left|done|]. split; [by right|done].
        -- intros Hc. destruct (IH x c) as [? ?]; [by right|done|].
           split; [by right|done].
Qed.

Lemma clean_field_empty : clean_field EmptyString.
Proof. repeat split; apply not_elem_of_nil. Qed.

(** The [k]-th trimmed field of a trimmed line that has no line feed. *)
Lemma clean_field_of_line line k :
  Str.LF ∉ chars line →
  clean_field (default EmptyString (Str.trim <$> Str.split Str.COMMA line !! k)).
Proof.
  intros Hlf. destruct (Str.split Str.COMMA line !! k) as [x|] eqn:Hx;
    [|apply clean_field_empty].
  apply list_elem_of_lookup_2 in Hx. simpl. split; [apply StrFacts.trim_idemp|].
  split; intros Hc%chars_trim.
  - by destruct (chars_split _ _ _ _ Hx Hc).
  - destruct (chars_split _ _ _ _ Hx Hc). done.
Qed.

(** X12. Every contact that [parseContacts] returns has a non-empty email, and
    each of its three fields is as trimming leaves it (no white space at
    either end) and holds neither a comma nor a line feed. *)
Theorem parsed_contacts_are_clean (raw : string) :
  Forall (λ contact,
            email contact ≠ EmptyString
            ∧ clean_field (email contact)
            ∧ clean_field (firstName contact)
            ∧ clean_field (lastName contact))
         (parseContacts raw).
Proof.
  apply Forall_forall. intros contact. unfold parseContacts.
  intros [Hemail Hin]%list_elem_of_filter.
  apply list_elem_of_fmap in Hin as (line & -> & Hline).
  apply list_elem_of_filter in Hline as [_ Hline].
  apply list_elem_of_fmap in Hline as (raw_line & -> & Hraw).
  assert (Str.LF ∉ chars (Str.trim raw_line)) as Hlf.
  { intros Hc%chars_trim. by destruct (chars_split _ _ _ _ Hraw Hc). }
  split; [done|]. unfold contact_of_line. cbn [email firstName lastName].
  repeat split; by apply clean_field_of_line.
Qed.

Lemma split_app_sep sep a b :
  Str.split sep (a ++ String sep b) = Str.split sep a ++ Str.split sep b.
Proof.
  induction a as [|c a IH]; simpl.
  - by rewrite Ascii.eqb_refl.
  - destruct (Ascii.eqb c sep); [by rewrite IH|].
    rewrite IH. pose proof (StrFacts.split_not_nil sep a).
    by destruct (Str.split sep a).
Qed.

(** X13. Parsing goes line by line: the contacts of two inputs joined by a line
    feed are the contacts of the first followed by those of the second. *)
Theorem parseContacts_joined (a b : string) :
  parseContacts (a ++ String Str.LF b) = parseContacts a ++ parseContacts b.
Proof.
  unfold parseContacts.
  by rewrite split_app_sep, fmap_app, filter_app, fmap_app, filter_app.
Qed.

(** ** The statuses mirror the flags *)

Lemma mirrored_init : mirrored empty_store.
Proof. by split. Qed.

(** A change that keeps the flag entries, the size of the heap, the pause
    flags and the statuses. *)
Lemma mirrored_frame σ σ' :
  mirrored σ →
  jobControlRefs σ' = jobControlRefs σ →
  length (heap σ') = length (heap σ) →
  (∀ l, isPaused (deref σ' l) = isPaused (deref σ l)) →
  (∀ k, Job.status <$> Obj.get k (jobs σ') = Job.status <$> Obj.get k (jobs σ)) →
  mirrored σ'.
Proof.
  intros [Ha Hi Hact Hd] Hr Hlen Hp Hst. split.
  - intros k l. rewrite Hr, Hlen. apply Ha.
  - intros k k' l. rewrite Hr. apply Hi.
  - intros k l. rewrite Hr. intros Hk. destruct (Hact k l Hk) as (j & Hj & Hs).
    specialize (Hst k). rewrite Hj in Hst.
    destruct (Obj.get k (jobs σ')) as [j'|]; [|done].
    injection Hst as Hst. exists j'. split; [done|]. by rewrite Hst, Hp.
  - intros k j'. rewrite Hr. intros Hj' Hk. specialize (Hst k). rewrite Hj' in Hst.
    destruct (Obj.get k (jobs σ)) as [j|] eqn:Hj; [|done].
    injection Hst as ->. by apply (Hd k j).
Qed.

Lemma mirrored_toast n σ : mirrored σ → mirrored (toast n σ).
Proof. intros H. by apply (mirrored_frame σ). Qed.

Lemma mirrored_tick σ : mirrored σ → mirrored (tick σ).
Proof.
  intros H. apply (mirrored_frame σ); try done.
  intros k. cbn [tick jobs setJobs]. rewrite tick_jobs_get.
  destruct (Obj.get k (jobs σ)) as [j|]; [|done]. simpl. f_equal.
  unfold tick_job. by case_decide.
Qed.

Lemma mirrored_record_result jobId i contact o σ :
  mirrored σ → mirrored (record_result jobId i contact o σ).
Proof.
  intros H. apply (mirrored_frame σ); [done|..].
  - apply record_result_refs.
  - by rewrite record_result_heap.
  - intros l. unfold deref. by rewrite record_result_heap.
  - intros k. destruct (decide (jobId = k)) as [<-|Hne].
    + destruct (Obj.get jobId (jobs σ)) as [j|] eqn:Hj.
      * by rewrite (record_result_get _ _ _ _ _ _ Hj).
      * by rewrite (record_result_absent _ _ _ _ _ Hj), Hj.
    + by rewrite record_result_get_ne.
Qed.

Lemma mirrored_cancel_flag σ l :
  mirrored σ → mirrored (setHeap (alter (set_isCancelled true) l) σ).
Proof.
  intros H. apply (mirrored_frame σ); try done.
  - cbn [heap setHeap]. apply length_alter.
  - intros l'. unfold deref. cbn [heap setHeap].
    destruct (decide (l = l')) as [<-|Hne].
    + rewrite list_lookup_alter_eq. by destruct (heap σ !! l).
    + by rewrite list_lookup_alter_ne.
Qed.

Lemma mirrored_cancelJob k σ : mirrored σ → mirrored (cancelJob k σ).
Proof.
  intros H. unfold cancelJob. destruct (jobControlRefs σ !! k); [|done].
  by apply mirrored_toast, mirrored_cancel_flag.
Qed.

(** [pauseJob] ([b] true) and [resumeJob] ([b] false) without the notice. *)
Lemma mirrored_pause_flag (b : bool) k l σ :
  mirrored σ →
  jobControlRefs σ !! k = Some l →
  mirrored (updateJobStatus k (if b then paused else running)
              (setHeap (alter (set_isPaused b) l) σ)).
Proof.
  intros [Ha Hi Hact Hd] Hk. pose proof (Ha k l Hk) as Hlt. split.
  - intros k' l'. cbn [heap jobControlRefs updateJobStatus setJobs setHeap].
    rewrite length_alter. apply Ha.
  - apply Hi.
  - intros k' l' Hk'. change (jobControlRefs σ !! k' = Some l') in Hk'.
    destruct (Hact k' l' Hk') as (j & Hj & Hs).
    change (deref (updateJobStatus k (if b then paused else running)
                     (setHeap (alter (set_isPaused b) l) σ)) l')
      with (deref (setHeap (alter (set_isPaused b) l) σ) l').
    destruct (decide (k = k')) as [<-|Hne].
    + assert (l' = l) as -> by congruence.
      rewrite deref_alter_eq by done. cbn [isPaused set_isPaused].
      eexists. split.
      * apply (updateJobStatus_get k _ (setHeap _ σ) j Hj).
      * by case_decide.
    + exists j. rewrite updateJobStatus_get_ne by done. split; [done|].
      rewrite deref_alter_ne; [done|]. intros ->. apply Hne. by apply (Hi k k' l').
  - intros k' j Hj Hk'. change (jobControlRefs σ !! k' = None) in Hk'.
    assert (k ≠ k') as Hne by congruence.
    rewrite updateJobStatus_get_ne in Hj by done. by apply (Hd k' j).
Qed.

Lemma mirrored_pauseJob k σ : mirrored σ → mirrored (pauseJob k σ).
Proof.
  intros H. unfold pauseJob. destruct (jobControlRefs σ !! k) as [l|] eqn:Hk; [|done].
  by apply mirrored_toast, (mirrored_pause_flag true).
Qed.

Lemma mirrored_resumeJob k σ : mirrored σ → mirrored (resumeJob k σ).
Proof.
  intros H. unfold resumeJob. destruct (jobControlRefs σ !! k) as [l|] eqn:Hk; [|done].
  by apply mirrored_toast, (mirrored_pause_flag false).
Qed.

Lemma mirrored_installed t σ :
  mirrored σ →
  Obj.get (t_jobId t) (jobs σ) = None →
  jobControlRefs σ !! t_jobId t = None →
  mirrored (installed t σ).
Proof.
  intros [Ha Hi Hact Hd] Hj Hr. apply mirrored_toast.
  assert (∀ l, l < length (heap σ) →
               deref (setJobs (Obj.set (t_jobId t) (newJob t))
                        (setRefs (insert (t_jobId t) (length (heap σ)))
                           (setHeap (λ h, h ++ [mkControls false false]) σ))) l
               = deref σ l) as Hderef.
  { intros l Hl. unfold deref. cbn [heap setJobs setRefs setHeap].
    by rewrite lookup_app_l. }
  split; cbn [heap jobs jobControlRefs setJobs setRefs setHeap].
  - intros k l [[<- <-]|[Hne Hk]]%lookup_insert_Some; rewrite length_app; simpl.
    + lia.
    + pose proof (Ha k l Hk). lia.
  - intros k k' l [[<- <-]|[Hne Hk]]%lookup_insert_Some
           [[<- Hl]|[Hne' Hk']]%lookup_insert_Some; try done.
    + pose proof (Ha k' _ Hk'). lia.
    + pose proof (Ha k _ Hk). lia.
    + by apply (Hi k k' l).
  - intros k l [[<- <-]|[Hne Hk]]%lookup_insert_Some.
    + exists (newJob t). rewrite ObjFacts.get_set_eq. split; [done|].
      unfold deref. cbn [heap setJobs setRefs setHeap].
      rewrite lookup_app_r by done. by rewrite Nat.sub_diag.
    + destruct (Hact k l Hk) as (j & Hjk & Hs). exists j.
      rewrite ObjFacts.get_set_ne by done. split; [done|].
      rewrite Hderef; [done|]. by apply (Ha k).
  - intros k j Hjk Hk. apply lookup_insert_None in Hk as [Hk Hne].
    rewrite ObjFacts.get_set_ne in Hjk by done. by apply (Hd k j).
Qed.

(** The three statements that end a job: notice, terminal status, flag
    entry deleted. *)
Lemma mirrored_published k st n σ :
  mirrored σ → terminal st →
  mirrored (setRefs (delete k) (updateJobStatus k st (toast n σ))).
Proof.
  intros [Ha Hi Hact Hd] Hst. split;
    cbn [heap jobControlRefs setRefs updateJobStatus setJobs toast].
  - intros k' l [_ Hk']%lookup_delete_Some. by apply (Ha k').
  - intros k1 k2 l [_ H1]%lookup_delete_Some [_ H2]%lookup_delete_Some.
    by apply (Hi k1 k2 l).
  - intros k' l [Hne Hk']%lookup_delete_Some.
    destruct (Hact k' l Hk') as (j & Hj & Hs). exists j.
    change (jobs (setRefs (delete k) (updateJobStatus k st (toast n σ))))
      with (jobs (updateJobStatus k st (toast n σ))).
    rewrite updateJobStatus_get_ne by done. done.
  - intros k' j'.
    change (jobs (setRefs (delete k) (updateJobStatus k st (toast n σ))))
      with (jobs (updateJobStatus k st (toast n σ))).
    intros Hj' Hk'. destruct (decide (k = k')) as [<-|Hne].
    + destruct (Obj.get k (jobs (toast n σ))) as [j|] eqn:Hj.
      * rewrite (updateJobStatus_get k st (toast n σ) j Hj) in Hj'.
        injection Hj' as <-. by case_decide as Hs; [rewrite Hs|].
      * rewrite (updateJobStatus_get_None k st (toast n σ) Hj) in Hj'. congruence.
    + rewrite updateJobStatus_get_ne in Hj' by done.
      rewrite lookup_delete_ne in Hk' by done. by apply (Hd k' j').
Qed.

Lemma mirrored_removed e σ :
  mirrored σ → mirrored (removeJob e (setRefs (delete e) σ)).
Proof.
  intros [Ha Hi Hact Hd]. split;
    cbn [heap jobs jobControlRefs removeJob setRefs setJobs].
  - intros k l [_ [_ Hk]%lookup_delete_Some]%lookup_delete_Some. by apply (Ha k).
  - intros k1 k2 l [_ [_ H1]%lookup_delete_Some]%lookup_delete_Some
           [_ [_ H2]%lookup_delete_Some]%lookup_delete_Some.
    by apply (Hi k1 k2 l).
  - intros k l [Hne [_ Hk]%lookup_delete_Some]%lookup_delete_Some.
    destruct (Hact k l Hk) as (j & Hj & Hs). exists j.
    by rewrite ObjFacts.get_del_ne.
  - intros k j [Hj Hne]%get_del_Some Hk.
    rewrite !lookup_delete_ne in Hk by done. by apply (Hd k j).
Qed.

Lemma mirrored_loop_shape t σ p' σ' :
  mirrored σ → loop_shape t σ (p', σ') → mirrored σ'.
Proof.
  intros H [[Hs _]|[[Hs _]|[[wp Hs]|[Hs _]]]]; simpl in Hs.
  - by subst.
  - by injection Hs as _ ->.
  - injection Hs as _ ->. apply mirrored_published; [done|by right].
  - injection Hs as _ ->. apply mirrored_published; [done|by left].
Qed.

Lemma mirrored_resume t p ev σ p' σ' :
  mirrored σ →
  awaited p ev = true →
  resume t p ev σ = (p', σ') →
  (p = AwaitYield →
   Obj.get (t_jobId t) (jobs σ) = None ∧ jobControlRefs σ !! t_jobId t = None) →
  mirrored σ'.
Proof.
  intros H Haw Hres Hy.
  destruct (resume_shape t p ev σ Haw) as (σx & Hshape & Hx).
  rewrite Hres in Hshape. apply (mirrored_loop_shape t σx p' σ'); [|done].
  destruct p as [|i contact l|i contact|i contact|]; destruct ev as [|o];
    try discriminate Haw; subst σx; try done.
  - destruct Hy as [Hj Hr]; [done|]. by apply mirrored_installed.
  - by apply mirrored_record_result.
Qed.

Lemma mirrored_step c s s' :
  Inv s → mirrored (store s) → sys_step c s = Some s' → mirrored (store s').
Proof.
  intros HI H.
  destruct c as [accounts uuid a li ln d dl|k|k|k| |n ev]; simpl.
  - case_decide as Hu; [done|].
    destruct (startJob accounts uuid a li ln d dl (store s)) as [r σ'] eqn:Hs.
    intros [= <-]. cbn [store].
    destruct (Inv_fresh_id s uuid HI) as [Hnj Hnr]; [tauto|].
    destruct (startJob_cases accounts uuid a li ln d dl (store s))
      as [[n Hc]|[(t & p & σ0 & Hc & Hid & _ & _ & Hres & _)
                 |(t & e & Hc & _)]];
      rewrite Hc in Hs; injection Hs as <- <-.
    + by apply mirrored_toast.
    + apply (mirrored_resume t AwaitYield Timer (store s) p σ0); try done.
      intros _. by rewrite Hid.
    + by apply mirrored_removed.
  - intros [= <-]. by apply mirrored_pauseJob.
  - intros [= <-]. by apply mirrored_resumeJob.
  - intros [= <-]. by apply mirrored_cancelJob.
  - intros [= <-]. by apply mirrored_tick.
  - destruct (tasks s !! n) as [[t p]|] eqn:Hn; [|done].
    destruct (awaited p ev) eqn:Haw; [|done].
    destruct (resume t p ev (store s)) as [p' σ'] eqn:Hres.
    intros [= <-]. cbn [store].
    apply (mirrored_resume t p ev (store s) p' σ'); try done.
    intros ->. apply (inv_yield_unpublished s HI t).
    by apply list_elem_of_lookup_2 in Hn.
Qed.

Lemma mirrored_exec cs : ∀ s s',
  Inv s → mirrored (store s) → exec cs s = Some s' → mirrored (store s').
Proof.
  induction cs as [|c cs IH]; intros s s' HI H; simpl.
  - by intros [= <-].
  - destruct (sys_step c s) as [s1|] eqn:Hc; [|done].
    apply IH; [by apply (Inv_step c s)|by apply (mirrored_step c s)].
Qed.

(** X14. In every reachable state the published status of a job tells what its
    flags say. A job that has a flag entry is [paused] when its control
    object is paused and [running] when it is not; a job without a flag entry
    is [completed] or [cancelled]. And every flag entry belongs to a
    published job and leads to an allocated control object that no other
    entry shares. *)
Theorem status_mirrors_flags (s : System) (k : string) :
  reachable s →
  (∀ j, Obj.get k (jobs (store s)) = Some j →
        match jobControlRefs (store s) !! k with
        | Some l => Job.status j = if isPaused (deref (store s) l) then paused else running
        | None => Job.status j = completed ∨ Job.status j = cancelled
        end)
  ∧ (∀ l, jobControlRefs (store s) !! k = Some l →
          is_Some (Obj.get k (jobs (store s)))
          ∧ l < length (heap (store s))
          ∧ ∀ k', jobControlRefs (store s) !! k' = Some l → k' = k).
Proof.
  intros [cs Hcs].
  pose proof (mirrored_exec cs init s Inv_init mirrored_init Hcs) as [Ha Hi Hact Hd].
  split.
  - intros j Hj. destruct (jobControlRefs (store s) !! k) as [l|] eqn:Hk.
    + destruct (Hact k l Hk) as (j0 & Hj0 & Hs). congruence.
    + by apply (Hd k j).
  - intros l Hk. destruct (Hact k l Hk) as (j & Hj & _).
    split; [by exists j|]. split; [by apply (Ha k)|].
    intros k' Hk'. by apply (Hi k' k l).
Qed.

(** ** What one step does to the results and the elapsed time *)

Lemma updateJobStatus_keeps k0 st σ k j j' :
  Obj.get k (jobs σ) = Some j →
  Obj.get k (jobs (updateJobStatus k0 st σ)) = Some j' →
  Job.results j' = Job.results j ∧ Job.elapsedTime j' = Job.elapsedTime j.
Proof.
  intros Hj. destruct (decide (k0 = k)) as [->|Hne].
  - rewrite (updateJobStatus_get k st σ j Hj). intros [= <-]. by case_decide.
  - rewrite updateJobStatus_get_ne by done. rewrite Hj. by intros [= <-].
Qed.

Lemma loop_shape_keeps t σ p' σ' j j' :
  loop_shape t σ (p', σ') →
  Obj.get (t_jobId t) (jobs σ) = Some j →
  Obj.get (t_jobId t) (jobs σ') = Some j' →
  Job.results j' = Job.results j ∧ Job.elapsedTime j' = Job.elapsedTime j.
Proof.
  intros [[Hs _]|[[Hs _]|[[wp Hs]|[Hs _]]]] Hj; simpl in Hs.
  - subst σ'. rewrite Hj. by intros [= <-].
  - injection Hs as _ ->. rewrite Hj. by intros [= <-].
  - injection Hs as _ ->. rewrite (publish_cancelled_get t wp σ j Hj).
    by intros [= <-].
  - injection Hs as _ ->. rewrite (publish_completed_get t σ j Hj).
    intros [= <-]. by case_decide.
Qed.

Lemma wake_other_job s t p ev p' σ' k :
  Inv s → (t, p) ∈ tasks s →
  awaited p ev = true →
  resume t p ev (store s) = (p', σ') →
  k ≠ t_jobId t →
  Obj.get k (jobs σ') = Obj.get k (jobs (store s)).
Proof.
  intros HI Hin Haw Hres Hne.
  destruct (resume_effect t p ev (store s) p' σ' Haw Hres) as [Hother _].
  - intros ->. by apply (inv_yield_unpublished s HI t).
  - intros j Hj Hterm.
    rewrite (inv_terminal_finished s HI t p j Hin Hj Hterm) in Haw. by destruct ev.
  - by apply Hother.
Qed.

(** X15. One step of the engine never drops, reorders or rewrites an entry of a
    job that stays published: its results are left as they are, except that
    the answer to the request of its own invocation puts one new entry, the
    one for that contact and that answer, at the head. And [elapsedTime]
    moves only with the ticker, by one, and only while the job is
    [running]. *)
Theorem results_grow_at_the_head (s s' : System) (c : command) (k : string)
    (j j' : Job.t) :
  reachable s →
  sys_step c s = Some s' →
  Obj.get k (jobs (store s)) = Some j →
  Obj.get k (jobs (store s')) = Some j' →
  (Job.results j' = Job.results j
   ∨ ∃ n t i contact o,
       c = Wake n (Reply o)
       ∧ tasks s !! n = Some (t, AwaitFetch i contact)
       ∧ t_jobId t = k
       ∧ Job.results j' = result_of i contact o :: Job.results j)
  ∧ Job.elapsedTime j'
    = match c with
      | Tick => if decide (Job.status j = running)
                then Job.elapsedTime j + 1 else Job.elapsedTime j
      | _ => Job.elapsedTime j
      end.
Proof.
  intros Hreach Hstep Hj Hj'. pose proof (Inv_reachable s Hreach) as HI.
  assert (k ∈ used_ids s) as Hused.
  { apply (inv_jobs_owned s HI). apply dec_stable.
    rewrite <- ObjFacts.get_None_keys. congruence. }
  destruct c as [accounts uuid a li ln d dl|k0|k0|k0| |n ev]; simpl in Hstep.
  - case_decide as Hu; [done|].
    destruct (startJob accounts uuid a li ln d dl (store s)) as [r σ'] eqn:Hs.
    injection Hstep as <-. cbn [store] in Hj'.
    assert (j' = j) as ->; [|by split; [left|]].
    destruct (startJob_cases accounts uuid a li ln d dl (store s))
      as [[n Hc]|[(t & p & σ0 & Hc & Hid & _ & _ & Hres & _)
                 |(t & e & Hc & _)]];
      rewrite Hc in Hs; injection Hs as <- <-.
    + cbn [jobs toast] in Hj'. congruence.
    + destruct (resume_effect t AwaitYield Timer (store s) p σ0 eq_refl Hres)
        as [Hother _].
      * intros _. rewrite Hid. apply (Inv_fresh_id s uuid HI). tauto.
      * intros j0. rewrite Hid.
        destruct (Inv_fresh_id s uuid HI) as [Hnj _]; [tauto|]. by rewrite Hnj.
      * destruct (Hother k) as [Hk _]; [rewrite Hid; intros ->; tauto|].
        congruence.
    + cbn [jobs removeJob setJobs setRefs] in Hj'.
      apply get_del_Some in Hj' as [Hj' _]. congruence.
  - injection Hstep as <-. cbn [store] in Hj'. unfold pauseJob in Hj'.
    destruct (jobControlRefs (store s) !! k0); [|by split; [left|]; congruence].
    cbn [jobs toast] in Hj'.
    destruct (updateJobStatus_keeps k0 paused (setHeap _ (store s)) k j j' Hj Hj').
    by split; [left|].
  - injection Hstep as <-. cbn [store] in Hj'. unfold resumeJob in Hj'.
    destruct (jobControlRefs (store s) !! k0); [|by split; [left|]; congruence].
    cbn [jobs toast] in Hj'.
    destruct (updateJobStatus_keeps k0 running (setHeap _ (store s)) k j j' Hj Hj').
    by split; [left|].
  - injection Hstep as <-. cbn [store] in Hj'. rewrite cancelJob_jobs in Hj'.
    by split; [left|]; congruence.
  - injection Hstep as <-. cbn [store tick jobs setJobs] in Hj'.
    rewrite tick_jobs_get, Hj in Hj'. injection Hj' as <-.
    unfold tick_job. by split; [left|]; case_decide.
  - destruct (tasks s !! n) as [[t p]|] eqn:Hn; [|done].
    destruct (awaited p ev) eqn:Haw; [|done].
    destruct (resume t p ev (store s)) as [p' σ'] eqn:Hres.
    injection Hstep as <-. cbn [store] in Hj'.
    pose proof (list_elem_of_lookup_2 _ _ _ Hn) as Hin.
    destruct (decide (k = t_jobId t)) as [->|Hne].
    + destruct (resume_shape t p ev (store s) Haw) as (σx & Hshape & Hx).
      rewrite Hres in Hshape.
      destruct p as [|i contact l|i contact|i contact|]; destruct ev as [|o];
        try discriminate Haw; subst σx.
      * destruct (inv_yield_unpublished s HI t Hin). congruence.
      * destruct (loop_shape_keeps t _ _ _ j j' Hshape Hj Hj'). by split; [left|].
      * destruct (loop_shape_keeps t _ _ _ j j' Hshape Hj Hj'). by split; [left|].
      * pose proof (record_result_get (t_jobId t) i contact o (store s) j Hj) as Hjx.
        destruct (loop_shape_keeps t _ _ _ _ j' Hshape Hjx Hj') as [Hr He].
        split; [|done]. right. by exists n, t, i, contact, o.
    + rewrite (wake_other_job s t p ev p' σ' k HI Hin Haw Hres Hne) in Hj'.
      by split; [left|]; congruence.
Qed.

(** ** A cancellation while a request is in flight *)

(** X16. A cancellation requested while a request is in flight, for a contact
    that is not the last, does not abort that request: when the answer comes
    its entry is pushed and the progress is brought up to date, and only then,
    at the top of the next iteration, the job is published [cancelled] and
    the invocation ends. The next contact is never submitted. *)
Theorem cancel_during_request_records_then_stops
    (t : Task) (i : nat) (contact next : Contact) (o : Outcome) (σ : Store)
    (l : loc) (j : Job.t) :
  t_contacts t !! S i = Some next →
  jobControlRefs σ !! t_jobId t = Some l →
  l < length (heap σ) →
  Obj.get (t_jobId t) (jobs σ) = Some j →
  ∃ σ',
    resume t (AwaitFetch i contact) (Reply o) (cancelJob (t_jobId t) σ)
    = (Finished, σ')
    ∧ Obj.get (t_jobId t) (jobs σ')
      = Some (Job.mk (Job.id j) (Job.accountId j) (Job.listId j) (Job.listName j)
                cancelled (newProgress i j) (result_of i contact o :: Job.results j)
                (Job.totalContacts j) (Job.elapsedTime j) (Job.delay j))
    ∧ jobControlRefs σ' !! t_jobId t = None
    ∧ last (toasts σ') = Some (ToastJobCancelled (t_listName t) false).
Proof.
  intros Hnext Hr Hl Hj. cbn [resume].
  set (σc := cancelJob (t_jobId t) σ).
  set (σr := record_result (t_jobId t) i contact o σc).
  assert (jobControlRefs σr !! t_jobId t = Some l) as Hrr.
  { subst σr σc. by rewrite record_result_refs, cancelJob_refs. }
  assert (isCancelled (deref σr l) = true) as Hx.
  { subst σr σc. unfold deref. rewrite record_result_heap.
    rewrite (cancelJob_Some _ _ _ Hr). cbn [heap toast setHeap].
    rewrite list_lookup_alter_eq.
    destruct (heap σ !! l) eqn:E; [done|].
    apply lookup_ge_None in E. lia. }
  assert (Obj.get (t_jobId t) (jobs σr)
          = Some (Job.with_results_progress (result_of i contact o :: Job.results j)
                    (newProgress i j) j)) as Hjr.
  { subst σr σc. apply record_result_get. by rewrite cancelJob_jobs. }
  rewrite (loop_top_cancelled t (S i) next l σr Hnext Hrr Hx).
  eexists. split; [done|]. split; [|split].
  - by rewrite (publish_cancelled_get t false σr _ Hjr).
  - rewrite publish_cancelled_refs. apply lookup_delete_eq.
  - unfold publish_cancelled, updateJobStatus, setJobs, setRefs, toast.
    cbn [toasts]. apply last_snoc.
Qed.

(** ** The further properties at work on the sample data *)

Lemma results_never_lost_or_duplicated_witness :
  ImportResult.index <$> Job.results Cases.job_j1_one_failed
  = rev (seq 1 (length (Job.results Cases.job_j1_one_failed)))
  ∧ length (Job.results Cases.job_j1_one_failed)
    ≤ Job.totalContacts Cases.job_j1_one_failed
  ∧ NoDup (ImportResult.index <$> Job.results Cases.job_j1_one_failed)
  ∧ (Job.status Cases.job_j1_one_failed = completed →
     length (Job.results Cases.job_j1_one_failed)
     = Job.totalContacts Cases.job_j1_one_failed).
Proof.
  apply (results_never_lost_or_duplicated (Sample.after Cases.one_failed) "j1").
  - exists Cases.one_failed. vm_compute. reflexivity.
  - vm_compute. reflexivity.
Defined.

Lemma results_follow_the_batch_witness :
  ∃ t p,
    (t, p) ∈ tasks (Sample.after Cases.one_failed) ∧ t_jobId t = "j1"
    ∧ ImportResult.email <$> Job.results Cases.job_j1_one_failed
      = rev (email <$> take (length (Job.results Cases.job_j1_one_failed))
                         (t_contacts t))
    ∧ Job.id Cases.job_j1_one_failed = "j1"
    ∧ Job.accountId Cases.job_j1_one_failed = t_accountId t
    ∧ Job.listId Cases.job_j1_one_failed = t_listId t
    ∧ Job.listName Cases.job_j1_one_failed = t_listName t
    ∧ Job.delay Cases.job_j1_one_failed = t_delay t
    ∧ Job.totalContacts Cases.job_j1_one_failed = length (t_contacts t)
    ∧ (∀ i, pc_index p = Some i → length (Job.results Cases.job_j1_one_failed) = i).
Proof.
  apply (results_follow_the_batch (Sample.after Cases.one_failed) "j1").
  - exists Cases.one_failed. vm_compute. reflexivity.
  - vm_compute. reflexivity.
Defined.

Lemma job_fields_never_change_witness :
  Job.id Cases.job_j1_one_failed = Job.id Sample.job_j1
  ∧ Job.accountId Cases.job_j1_one_failed = Job.accountId Sample.job_j1
  ∧ Job.listId Cases.job_j1_one_failed = Job.listId Sample.job_j1
  ∧ Job.listName Cases.job_j1_one_failed = Job.listName Sample.job_j1
  ∧ Job.delay Cases.job_j1_one_failed = Job.delay Sample.job_j1
  ∧ Job.totalContacts Cases.job_j1_one_failed = Job.totalContacts Sample.job_j1.
Proof.
  apply (job_fields_never_change (Sample.after [Sample.start_j1])
           (Sample.after Cases.one_failed) (Wake 0 (Reply Sample.bad_gateway)) "j1").
  - exists [Sample.start_j1]. vm_compute. reflexivity.
  - vm_compute. reflexivity.
  - vm_compute. reflexivity.
  - vm_compute. reflexivity.
Defined.


Lemma undisturbed_run_records_every_answer_witness :
  ∃ σ' j,
    run Cases.task_slow
      (undisturbed_events (AwaitFetch 0 Sample.c0) 2
         [Sample.created; Sample.bad_gateway])
      (AwaitFetch 0 Sample.c0, installed Cases.task_slow empty_store)
    = (Finished, σ')
    ∧ Obj.get "j1" (jobs σ') = Some j
    ∧ jobControlRefs σ' !! "j1" = None
    ∧ Job.status j = completed
    ∧ Job.progress j = 100%Q
    ∧ Job.totalContacts j = length (parseContacts Sample.batch2)
    ∧ Job.results j
      = rev (entries 0 (parseContacts Sample.batch2)
               [Sample.created; Sample.bad_gateway])
    ∧ ImportResult.status <$> Job.results j
      = rev (status_for <$> [Sample.created; Sample.bad_gateway]).
Proof.
  apply (undisturbed_run_records_every_answer Sample.accounts "j1" "A" "7" "news"
           Sample.batch2 2 empty_store).
  - vm_compute. reflexivity.
  - reflexivity.
Defined.

Lemma request_during_last_submission_comes_too_late_witness :
  completes_with Sample.task_j1 1 Sample.c1 Sample.created Cases.job_j1_one_created
    (cancelJob "j1" (store (Sample.after Cases.one_created)))
  ∧ completes_with Sample.task_j1 1 Sample.c1 Sample.created Cases.job_j1_one_created
      (pauseJob "j1" (store (Sample.after Cases.one_created)))
  ∧ completes_with Sample.task_j1 1 Sample.c1 Sample.created Cases.job_j1_one_created
      (cancelJob "j1" (pauseJob "j1" (store (Sample.after Cases.one_created)))).
Proof.
  apply (request_during_last_submission_comes_too_late Sample.task_j1 1 Sample.c1
           Sample.created (store (Sample.after Cases.one_created)) 0
           Cases.job_j1_one_created).
  - reflexivity.
  - vm_compute. reflexivity.
  - vm_compute. reflexivity.
  - discriminate.
Defined.

Lemma commands_on_finished_or_unknown_job_do_nothing_witness :
  sys_step (CmdPause "j2") (Sample.after Sample.done_j2)
  = Some (Sample.after Sample.done_j2)
  ∧ sys_step (CmdResume "j2") (Sample.after Sample.done_j2)
    = Some (Sample.after Sample.done_j2)
  ∧ sys_step (CmdCancel "j2") (Sample.after Sample.done_j2)
    = Some (Sample.after Sample.done_j2).
Proof.
  apply (commands_on_finished_or_unknown_job_do_nothing
           (Sample.after Sample.done_j2) "j2").
  - exists Sample.done_j2. vm_compute. reflexivity.
  - left. eexists. split; [vm_compute; reflexivity|]. left. reflexivity.
Defined.

Lemma pause_then_resume_restores_witness :
  jobs (resumeJob "j1" (pauseJob "j1" (store (Sample.after [Sample.start_j1]))))
  = jobs (store (Sample.after [Sample.start_j1]))
  ∧ jobControlRefs
      (resumeJob "j1" (pauseJob "j1" (store (Sample.after [Sample.start_j1]))))
    = jobControlRefs (store (Sample.after [Sample.start_j1]))
  ∧ heap (resumeJob "j1" (pauseJob "j1" (store (Sample.after [Sample.start_j1]))))
    = heap (store (Sample.after [Sample.start_j1]))
  ∧ toasts (resumeJob "j1" (pauseJob "j1" (store (Sample.after [Sample.start_j1]))))
    = toasts (store (Sample.after [Sample.start_j1]))
      ++ [ToastJobPaused (Some (Job.listName Sample.job_j1));
          ToastJobResumed (Some (Job.listName Sample.job_j1))].
Proof.
  apply (pause_then_resume_restores (store (Sample.after [Sample.start_j1])) "j1" 0
           (mkControls false false) Sample.job_j1).
  - vm_compute. reflexivity.
  - vm_compute. reflexivity.
  - reflexivity.
  - vm_compute. reflexivity.
  - reflexivity.
Defined.

Lemma paused_job_waits_until_resumed_witness :
  loop_top Sample.task_j1 1 (store (Sample.after Cases.paused_in_flight))
  = (AwaitPause 1 Sample.c1 0, store (Sample.after Cases.paused_in_flight))
  ∧ run Sample.task_j1 (replicate 3 Timer)
      (AwaitPause 1 Sample.c1 0, store (Sample.after Cases.paused_in_flight))
    = (AwaitPause 1 Sample.c1 0, store (Sample.after Cases.paused_in_flight))
  ∧ run Sample.task_j1 [Timer]
      (AwaitPause 1 Sample.c1 0,
       resumeJob (t_jobId Sample.task_j1) (store (Sample.after Cases.paused_in_flight)))
    = (pc_before (t_delay Sample.task_j1) 1 Sample.c1,
       resumeJob (t_jobId Sample.task_j1) (store (Sample.after Cases.paused_in_flight))).
Proof.
  apply (paused_job_waits_until_resumed Sample.task_j1 1 Sample.c1
           (store (Sample.after Cases.paused_in_flight)) 0 3).
  - reflexivity.
  - vm_compute. reflexivity.
  - vm_compute. reflexivity.
Defined.

Lemma unpaused_orphan_ends_silently_witness :
  loop_top Sample.task_j1 1 (store (Sample.after Cases.restarted))
  = (Finished, store (Sample.after Cases.restarted))
  ∧ after_loop Sample.task_j1 (store (Sample.after Cases.restarted))
    = (Finished, store (Sample.after Cases.restarted))
  ∧ resume Sample.task_j1 (AwaitFetch 0 Sample.c0) (Reply Sample.created)
      (store (Sample.after Cases.restarted))
    = (Finished, store (Sample.after Cases.restarted))
  ∧ resume Sample.task_j1 (AwaitDelay 1 Sample.c1) Timer
      (store (Sample.after Cases.restarted))
    = (AwaitFetch 1 Sample.c1, store (Sample.after Cases.restarted)).
Proof.
  destruct (unpaused_orphan_ends_silently Sample.task_j1 1 Sample.c1 Sample.created
              (store (Sample.after Cases.restarted)))
    as (Htop & Hafter & _ & Hdelay).
  - vm_compute. reflexivity.
  - vm_compute. reflexivity.
  - split; [exact Htop|]. split; [exact Hafter|]. split; [|exact Hdelay].
    apply (unpaused_orphan_ends_silently Sample.task_j1 0 Sample.c0 Sample.created
             (store (Sample.after Cases.restarted))).
    + vm_compute. reflexivity.
    + vm_compute. reflexivity.
Defined.

Lemma status_mirrors_flags_witness :
  (∀ j, Obj.get "j1" (jobs (store (Sample.after [Sample.start_j1; CmdPause "j1"])))
        = Some j →
        match jobControlRefs (store (Sample.after [Sample.start_j1; CmdPause "j1"]))
              !! "j1" with
        | Some l =>
            Job.status j
            = if isPaused (deref (store (Sample.after [Sample.start_j1; CmdPause "j1"])) l)
              then paused else running
        | None => Job.status j = completed ∨ Job.status j = cancelled
        end)
  ∧ (∀ l, jobControlRefs (store (Sample.after [Sample.start_j1; CmdPause "j1"]))
          !! "j1" = Some l →
          is_Some (Obj.get "j1"
                     (jobs (store (Sample.after [Sample.start_j1; CmdPause "j1"]))))
          ∧ l < length (heap (store (Sample.after [Sample.start_j1; CmdPause "j1"])))
          ∧ ∀ k', jobControlRefs (store (Sample.after [Sample.start_j1; CmdPause "j1"]))
                  !! k' = Some l → k' = "j1").
Proof.
  apply (status_mirrors_flags (Sample.after [Sample.start_j1; CmdPause "j1"]) "j1").
  exists [Sample.start_j1; CmdPause "j1"]. vm_compute. reflexivity.
Defined.

Lemma results_grow_at_the_head_witness :
  (Job.results Cases.job_j1_one_failed = Job.results Sample.job_j1
   ∨ ∃ n t i contact o,
       Wake 0 (Reply Sample.bad_gateway) = Wake n (Reply o)
       ∧ tasks (Sample.after [Sample.start_j1]) !! n = Some (t, AwaitFetch i contact)
       ∧ t_jobId t = "j1"
       ∧ Job.results Cases.job_j1_one_failed
         = result_of i contact o :: Job.results Sample.job_j1)
  ∧ Job.elapsedTime Cases.job_j1_one_failed = Job.elapsedTime Sample.job_j1.
Proof.
  apply (results_grow_at_the_head (Sample.after [Sample.start_j1])
           (Sample.after Cases.one_failed) (Wake 0 (Reply Sample.bad_gateway)) "j1").
  - exists [Sample.start_j1]. vm_compute. reflexivity.
  - vm_compute. reflexivity.
  - vm_compute. reflexivity.
  - vm_compute. reflexivity.
Defined.

Lemma cancel_during_request_records_then_stops_witness :
  ∃ σ',
    resume Sample.task_j1 (AwaitFetch 0 Sample.c0) (Reply Sample.created)
      (cancelJob "j1" (store (Sample.after [Sample.start_j1])))
    = (Finished, σ')
    ∧ Obj.get "j1" (jobs σ')
      = Some (Job.mk "j1" "A" "7" "news" cancelled (newProgress 0 Sample.job_j1)
                [result_of 0 Sample.c0 Sample.created] 2 0 0)
    ∧ jobControlRefs σ' !! "j1" = None
    ∧ last (toasts σ') = Some (ToastJobCancelled "news" false).
Proof.
  apply (cancel_during_request_records_then_stops Sample.task_j1 0 Sample.c0 Sample.c1
           Sample.created (store (Sample.after [Sample.start_j1])) 0 Sample.job_j1).
  - reflexivity.
  - vm_compute. reflexivity.
  - vm_compute. lia.
  - vm_compute. reflexivity.
Defined.

(** * The endpoint behind the engine's requests *)

Lemma is_empty_true s : Str.is_empty s = true ↔ s = EmptyString.
Proof. by destruct s. Qed.

Lemma is_empty_false s : Str.is_empty s = false ↔ s ≠ EmptyString.
Proof. by destruct s. Qed.

Lemma calls_provider_iff b :
  Server.calls_provider b = true
  ↔ Server.b_apiKey b ≠ EmptyString ∧ Server.b_listId b ≠ EmptyString
    ∧ email (Server.b_contact b) ≠ EmptyString.
Proof.
  unfold Server.calls_provider, Server.getBrevoApiClient.
  destruct (Server.b_apiKey b), (Server.b_listId b), (email (Server.b_contact b));
    simpl; split; try done; try (by intros (? & ? & ?)).
Qed.

Lemma contact_endpoint_refused b brevo :
  Server.calls_provider b = false →
  Server.contact_endpoint b brevo
  = Server.mkReply 400
      (JObj [("error", JStr "apiKey, contact(with email), listId required.")]).
Proof.
  unfold Server.calls_provider, Server.contact_endpoint, Server.getBrevoApiClient.
  by destruct (Server.b_apiKey b), (Server.b_listId b), (email (Server.b_contact b)).
Qed.

Lemma contact_endpoint_called b brevo :
  Server.calls_provider b = true →
  Server.contact_endpoint b brevo
  = match brevo with
    | Server.Resolved st data =>
        if (st =? 201)%Z then Server.mkReply st data
        else
          Server.on_error
            (Server.mkCaught
               (Some (500%Z,
                      default JNull
                        (Js.or_else (Some data)
                           (Some (JObj [("message",
                                         JStr "Unexpected success status")])))))
               None)
    | Server.Rejected resp msg => Server.on_error (Server.mkCaught resp (Some msg))
    end.
Proof.
  intros (Hk & Hl & He)%calls_provider_iff.
  unfold Server.contact_endpoint, Server.getBrevoApiClient.
  apply is_empty_false in Hk, Hl, He. by rewrite Hk, Hl, He.
Qed.

Lemma contact_endpoint_201 b brevo :
  Server.axios_default brevo →
  Server.status (Server.contact_endpoint b brevo) = 201%Z
  ↔ Server.calls_provider b = true ∧ ∃ data, brevo = Server.Resolved 201 data.
Proof.
  intros Hax. destruct (Server.calls_provider b) eqn:Hc.
  - rewrite (contact_endpoint_called b brevo Hc).
    destruct brevo as [st data|[[st d]|] msg]; simpl in *.
    + destruct (st =? 201)%Z eqn:E.
      * apply Z.eqb_eq in E as ->. split; [|done]. intros _. split; [done|]. by exists data.
      * apply Z.eqb_neq in E. split; [done|]. intros [_ [data' [= ? _]]]. done.
    + unfold Server.errorStatus. simpl. split.
      * destruct (st =? 0)%Z; [done|]. intros ->. lia.
      * by intros [_ [data' ?]].
    + split; [done|]. by intros [_ [data' ?]].
  - rewrite (contact_endpoint_refused b brevo Hc). simpl. split; [done|]. by intros [? _].
Qed.

Lemma contact_endpoint_not_204 b brevo :
  Server.axios_default brevo →
  Server.status (Server.contact_endpoint b brevo) ≠ 204%Z.
Proof.
  intros Hax. destruct (Server.calls_provider b) eqn:Hc.
  - rewrite (contact_endpoint_called b brevo Hc).
    destruct brevo as [st data|[[st d]|] msg]; simpl in *.
    + destruct (st =? 201)%Z eqn:E; [|done].
      apply Z.eqb_eq in E as ->. done.
    + unfold Server.errorStatus. simpl. destruct (st =? 0)%Z; [done|]. lia.
    + done.
  - by rewrite (contact_endpoint_refused b brevo Hc).
Qed.

(** X17. The endpoint answers 201 exactly when the request names an API key, a
    list and an email and the provider answered 201, and then hands the
    provider's data through. It never answers 204. A request that lacks one
    of the three is answered 400 without any call to the provider, and any
    other 2xx answer of the provider, 204 included, is turned into a 500. *)
Theorem contact_endpoint_status (b : Server.ContactBody) (brevo : Server.Axios) :
  Server.axios_default brevo →
  (Server.status (Server.contact_endpoint b brevo) = 201%Z
   ↔ Server.calls_provider b = true ∧ ∃ data, brevo = Server.Resolved 201 data)
  ∧ (∀ data, Server.calls_provider b = true → brevo = Server.Resolved 201 data →
       Server.contact_endpoint b brevo = Server.mkReply 201 data)
  ∧ Server.status (Server.contact_endpoint b brevo) ≠ 204%Z
  ∧ (Server.calls_provider b = false
     ↔ Server.b_apiKey b = EmptyString ∨ Server.b_listId b = EmptyString
       ∨ email (Server.b_contact b) = EmptyString)
  ∧ (Server.calls_provider b = false →
     Server.status (Server.contact_endpoint b brevo) = 400%Z)
  ∧ (∀ st data, Server.calls_provider b = true → brevo = Server.Resolved st data →
       st ≠ 201%Z → Server.status (Server.contact_endpoint b brevo) = 500%Z).
Proof.
  intros Hax. split; [by apply contact_endpoint_201|].
  split. { intros data Hc ->. by rewrite (contact_endpoint_called b _ Hc). }
  split; [by apply contact_endpoint_not_204|].
  split.
  { rewrite <- not_true_iff_false, calls_provider_iff.
    destruct (Server.b_apiKey b), (Server.b_listId b), (email (Server.b_contact b));
      split; try tauto; try (intros H; exfalso; apply H; done);
      intros [?|[?|?]]; done. }
  split. { intros Hc. by rewrite (contact_endpoint_refused b brevo Hc). }
  intros st data Hc -> Hst. rewrite (contact_endpoint_called b _ Hc).
  apply Z.eqb_neq in Hst. by rewrite Hst.
Qed.

Lemma or_else_truthy a v :
  Js.truthy v = true →
  ∃ w, Js.or_else a (Some v) = Some w ∧ Js.truthy w = true.
Proof.
  intros Hv. destruct a as [u|]; simpl; [|by exists v].
  destruct (Js.truthy u) eqn:Hu; [by exists u|by exists v].
Qed.

Lemma errorMessage_truthy details :
  ∃ w, Server.errorMessage details = Some w ∧ Js.truthy w = true.
Proof.
  unfold Server.errorMessage.
  destruct (or_else_truthy (Js.prop "message" details) (JStr "Failed import") eq_refl)
    as (w4 & -> & H4).
  destruct (or_else_truthy
              (match Js.prop "data" details with
               | Some (JStr s) => Some (JStr s)
               | _ => Some JNull
               end) w4 H4) as (w3 & -> & H3).
  destruct (or_else_truthy (Js.opt_prop "code" (Js.prop "data" details)) w3 H3)
    as (w2 & -> & H2).
  apply (or_else_truthy _ w2 H2).
Qed.

(** X18. Every reply of the endpoint other than the 201 tells what went wrong:
    its body is an object whose [error] member is truthy. For an answer of
    the provider that is an object with a non-empty [message] and no [data]
    member, as the provider's error bodies are, the reply has the provider's
    status code and that message as its [error], and nothing else; when the
    provider could not be reached the reply is a 500 with the message of the
    failure. *)
Theorem contact_endpoint_errors (b : Server.ContactBody) (brevo : Server.Axios) :
  (Server.status (Server.contact_endpoint b brevo) ≠ 201%Z →
   ∃ w, Js.prop "error" (Server.body (Server.contact_endpoint b brevo)) = Some w
        ∧ Js.truthy w = true)
  ∧ (∀ st members m msg,
       Server.calls_provider b = true →
       brevo = Server.Rejected (Some (st, JObj members)) msg →
       st ≠ 0%Z →
       Obj.get "data" members = None →
       Obj.get "message" members = Some (JStr m) → m ≠ EmptyString →
       Server.contact_endpoint b brevo
       = Server.mkReply st (JObj [("error", JStr m)]))
  ∧ (∀ msg,
       Server.calls_provider b = true →
       brevo = Server.Rejected None msg → msg ≠ EmptyString →
       Server.contact_endpoint b brevo
       = Server.mkReply 500 (JObj [("error", JStr msg)])).
Proof.
  split; [|split].
  - intros Hst. destruct (Server.calls_provider b) eqn:Hc.
    + rewrite (contact_endpoint_called b brevo Hc) in *.
      assert (∀ e, ∃ w, Js.prop "error" (Server.body (Server.on_error e)) = Some w
                        ∧ Js.truthy w = true) as Herr.
      { intros e. unfold Server.on_error, Js.object. cbn [Server.body].
        destruct (errorMessage_truthy (Server.errorDetails e)) as (w & -> & Hw).
        exists w. split; [|done]. by simpl. }
      destruct brevo as [st data|resp msg]; [|apply Herr].
      destruct (st =? 201)%Z eqn:E; [|apply Herr].
      apply Z.eqb_eq in E. done.
    + rewrite (contact_endpoint_refused b brevo Hc). by eexists.
  - intros st members m msg Hc -> Hst Hd Hm Hne.
    rewrite (contact_endpoint_called b _ Hc).
    unfold Server.on_error, Server.errorStatus, Server.errorDetails,
      Server.errorMessage, Js.object.
    cbn [Server.response Server.message fmap option_fmap option_map snd
         Js.or_else Js.truthy default Js.prop Js.opt_prop].
    unfold id. cbn [Js.prop].
    rewrite Hd, Hm. apply Z.eqb_neq in Hst. rewrite Hst.
    cbn [Js.opt_prop Js.or_else Js.truthy].
    apply is_empty_false in Hne. by rewrite Hne.
  - intros msg Hc -> Hne. rewrite (contact_endpoint_called b _ Hc).
    apply is_empty_false in Hne.
    unfold Server.on_error, Server.errorStatus, Server.errorDetails,
      Server.errorMessage, Js.object. simpl. by rewrite Hne.
Qed.



(** * The accounts behind the engine's lookups *)

(** X20. Through the check-status endpoint the account context always gets an
    answer it can read: the checked account keeps its [id], [name] and
    [apiKey], its status is ['connected'] exactly when it has an API key and
    the provider answered the check with a 2xx, and ['failed'] otherwise, and
    the answer is kept in [lastCheckResponse]. The fallback on [response.ok]
    is never used. *)
Theorem checkAccountStatus_through_server
    (account : AccountContext.Account) (brevo : Server.Axios) :
  ∃ account',
    AccountContext.checkAccountStatus account (check_via_endpoint account brevo)
    = Some account'
    ∧ AccountContext.id account' = AccountContext.id account
    ∧ AccountContext.name account' = AccountContext.name account
    ∧ AccountContext.apiKey account' = AccountContext.apiKey account
    ∧ (AccountContext.status account' = Some (JStr "connected")
       ∨ AccountContext.status account' = Some (JStr "failed"))
    ∧ (AccountContext.status account' = Some (JStr "connected")
       ↔ AccountContext.apiKey account ≠ EmptyString
         ∧ ∃ st data, brevo = Server.Resolved st data)
    ∧ is_Some (AccountContext.lastCheckResponse account').
Proof.
  unfold check_via_endpoint, Server.check_status_endpoint, Server.getBrevoApiClient.
  destruct (AccountContext.apiKey account) as [|c k] eqn:Hk; cbn [Str.is_empty].
  - eexists. split; [reflexivity|]. simpl. rewrite Hk.
    split; [done|]. split; [done|]. split; [done|]. split; [by right|].
    split; [|by eexists].
    split; [done|by intros [? _]].
  - assert (∀ e, ∃ account',
               AccountContext.checkAccountStatus account
                 (AccountContext.FetchReply
                    (Server.status (Server.check_on_error e))
                    (Some (Server.body (Server.check_on_error e))))
               = Some account'
               ∧ AccountContext.id account' = AccountContext.id account
               ∧ AccountContext.name account' = AccountContext.name account
               ∧ AccountContext.apiKey account' = AccountContext.apiKey account
               ∧ AccountContext.status account' = Some (JStr "failed")
               ∧ is_Some (AccountContext.lastCheckResponse account')) as Herr.
    { intros e. eexists. split; [reflexivity|]. simpl.
      split; [done|]. split; [done|]. split; [done|]. split; [done|].
      destruct (Js.truthy (Server.errorDetails e)); by eexists. }
    destruct brevo as [st data|resp msg].
    + eexists. split; [reflexivity|]. simpl. rewrite Hk.
      split; [done|]. split; [done|]. split; [done|]. split; [by left|].
      split.
      * split; [|done]. intros _. split; [done|]. by exists st, data.
      * destruct (Js.truthy data); by eexists.
    + destruct (Herr (Server.mkCaught resp (Some msg)))
        as (a' & Ha' & Hid & Hn & Hkey & Hst & Hl).
      exists a'. rewrite Hk in Hkey.
      split; [done|]. split; [done|]. split; [done|]. split; [done|].
      split; [by right|].
      split; [|done]. rewrite Hst.
      split; [by intros [=]|by intros [_ (? & ? & ?)]].
Qed.

Lemma or_else_is_Some a v : is_Some (Js.or_else a (Some v)).
Proof.
  destruct a as [u|]; simpl; [destruct (Js.truthy u)|]; by eexists.
Qed.

Lemma checkAccountStatus_keeps account r account' :
  AccountContext.checkAccountStatus account r = Some account' →
  AccountContext.id account' = AccountContext.id account
  ∧ AccountContext.name account' = AccountContext.name account
  ∧ AccountContext.apiKey account' = AccountContext.apiKey account
  ∧ is_Some (AccountContext.status account').
Proof.
  destruct r as [|code [result|]]; simpl; try done.
  destruct result; try done; intros [= <-];
    cbn [AccountContext.id AccountContext.name AccountContext.apiKey
         AccountContext.status];
    repeat (split; [done|]); first [by eexists|apply or_else_is_Some].
Qed.

Lemma check_all_keeps check l : ∀ k l',
  AccountContext.check_all check k l = Some l' →
  Forall2 (λ a a',
             AccountContext.id a' = AccountContext.id a
             ∧ AccountContext.name a' = AccountContext.name a
             ∧ AccountContext.apiKey a' = AccountContext.apiKey a
             ∧ is_Some (AccountContext.status a')) l l'.
Proof.
  induction l as [|a l IH]; intros k l'; simpl.
  - intros [= <-]. constructor.
  - destruct (AccountContext.checkAccountStatus a (check k)) as [a'|] eqn:Ha; [|done].
    destruct (AccountContext.check_all check (S k) l) as [rest|] eqn:Hrest; [|done].
    intros [= <-]. constructor; [by eapply checkAccountStatus_keeps|by eapply IH].
Qed.

Lemma valid_iff a :
  AccountContext.valid a = true
  ↔ AccountContext.id a ≠ EmptyString ∧ AccountContext.name a ≠ EmptyString
    ∧ AccountContext.apiKey a ≠ EmptyString.
Proof.
  unfold AccountContext.valid.
  destruct (AccountContext.id a), (AccountContext.name a), (AccountContext.apiKey a);
    simpl; split; try done; by intros (? & ? & ?).
Qed.

(** What [fetchAccounts] leaves in the state, and how it was reached. *)
Lemma fetchAccounts_cases active data check :
  AccountContext.fetchAccounts active data check = AccountContext.mkState [] None
  ∨ ∃ data' first rest chosen,
      data = Some data'
      ∧ AccountContext.check_all check 0
          (filter (λ acc, AccountContext.valid acc = true) data')
        = Some (first :: rest)
      ∧ AccountContext.fetchAccounts active data check
        = AccountContext.mkState (first :: rest) (Some chosen)
      ∧ chosen ∈ first :: rest
      ∧ (active = None → chosen = first).
Proof.
  unfold AccountContext.fetchAccounts. destruct data as [data'|]; [|by left].
  destruct (AccountContext.check_all check 0 _) as [[|first rest]|] eqn:Hall;
    [by left| |by left].
  right. destruct active as [act|]; cbn [fmap option_fmap option_map].
  - destruct (Str.is_empty (AccountContext.id act)).
    + exists data', first, rest, first.
      split; [done|]. split; [done|]. split; [done|]. split; [left|done].
    + destruct (find (λ a, bool_decide (AccountContext.id a = AccountContext.id act))
                  (first :: rest)) as [found|] eqn:Hf.
      * exists data', first, rest, found.
        split; [done|]. split; [done|]. split; [done|]. split; [|done].
        apply find_some in Hf as [Hin _]. by apply list_elem_of_In.
      * exists data', first, rest, first.
        split; [done|]. split; [done|]. split; [done|]. split; [left|done].
  - exists data', first, rest, first.
    split; [done|]. split; [done|]. split; [done|]. split; [left|done].
Qed.

Lemma fetchAccounts_valid active data check :
  Forall (λ a, AccountContext.id a ≠ EmptyString
               ∧ AccountContext.name a ≠ EmptyString
               ∧ AccountContext.apiKey a ≠ EmptyString
               ∧ is_Some (AccountContext.status a))
         (AccountContext.accounts (AccountContext.fetchAccounts active data check)).
Proof.
  destruct (fetchAccounts_cases active data check)
    as [->|(data' & first & rest & chosen & -> & Hall & -> & _)]; [constructor|].
  cbn [AccountContext.accounts].
  apply check_all_keeps in Hall. revert Hall.
  generalize (first :: rest). intros l' Hall.
  assert (Forall (λ a, AccountContext.valid a = true)
            (filter (λ acc, AccountContext.valid acc = true) data')) as Hv.
  { apply Forall_forall. by intros a [? _]%list_elem_of_filter. }
  revert Hv. induction Hall as [|a a' l l' (Hid & Hn & Hk & Hs) _ IH]; [constructor|].
  intros [Ha Hl]%Forall_cons. constructor; [|by apply IH].
  apply valid_iff in Ha. rewrite Hid, Hn, Hk. tauto.
Qed.

(** X21. After [fetchAccounts], however it went: every account in the state has
    a non-empty [id], [name] and [apiKey] and a status; there is an active
    account exactly when there is an account, and it is one of them. When
    accounts are there, they are the valid ones of the backend's list, in
    order, as far as [id] and [apiKey] go. And the function the provider
    exposes always makes the first account the active one, whichever was
    active before. *)
Theorem fetchAccounts_result
    (active : option AccountContext.Account)
    (data : option (list AccountContext.Account))
    (check : nat → AccountContext.Fetched) :
  Forall (λ a, AccountContext.id a ≠ EmptyString
               ∧ AccountContext.name a ≠ EmptyString
               ∧ AccountContext.apiKey a ≠ EmptyString
               ∧ is_Some (AccountContext.status a))
         (AccountContext.accounts (AccountContext.fetchAccounts active data check))
  ∧ (AccountContext.accounts (AccountContext.fetchAccounts active data check) = []
     ↔ AccountContext.activeAccount (AccountContext.fetchAccounts active data check)
       = None)
  ∧ active_listed (AccountContext.fetchAccounts active data check)
  ∧ (∀ data',
       data = Some data' →
       AccountContext.accounts (AccountContext.fetchAccounts active data check) ≠ [] →
       engine_accounts (AccountContext.fetchAccounts active data check)
       = (λ a, mkAccount (AccountContext.id a) (AccountContext.apiKey a))
         <$> filter (λ acc, AccountContext.valid acc = true) data')
  ∧ AccountContext.activeAccount (AccountContext.provided_fetchAccounts data check)
    = head (AccountContext.accounts (AccountContext.provided_fetchAccounts data check)).
Proof.
  split; [apply fetchAccounts_valid|].
  split; [|split; [|split]].
  - destruct (fetchAccounts_cases active data check)
      as [->|(data' & first & rest & chosen & _ & _ & -> & _)]; by simpl.
  - destruct (fetchAccounts_cases active data check)
      as [->|(data' & first & rest & chosen & _ & _ & -> & Hin & _)].
    + by intros a.
    + intros a. simpl. by intros [= <-].
  - intros data' -> Hne.
    destruct (fetchAccounts_cases active (Some data') check)
      as [Hs|(data2 & first & rest & chosen & [= <-] & Hall & -> & _)].
    + by rewrite Hs in Hne.
    + unfold engine_accounts. cbn [AccountContext.accounts].
      apply check_all_keeps in Hall.
      induction Hall as [|a a' l l' (Hid & _ & Hk & _) _ IH]; [done|].
      rewrite !fmap_cons. by rewrite IH, Hid, Hk.
  - unfold AccountContext.provided_fetchAccounts.
    destruct (fetchAccounts_cases None data check)
      as [->|(data' & first & rest & chosen & _ & _ & -> & _ & Hfirst)]; [done|].
    simpl. by rewrite Hfirst.
Qed.

Lemma find_account_engine_deleted id' s :
  find_account (engine_accounts (AccountContext.deleteAccount id' true s)) id' = None.
Proof.
  apply find_account_None. unfold engine_accounts. simpl.
  intros acc (a & -> & [Ha _]%list_elem_of_filter)%list_elem_of_fmap. done.
Qed.

Lemma find_account_engine_other id' s accountId :
  accountId ≠ id' →
  find_account (engine_accounts (AccountContext.deleteAccount id' true s)) accountId
  = find_account (engine_accounts s) accountId.
Proof.
  intros Hne. unfold engine_accounts, find_account. simpl.
  induction (AccountContext.accounts s) as [|a l IH]; [done|].
  rewrite filter_cons. destruct (decide (AccountContext.id a ≠ id')) as [Ha|Ha].
  - rewrite !fmap_cons. simpl. by rewrite IH.
  - apply dec_stable in Ha. rewrite fmap_cons. simpl.
    rewrite bool_decide_eq_false_2 by congruence. done.
Qed.

(** X22. Once [deleteAccount] has gone through, no account with that id is left
    and the deleted account is not the active one; an active account that
    was one of the accounts still is; the engine refuses to start an import
    for the deleted account, with the notice that the account was not found,
    and finds every other account as before. *)
Theorem deleted_account_cannot_start
    (id' : string) (s : AccountContext.State)
    (uuid listId listName importData : string) (delay : Z) (σ : Store) :
  (∀ a, a ∈ AccountContext.accounts (AccountContext.deleteAccount id' true s)
        ↔ a ∈ AccountContext.accounts s ∧ AccountContext.id a ≠ id')
  ∧ (∀ a, AccountContext.activeAccount (AccountContext.deleteAccount id' true s)
          = Some a → AccountContext.id a ≠ id')
  ∧ (active_listed s → active_listed (AccountContext.deleteAccount id' true s))
  ∧ startJob (engine_accounts (AccountContext.deleteAccount id' true s))
      uuid id' listId listName importData delay σ
    = (None, toast ToastAccountNotFound σ)
  ∧ (∀ accountId, accountId ≠ id' →
       find_account (engine_accounts (AccountContext.deleteAccount id' true s))
         accountId
       = find_account (engine_accounts s) accountId).
Proof.
  assert (∀ a, head (filter (λ acc, AccountContext.id acc ≠ id')
                       (AccountContext.accounts s)) = Some a →
               a ∈ AccountContext.accounts s ∧ AccountContext.id a ≠ id') as Hhead.
  { intros a Ha. apply head_Some_elem_of in Ha.
    apply list_elem_of_filter in Ha. tauto. }
  split; [|split; [|split; [|split]]].
  - intros a. simpl. rewrite list_elem_of_filter. tauto.
  - intros a. simpl. case_decide as Hact.
    + intros Ha. by apply Hhead.
    + intros Ha Hid. apply Hact. by rewrite Ha, <- Hid.
  - intros Hl a. simpl. case_decide as Hact.
    + intros Ha. apply list_elem_of_filter. apply Hhead in Ha. tauto.
    + intros Ha. apply list_elem_of_filter. split; [|by apply Hl].
      intros Hid. apply Hact. by rewrite Ha, <- Hid.
  - unfold startJob. by rewrite find_account_engine_deleted.
  - intros accountId Hne. by apply find_account_engine_other.
Qed.

(** X23. [setActiveAccount] neither adds nor removes an account and leaves the
    ids where they are; the account it is given becomes the active one, and
    is one of the accounts afterwards exactly when an account with its id was
    there. *)
Theorem setActiveAccount_keeps_ids
    (account : option AccountContext.Account) (s : AccountContext.State) :
  AccountContext.id <$> AccountContext.accounts (AccountContext.setActiveAccount account s)
  = AccountContext.id <$> AccountContext.accounts s
  ∧ AccountContext.activeAccount (AccountContext.setActiveAccount account s) = account
  ∧ (∀ a, account = Some a →
       (a ∈ AccountContext.accounts (AccountContext.setActiveAccount account s)
        ↔ ∃ b, b ∈ AccountContext.accounts s
               ∧ AccountContext.id b = AccountContext.id a)).
Proof.
  split; [|split; [done|]].
  - destruct account as [a|]; [|done]. simpl.
    induction (AccountContext.accounts s) as [|b l IH]; [done|].
    rewrite !fmap_cons, IH. by case_decide as Hb; [rewrite Hb|].
  - intros a ->. simpl. rewrite list_elem_of_fmap. split.
    + intros (b & Hb & Hin). exists b. split; [done|].
      case_decide as Hid; [done|]. by subst.
    + intros (b & Hin & Hid). exists b. split; [|done]. by rewrite decide_True.
Qed.



(** * The loop only moves forward *)

Lemma position_index p i : pc_index p = Some i → 3 * i + 1 ≤ position p ≤ 3 * i + 3.
Proof. destruct p; simpl; intros [= ->]; lia. Qed.

(** X25. Every wake-up ends the invocation, leaves it polling in the same pause
    wait, or moves it to a later stop: from the pause wait to the delay or the
    request for the same contact, from the delay to the request, and from a
    request to a stop of the next contact. So a request is never sent again
    and no contact is skipped or visited out of order; and a suspended
    invocation always holds the contact of the iteration it is in. *)
Theorem loop_only_moves_forward
    (t : Task) (p : pc) (ev : event) (σ : Store) (p' : pc) (σ' : Store) :
  awaited p ev = true →
  resume t p ev σ = (p', σ') →
  pc_ok t p →
  pc_ok t p'
  ∧ (p' = Finished
     ∨ position p < position p'
     ∨ p' = p ∧ σ' = σ ∧ ∃ i contact controls, p = AwaitPause i contact controls)
  ∧ (∀ i, pc_index p = Some i →
       p' = Finished ∨ pc_index p' = Some i ∨ pc_index p' = Some (S i))
  ∧ (∀ i contact o, p = AwaitFetch i contact → ev = Reply o →
       p' = Finished ∨ pc_index p' = Some (S i)).
Proof.
  intros Haw Hres Hok.
  assert (∀ σ1, after_loop t σ1 = (p', σ') → p' = Finished) as Hafter.
  { intros σ1 H. pose proof (after_loop_pc t σ1) as Hpc. by rewrite H in Hpc. }
  destruct p as [|i contact l|i contact|i contact|]; destruct ev as [|o];
    try discriminate Haw; cbn [resume] in Hres.
  - (* the yield *)
    pose proof (loop_top_pc_index t 0 (installed t σ)) as Hidx.
    unfold install in Hres. rewrite Hres in Hidx. cbn [fst] in Hidx.
    split; [by apply (loop_top_pc_ok t 0 (installed t σ) p' σ')|].
    split; [|split; [done|done]].
    destruct Hidx as [->|Hidx]; [by left|]. right. left.
    apply position_index in Hidx. simpl. lia.
  - (* a poll of the pause wait *)
    assert (t_contacts t !! i = Some contact) as Hc by (by apply Hok).
    assert (p' = Finished
            ∨ p' = AwaitPause i contact l ∧ σ' = σ
            ∨ p' = AwaitDelay i contact
            ∨ p' = AwaitFetch i contact) as Hcases.
    { revert Hres. unfold pause_wait, post_pause, post_delay.
      destruct (isPaused (deref σ l)).
      - destruct (isCancelled (deref σ l)); intros [= <- <-]; tauto.
      - destruct (cancel_requested (t_jobId t) σ); [intros H%Hafter; tauto|].
        destruct (bool_decide (0 < i) && bool_decide (0 < t_delay t)%Z);
          [intros [= <- <-]; tauto|].
        intros [= <- <-]. tauto. }
    split.
    { destruct Hcases as [->|[[-> _]|[->| ->]]]; intros ? ? [=] [=]; by subst. }
    split; [|split].
    + destruct Hcases as [->|[[-> ->]|[->| ->]]].
      * by left.
      * right. right. split; [done|]. split; [done|]. by exists i, contact, l.
      * right. left. simpl. lia.
      * right. left. simpl. lia.
    + intros ? [= <-]. destruct Hcases as [->|[[-> _]|[->| ->]]]; simpl; tauto.
    + by intros.
  - (* the end of the delay *)
    assert (t_contacts t !! i = Some contact) as Hc by (by apply Hok).
    assert (p' = Finished ∨ p' = AwaitFetch i contact) as Hcases.
    { revert Hres. unfold post_delay.
      destruct (cancel_requested (t_jobId t) σ); [intros H%Hafter; tauto|].
      intros [= <- <-]. tauto. }
    split.
    { destruct Hcases as [->| ->]; intros ? ? [=] [=]; by subst. }
    split; [|split].
    + destruct Hcases as [->| ->]; [by left|]. right. left. simpl. lia.
    + intros ? [= <-]. destruct Hcases as [->| ->]; simpl; tauto.
    + by intros.
  - (* the answer to a request *)
    pose proof (loop_top_pc_index t (S i)
                  (record_result (t_jobId t) i contact o σ)) as Hidx.
    rewrite Hres in Hidx. cbn [fst] in Hidx.
    split; [by apply (loop_top_pc_ok t (S i) _ p' σ' Hres)|].
    split; [|split].
    + destruct Hidx as [->|Hidx]; [by left|]. right. left.
      apply position_index in Hidx. simpl. lia.
    + intros ? [= <-]. tauto.
    + intros ? ? ? [= <- <-] _. tauto.
Qed.

(** ** The endpoint and the accounts at work on the sample data *)

Lemma contact_endpoint_status_witness :
  Server.status
    (Server.contact_endpoint (request_body Sample.task_j1 Sample.c0) Cases.brevo_created)
  = 201%Z
  ∧ Server.contact_endpoint (request_body Sample.task_j1 Sample.c0) Cases.brevo_created
    = Server.mkReply 201 (JObj [("id", JNum 7)]).
Proof.
  destruct (contact_endpoint_status (request_body Sample.task_j1 Sample.c0)
              Cases.brevo_created) as (H201 & Hdata & _).
  - simpl. lia.
  - split.
    + apply H201. split; [reflexivity|]. by eexists.
    + apply Hdata; reflexivity.
Defined.



Lemma loop_only_moves_forward_witness :
  pc_ok Sample.task_j1 (AwaitFetch 1 Sample.c1)
  ∧ (AwaitFetch 1 Sample.c1 = Finished
     ∨ position (AwaitFetch 0 Sample.c0) < position (AwaitFetch 1 Sample.c1)
     ∨ AwaitFetch 1 Sample.c1 = AwaitFetch 0 Sample.c0
       ∧ store (Sample.after Cases.one_created) = store (Sample.after [Sample.start_j1])
       ∧ ∃ i contact controls, AwaitFetch 0 Sample.c0 = AwaitPause i contact controls).
Proof.
  destruct (loop_only_moves_forward Sample.task_j1 (AwaitFetch 0 Sample.c0)
              (Reply Sample.created) (store (Sample.after [Sample.start_j1]))
              (AwaitFetch 1 Sample.c1) (store (Sample.after Cases.one_created)))
    as (Hok & Hpos & _).
  - reflexivity.
  - vm_compute. reflexivity.
  - intros i contact [= <-] [= <-]. reflexivity.
  - split; [exact Hok|exact Hpos].
Defined.

(** * One job's steps leave the other jobs alone *)

Lemma resume_isolated t p ev σ p' σ' k :
  awaited p ev = true →
  resume t p ev σ = (p', σ') →
  (p = AwaitYield → Obj.get (t_jobId t) (jobs σ) = None) →
  (∀ j, Obj.get (t_jobId t) (jobs σ) = Some j → ¬ terminal (Job.status j)) →
  k ≠ t_jobId t →
  Obj.get k (jobs σ') = Obj.get k (jobs σ)
  ∧ jobControlRefs σ' !! k = jobControlRefs σ !! k
  ∧ ∀ l, l < length (heap σ) → heap σ' !! l = heap σ !! l.
Proof.
  intros Haw Hres Hy Hnt Hne.
  destruct (resume_effect t p ev σ p' σ' Haw Hres Hy Hnt) as [Hother _].
  destruct (Hother k Hne) as [Hj Hr]. split; [done|]. split; [done|].
  destruct (resume_shape t p ev σ Haw) as (σx & Hshape & Hx).
  rewrite Hres in Hshape.
  destruct (loop_shape_frame t σx p' σ' Hshape) as (_ & Hheap & _).
  intros l Hl. rewrite Hheap.
  destruct p as [|i contact c|i contact|i contact|]; destruct ev as [|o];
    try discriminate Haw; subst σx; try done.
  - unfold installed. cbn [heap toast setJobs setRefs setHeap]. by rewrite lookup_app_l.
  - by rewrite record_result_heap.
Qed.

(** X26. Jobs are isolated from one another. A step of the engine that is not
    about a job (a command that names another job, the wake-up of another
    job's invocation, a tick while the job is not running, a start that is
    neither this job's nor for the account whose job it is) leaves that job's
    published state, its flag entry and its control object exactly as they
    were. *)
Theorem jobs_are_isolated (s s' : System) (c : command) (k : string) :
  reachable s →
  sys_step c s = Some s' →
  ¬ concerns c s k →
  Obj.get k (jobs (store s')) = Obj.get k (jobs (store s))
  ∧ jobControlRefs (store s') !! k = jobControlRefs (store s) !! k
  ∧ ∀ l, jobControlRefs (store s) !! k = Some l →
         heap (store s') !! l = heap (store s) !! l.
Proof.
  intros Hreach Hstep Hk. pose proof (Inv_reachable s Hreach) as HI.
  destruct Hreach as [cs Hcs].
  pose proof (mirrored_exec cs init s Inv_init mirrored_init Hcs) as [Ha Hi _ _].
  assert (∀ k0 l0 f l,
            jobControlRefs (store s) !! k0 = Some l0 → k ≠ k0 →
            jobControlRefs (store s) !! k = Some l →
            alter f l0 (heap (store s)) !! l = heap (store s) !! l) as Halter.
  { intros k0 l0 f l H0 Hne Hl. apply list_lookup_alter_ne.
    intros ->. apply Hne. by apply (Hi k k0 l). }
  destruct c as [accounts uuid a li ln d dl|k0|k0|k0| |n ev]; simpl in Hstep, Hk.
  - case_decide as Hu; [done|].
    destruct (startJob accounts uuid a li ln d dl (store s)) as [r σ'] eqn:Hs.
    injection Hstep as <-. cbn [store].
    destruct (Inv_fresh_id s uuid HI) as [Hnj Hnr]; [tauto|].
    destruct (startJob_cases accounts uuid a li ln d dl (store s))
      as [[n Hc]|[(t & p & σ0 & Hc & Hid & _ & _ & Hres & _)
                 |(t & e & Hc & _ & _ & _ & He & _)]];
      rewrite Hc in Hs; injection Hs as <- <-.
    + done.
    + destruct (resume_isolated t AwaitYield Timer (store s) p σ0 k eq_refl Hres)
        as (Hj & Hr & Hh).
      * intros _. by rewrite Hid.
      * intros j. by rewrite Hid, Hnj.
      * rewrite Hid. intros ->. apply Hk. by left.
      * split; [done|]. split; [done|]. intros l Hl. apply Hh. by apply (Ha k).
    + assert (e ≠ k) as Hne. { intros ->. apply Hk. by right. }
      cbn [jobs jobControlRefs heap removeJob setJobs setRefs].
      split; [by apply ObjFacts.get_del_ne|].
      split; [by rewrite !lookup_delete_ne|done].
  - injection Hstep as <-. cbn [store]. unfold pauseJob.
    destruct (jobControlRefs (store s) !! k0) as [l0|] eqn:H0; [|done].
    cbn [jobs jobControlRefs heap toast].
    split; [by apply (updateJobStatus_get_ne k0 paused (setHeap _ (store s)))|].
    split; [done|]. intros l Hl. by apply (Halter k0 l0).
  - injection Hstep as <-. cbn [store]. unfold resumeJob.
    destruct (jobControlRefs (store s) !! k0) as [l0|] eqn:H0; [|done].
    cbn [jobs jobControlRefs heap toast].
    split; [by apply (updateJobStatus_get_ne k0 running (setHeap _ (store s)))|].
    split; [done|]. intros l Hl. by apply (Halter k0 l0).
  - injection Hstep as <-. cbn [store]. unfold cancelJob.
    destruct (jobControlRefs (store s) !! k0) as [l0|] eqn:H0; [|done].
    cbn [jobs jobControlRefs heap toast setHeap].
    split; [done|]. split; [done|]. intros l Hl. by apply (Halter k0 l0).
  - injection Hstep as <-. cbn [store tick jobs jobControlRefs heap setJobs].
    split; [|done]. rewrite tick_jobs_get.
    destruct (Obj.get k (jobs (store s))) as [j|] eqn:Hj; [|done].
    simpl. f_equal. unfold tick_job. case_decide as Hr; [|done].
    destruct Hk. by exists j.
  - destruct (tasks s !! n) as [[t p]|] eqn:Hn; [|done].
    destruct (awaited p ev) eqn:Haw; [|done].
    destruct (resume t p ev (store s)) as [p' σ'] eqn:Hres.
    injection Hstep as <-. cbn [store].
    pose proof (list_elem_of_lookup_2 _ _ _ Hn) as Hin.
    destruct (resume_isolated t p ev (store s) p' σ' k Haw Hres) as (Hj & Hr & Hh).
    + intros ->. by apply (inv_yield_unpublished s HI t).
    + intros j Hj Hterm.
      rewrite (inv_terminal_finished s HI t p j Hin Hj Hterm) in Haw. by destruct ev.
    + intros ->. apply Hk. by exists t, p.
    + split; [done|]. split; [done|]. intros l Hl. apply Hh. by apply (Ha k).
Qed.

Lemma jobs_are_isolated_witness :
  Obj.get "j1" (jobs (store (Sample.after (Cases.two_jobs ++ [CmdPause "j3"]))))
  = Obj.get "j1" (jobs (store (Sample.after Cases.two_jobs)))
  ∧ jobControlRefs (store (Sample.after (Cases.two_jobs ++ [CmdPause "j3"]))) !! "j1"
    = jobControlRefs (store (Sample.after Cases.two_jobs)) !! "j1"
  ∧ ∀ l, jobControlRefs (store (Sample.after Cases.two_jobs)) !! "j1" = Some l →
         heap (store (Sample.after (Cases.two_jobs ++ [CmdPause "j3"]))) !! l
         = heap (store (Sample.after Cases.two_jobs)) !! l.
Proof.
  apply (jobs_are_isolated (Sample.after Cases.two_jobs)
           (Sample.after (Cases.two_jobs ++ [CmdPause "j3"])) (CmdPause "j3") "j1").
  - exists Cases.two_jobs. vm_compute. reflexivity.
  - vm_compute. reflexivity.
  - simpl. discriminate.
Defined.

(** * Deleting contacts *)

Lemma delete_one_spec brevo k email results :
  Server.r_success (Server.delete_one brevo k email results)
  = Server.r_success results ++ (if deleted brevo k then [email] else [])
  ∧ Server.f_email <$> Server.r_failed (Server.delete_one brevo k email results)
    = (Server.f_email <$> Server.r_failed results)
      ++ (if deleted brevo k then [] else [email]).
Proof.
  unfold Server.delete_one, deleted. destruct (brevo k) as [st data|resp msg].
  - destruct (st =? 204)%Z eqn:E.
    + apply Z.eqb_eq in E. rewrite bool_decide_eq_true_2 by done.
      simpl. by rewrite !app_nil_r.
    + apply Z.eqb_neq in E. rewrite bool_decide_eq_false_2 by done.
      simpl. by rewrite fmap_app, app_nil_r.
  - simpl. by rewrite fmap_app, app_nil_r.
Qed.

Lemma delete_each_spec brevo emails : ∀ k results,
  Server.r_success (Server.delete_each brevo k emails results)
  = Server.r_success results
    ++ (fst <$> filter (λ ek, deleted brevo (snd ek) = true) (numbered k emails))
  ∧ Server.f_email <$> Server.r_failed (Server.delete_each brevo k emails results)
    = (Server.f_email <$> Server.r_failed results)
      ++ (fst <$> filter (λ ek, deleted brevo (snd ek) = false) (numbered k emails)).
Proof.
  induction emails as [|email rest IH]; intros k results.
  - simpl. by rewrite !app_nil_r.
  - cbn [Server.delete_each]. destruct (IH (S k) (Server.delete_one brevo k email results))
      as [Hs Hf].
    destruct (delete_one_spec brevo k email results) as [Hs1 Hf1].
    rewrite Hs, Hf, Hs1, Hf1. unfold numbered. cbn [length seq zip zip_with].
    rewrite !filter_cons. cbn [snd].
    destruct (deleted brevo k) eqn:Hd.
    + rewrite decide_True by done. rewrite decide_False by done.
      rewrite fmap_cons, app_nil_r. simpl. by rewrite <- app_assoc.
    + rewrite decide_False by done. rewrite decide_True by done.
      rewrite fmap_cons, app_nil_r. simpl. by rewrite <- app_assoc.
Qed.

Lemma numbered_split brevo k emails :
  length (filter (λ ek, deleted brevo (snd ek) = true) (numbered k emails))
  + length (filter (λ ek, deleted brevo (snd ek) = false) (numbered k emails))
  = length emails.
Proof.
  unfold numbered. revert k. induction emails as [|email rest IH]; intros k; [done|].
  cbn [length seq zip zip_with]. rewrite !filter_cons. cbn [snd].
  specialize (IH (S k)).
  destruct (deleted brevo k).
  - rewrite decide_True by done. rewrite decide_False by done. simpl. lia.
  - rewrite decide_False by done. rewrite decide_True by done. simpl. lia.
Qed.

(** X27. The endpoint that deletes contacts refuses a request without an API key
    or without emails (400). Otherwise it reports on every email exactly
    once: [success] holds the emails the provider answered 204 for and
    [failed] the others, each list in the order of the request, whatever went
    wrong with one email not stopping the next. The status is 200 exactly
    when nothing failed, 500 exactly when nothing succeeded, and 207 when
    some did and some did not. *)
Theorem delete_contacts_reports_every_email
    (apiKey : string) (emails : list string) (brevo : nat → Server.Axios) :
  (apiKey = EmptyString ∨ emails = [] →
   Server.delete_contacts_endpoint apiKey emails brevo
   = Server.mkDeleteReply 400 (Server.DeleteError "apiKey and emails array required."))
  ∧ (apiKey ≠ EmptyString → emails ≠ [] →
     ∃ message results,
       Server.delete_contacts_endpoint apiKey emails brevo
       = Server.mkDeleteReply
           (if bool_decide (Server.r_failed results = []) then 200
            else if bool_decide (Server.r_success results = []) then 500 else 207)%Z
           (Server.DeleteReport message results)
       ∧ Server.r_success results
         = fst <$> filter (λ ek, deleted brevo (snd ek) = true) (numbered 0 emails)
       ∧ Server.f_email <$> Server.r_failed results
         = fst <$> filter (λ ek, deleted brevo (snd ek) = false) (numbered 0 emails)
       ∧ length (Server.r_success results) + length (Server.r_failed results)
         = length emails).
Proof.
  split.
  - intros [-> | ->]; unfold Server.delete_contacts_endpoint; [done|].
    simpl. by rewrite orb_true_r.
  - intros Hk He. unfold Server.delete_contacts_endpoint.
    apply is_empty_false in Hk. rewrite Hk.
    rewrite bool_decide_eq_false_2 by (by destruct emails). cbn [orb].
    destruct (delete_each_spec brevo emails 0 (Server.mkResults [] [])) as [Hs Hf].
    cbn [Server.r_success Server.r_failed fmap list_fmap app] in Hs, Hf.
    set (results := Server.delete_each brevo 0 emails (Server.mkResults [] [])) in *.
    assert (length (Server.r_success results) + length (Server.r_failed results)
            = length emails) as Hlen.
    { rewrite <- (length_fmap Server.f_email), Hs, Hf, !length_fmap.
      apply numbered_split. }
    destruct (Server.r_failed results) as [|f fs] eqn:Hfailed.
    + eexists _, results. simpl. rewrite Hfailed. by repeat split.
    + destruct (Server.r_success results) as [|e es] eqn:Hsucc.
      * eexists _, results. simpl. rewrite Hfailed, Hsucc. by repeat split.
      * eexists _, results. simpl. rewrite Hfailed, Hsucc. by repeat split.
Qed.

Lemma delete_contacts_reports_every_email_witness :
  ∃ message results,
    Server.delete_contacts_endpoint "key-A" ["a@x.com"; "b@x.com"]
      (λ k, if decide (k = 0) then Server.Resolved 204 (JStr EmptyString)
            else Server.Rejected (Some (404%Z, JObj [("message", JStr "not found")]))
                   "Request failed")
    = Server.mkDeleteReply
        (if bool_decide (Server.r_failed results = []) then 200
         else if bool_decide (Server.r_success results = []) then 500 else 207)%Z
        (Server.DeleteReport message results)
    ∧ Server.r_success results = ["a@x.com"]
    ∧ Server.f_email <$> Server.r_failed results = ["b@x.com"]
    ∧ length (Server.r_success results) + length (Server.r_failed results) = 2.
Proof.
  destruct (delete_contacts_reports_every_email "key-A" ["a@x.com"; "b@x.com"]
              (λ k, if decide (k = 0) then Server.Resolved 204 (JStr EmptyString)
                    else Server.Rejected
                           (Some (404%Z, JObj [("message", JStr "not found")]))
                           "Request failed")) as [_ H].
  destruct H as (message & results & Heq & Hs & Hf & Hlen);
    [discriminate|discriminate|].
  exists message, results.
  split; [exact Heq|]. split; [exact Hs|]. split; [exact Hf|exact Hlen].
Defined.

(** * Removing a job *)

Lemma del_idemp {A} k (o : list (string * A)) : Obj.del k (Obj.del k o) = Obj.del k o.
Proof.
  unfold Obj.del. induction o as [|[k0 v0] o IH]; [done|].
  rewrite filter_cons. simpl. case_decide as Hk; [|done].
  rewrite filter_cons. simpl. rewrite decide_True by done. by rewrite IH.
Qed.

Lemma del_absent {A} k (o : list (string * A)) :
  Obj.get k o = None → Obj.del k o = o.
Proof.
  unfold Obj.del. induction o as [|[k0 v0] o IH]; [done|]. simpl.
  destruct (decide (k0 = k)) as [->|Hne]; [done|]. intros H.
  rewrite filter_cons. simpl. rewrite decide_True by done. by rewrite IH.
Qed.

Lemma keys_del_filter {A} k (o : list (string * A)) :
  Obj.keys (Obj.del k o) = filter (λ k', k' ≠ k) (Obj.keys o).
Proof.
  unfold Obj.keys, Obj.del. induction o as [|[k0 v0] o IH]; [done|].
  rewrite fmap_cons, !filter_cons. simpl. case_decide; [|done].
  by rewrite fmap_cons, IH.
Qed.

(** X28. [removeJob] takes away the job and its flag entry and nothing else:
    every other job and flag entry stays, the remaining jobs keep their
    order, and the control objects and notices are untouched. Removing twice
    is removing once, and removing a job that is not there changes
    nothing. *)
Theorem removeJob_removes_only_that_job (σ : Store) (jobId : string) :
  Obj.get jobId (jobs (removeJob jobId σ)) = None
  ∧ jobControlRefs (removeJob jobId σ) !! jobId = None
  ∧ (∀ k, k ≠ jobId →
       Obj.get k (jobs (removeJob jobId σ)) = Obj.get k (jobs σ)
       ∧ jobControlRefs (removeJob jobId σ) !! k = jobControlRefs σ !! k)
  ∧ Obj.keys (jobs (removeJob jobId σ)) = filter (λ k, k ≠ jobId) (Obj.keys (jobs σ))
  ∧ heap (removeJob jobId σ) = heap σ
  ∧ toasts (removeJob jobId σ) = toasts σ
  ∧ removeJob jobId (removeJob jobId σ) = removeJob jobId σ
  ∧ (Obj.get jobId (jobs σ) = None → jobControlRefs σ !! jobId = None →
     removeJob jobId σ = σ).
Proof.
  unfold removeJob, setRefs, setJobs. cbn [jobs jobControlRefs heap toasts].
  split; [apply ObjFacts.get_del_eq|].
  split; [apply lookup_delete_eq|].
  split.
  { intros k Hne. split; [by apply ObjFacts.get_del_ne|by apply lookup_delete_ne]. }
  split; [apply keys_del_filter|].
  split; [done|]. split; [done|].
  split; [by rewrite del_idemp, delete_delete_eq|].
  intros Hj Hr. rewrite (del_absent _ _ Hj), (delete_id _ _ Hr). by destruct σ.
Qed.
